(** * Pivoting, column generation, knapsack pricing and IPFP

    A shallow embedding of the algorithmic core of the
    math-econ-code notebooks: the [Pivoter] / [MatrixTableau] classes of
    the column-generation notebook, the cutting-stock loop with its
    [knapsack] pricing oracle, the three IPFP solvers attached to
    [OTProblem], and the Lemke-Howson driver of [Bimatrix_game].

    Conventions.  A numpy float array is a function from indices to the
    reals, used only below its length, which is carried separately (the
    source keeps it in [nbb], [nbx], [nby], [nbi], ...).  Floating point
    is read as exact real arithmetic.  A Python exception is a [Raise]
    in the [result] monad. *)

From Stdlib Require Import Reals Lra Lia List Arith PeanoNat Bool.
From Stdlib Require ClassicalEpsilon.
From Stdlib Require String Ascii DecimalString.
Import ListNotations.

Local Open Scope R_scope.

(** ** Exceptions and the result monad *)

Inductive exn : Type :=
| LinAlgError        (* numpy.linalg.solve on a singular matrix *)
| ValueError         (* min() / max() of an empty sequence *)
| IndexError         (* index out of range *)
| UnboundLocalError  (* a local read before any assignment *)
| UnboundedError.    (* named by the specification; only the modelled [Tableau] raises it *)

Inductive result (A : Type) : Type :=
| Ok (a : A)
| Raise (e : exn).

Arguments Ok {A} a.
Arguments Raise {A} e.

Definition bind {A B : Type} (r : result A) (f : A -> result B) : result B :=
  match r with
  | Ok a => f a
  | Raise e => Raise e
  end.

Notation "x <- r ;; k" := (bind r (fun x => k))
  (at level 61, r at next level, right associativity).

(** ** Arrays *)

Definition vec := nat -> R.
Definition mat := nat -> nat -> R.

(** [a.sum()] over the first [n] entries. *)
Fixpoint np_sum (n : nat) (a : vec) : R :=
  match n with
  | O => 0
  | S k => np_sum k a + a k
  end.

(** [a.max()] over the first [n] entries; numpy raises [ValueError] on an
    empty array. *)
Fixpoint np_max_from (best : R) (n : nat) (a : vec) : R :=
  match n with
  | O => best
  | S k => Rmax (np_max_from best k a) (a k)
  end.

Definition np_max (n : nat) (a : vec) : result R :=
  match n with
  | O => Raise ValueError
  | S k => Ok (np_max_from (a O) k (fun i => a (S i)))
  end.

(** [a.dot(b)] *)
Definition dot (n : nat) (a b : vec) : R := np_sum n (fun i => a i * b i).

(** [M @ v] and [M.T @ v] for an [n] x [n] matrix. *)
Definition matvec (n : nat) (M : mat) (v : vec) : vec :=
  fun i => np_sum n (fun j => M i j * v j).

Definition transpose (M : mat) : mat := fun i j => M j i.

Definition identity : mat := fun i j => if Nat.eqb i j then 1 else 0.

Definition is_inverse (n : nat) (M Minv : mat) : Prop :=
  forall i j, (i < n)%nat -> (j < n)%nat ->
    np_sum n (fun k => M i k * Minv k j) = identity i j /\
    np_sum n (fun k => Minv i k * M k j) = identity i j.

Definition invertible (n : nat) (M : mat) : Prop := exists Minv, is_inverse n M Minv.

Definition solves (n : nat) (M : mat) (a z : vec) : Prop :=
  forall i, (i < n)%nat -> matvec n M z i = a i.

(** [np.linalg.solve(M, a)]: the solution of [M z = a] when [M] is
    invertible, [LinAlgError] otherwise. *)
Definition linalg_solve (n : nat) (M : mat) (a : vec) : result vec :=
  if ClassicalEpsilon.excluded_middle_informative (invertible n M)
  then Ok (ClassicalEpsilon.epsilon (inhabits (fun _ => 0)) (solves n M a))
  else Raise LinAlgError.

(** ** Dictionaries keyed by integers

    [{k: v for ...}] keeps insertion order; [min(d, key=d.get)] and
    [max(d, key=d.get)] return the first key whose value is extremal. *)

Definition dict := list (nat * R).

Fixpoint min_from (best : nat * R) (d : dict) : nat * R :=
  match d with
  | [] => best
  | kv :: d' => min_from (if Rlt_dec (snd kv) (snd best) then kv else best) d'
  end.

Definition dict_min (d : dict) : result (nat * R) :=
  match d with
  | [] => Raise ValueError
  | kv :: d' => Ok (min_from kv d')
  end.

Fixpoint max_from (best : nat * R) (d : dict) : nat * R :=
  match d with
  | [] => best
  | kv :: d' => max_from (if Rlt_dec (snd best) (snd kv) then kv else best) d'
  end.

Definition dict_max (d : dict) : result (nat * R) :=
  match d with
  | [] => Raise ValueError
  | kv :: d' => Ok (max_from kv d')
  end.

(** The dictionary of the minimum-ratio rule,
    [{b: x[b] / z[b] for b in range(n) if z[b] > 0}], which the source
    writes out at each of its ratio tests. *)
Definition ratios (n : nat) (x z : vec) : dict :=
  flat_map (fun b => if Rlt_dec 0 (z b) then [(b, x b / z b)] else []) (seq 0 n).

(** ** [Pivoter] (column-generation notebook) *)

Module Pivoter.

Record t : Type := mk {
    nbb : nat;
    B_i_b : mat;
    x_b : vec
  }.

  (** [{b: x_b[b] / z_b[b] for b in range(nbb) if z_b[b] > 0}] *)
Definition thedic (self : t) (z_b : vec) : dict :=
    flat_map (fun b => if Rlt_dec 0 (z_b b) then [(b, x_b self b / z_b b)] else [])
             (seq 0 (nbb self)).

Definition determine_departing (self : t) (Nent_i : vec) : result (nat * R) :=
    z_b <- linalg_solve (nbb self) (B_i_b self) Nent_i ;;
    dict_min (thedic self z_b).

Definition update (self : t) (bdep : nat) (epsilon : R) (Nent_i : vec) : result t :=
    z_b <- linalg_solve (nbb self) (B_i_b self) Nent_i ;;
    let x1 := fun b => x_b self b - epsilon * z_b b in
    if (bdep <? nbb self)%nat then
      Ok {| nbb := nbb self;
            B_i_b := fun i b => if Nat.eqb b bdep then Nent_i i else B_i_b self i b;
            x_b := fun b => if Nat.eqb b bdep then epsilon else x1 b |}
    else Raise IndexError.

End Pivoter.

(** ** [MatrixTableau(Pivoter)] (column-generation notebook)

    Only the pivoting methods are embedded; [display], [gurobi_solve] and
    the variable names play no role below. *)

Module MatrixTableau.

Record t : Type := mk {
    pivoter : Pivoter.t;       (* the inherited nbb, B_i_b, x_b *)
    N_i_n : mat;
    d_i : vec;
    c_b : vec;
    c_n : vec;
    nbn : nat
  }.

Definition determine_departing (self : t) (nent : nat) : result (nat * R) :=
    Pivoter.determine_departing (pivoter self) (fun i => N_i_n self i nent).

Definition update (self : t) (bdep nent : nat) (epsilon : R) : result t :=
    let Nent_i := fun i => N_i_n self i nent in
    let Bdep_i := fun i => Pivoter.B_i_b (pivoter self) i bdep in
    p' <- Pivoter.update (pivoter self) bdep epsilon Nent_i ;;
    Ok {| pivoter := p';
          N_i_n := fun i n => if Nat.eqb n nent then Bdep_i i else N_i_n self i n;
          d_i := d_i self;
          c_b := fun b => if Nat.eqb b bdep then c_n self nent else c_b self b;
          c_n := fun n => if Nat.eqb n nent then c_b self bdep else c_n self n;
          nbn := nbn self |}.

End MatrixTableau.

(** ** Cutting stock: the [knapsack] oracle and the column-generation loop

    [w_i] is a global of the notebook (the item widths), so it is a
    parameter here.  [v // w_i[i]] on numpy integers is [Nat.div]; both
    give 0 when the divisor is 0. *)

Module CuttingStock.

Section WithWidths.

Variable w_i : nat -> nat.

    (** [{a: k_i[i+1]*a + F[i, v-a*w_i[i+1]] for a in range((v // w_i[i+1]) + 1)}] *)
Definition thedic (k_i : vec) (i : nat) (F_i : nat -> R) (v : nat) : dict :=
      map (fun a => (a, k_i (S i) * INR a + F_i (v - a * w_i (S i))%nat))
          (seq 0 (v / w_i (S i) + 1)).

    (** [max(thedic, key = thedic.get)] together with its value; [thedic]
        always holds the key 0, so the [ValueError] of an empty [max] is
        not reachable and is replaced by a default. *)
Definition best (d : dict) : nat * R :=
      match dict_max d with
      | Ok kv => kv
      | Raise _ => (O, 0)
      end.

    (** Row [i] of the table [F]. *)
Fixpoint F (k_i : vec) (i : nat) (v : nat) : R :=
      match i with
      | O => INR (v / w_i 0) * Rmax (k_i 0%nat) 0
      | S i' => snd (best (thedic k_i i' (F k_i i') v))
      end.

    (** Row [i] of the table [A]. *)
Definition A (k_i : vec) (i : nat) (v : nat) : nat :=
      match i with
      | O => (v / w_i 0)%nat
      | S i' => fst (best (thedic k_i i' (F k_i i') v))
      end.

    (** [for i in reversed(range(nbi)): a_i[i] = A[i,v]; v = v - A[i,v]*w_i[i]] *)
Fixpoint backtrack (k_i : vec) (i : nat) (v : nat) (a_i : vec) : vec :=
      match i with
      | O => a_i
      | S i' =>
          backtrack k_i i' (v - A k_i i' v * w_i i')%nat
                    (fun j => if Nat.eqb j i' then INR (A k_i i' v) else a_i j)
      end.

    (** [knapsack(k_i, W)] with [nbi = len(k_i)]; the first row assignment
        [A[0,:] = ...] is out of range when [nbi = 0]. *)
Definition knapsack (nbi : nat) (k_i : vec) (W : nat) : result vec :=
      if Nat.eqb nbi 0 then Raise IndexError
      else Ok (backtrack k_i nbi W (fun _ => 0)).

    (** State of the column-generation loop. *)
Record state : Type := mkstate {
      cont : bool;
      AB_i_j : mat;
      xB_j : vec;
      iter : nat
    }.

    (** [np.diag(W // w_i)] and [np.linalg.solve(AB_i_j, q_i)] *)
Definition init (nbi : nat) (q_i : vec) (W : nat) : result state :=
      let AB := fun i j => if Nat.eqb i j then INR (W / w_i i) else 0 in
      xB <- linalg_solve nbi AB q_i ;;
      Ok {| cont := true; AB_i_j := AB; xB_j := xB; iter := O |}.

Definition ratio_dic (nbi : nat) (xB_j zent_j : vec) : dict :=
      flat_map (fun j => if Rlt_dec 0 (zent_j j) then [(j, xB_j j / zent_j j)] else [])
               (seq 0 nbi).

    (** One pass through the body of [while cont:]. *)
Definition body (nbi : nat) (W : nat) (s : state) : result state :=
      let iter' := S (iter s) in
      k_i <- linalg_solve nbi (transpose (AB_i_j s)) (fun _ => 1) ;;
      aent_i <- knapsack nbi k_i W ;;
      if Rge_dec 1 (dot nbi k_i aent_i) then
        Ok {| cont := false; AB_i_j := AB_i_j s; xB_j := xB_j s; iter := iter' |}
      else
        zent_j <- linalg_solve nbi (AB_i_j s) aent_i ;;
        je <- dict_min (ratio_dic nbi (xB_j s) zent_j) ;;
        let jexit := fst je in
        let epsilon := snd je in
        let xB1 := fun j => xB_j s j - epsilon * zent_j j in
        Ok {| cont := true;
              AB_i_j := fun i j => if Nat.eqb j jexit then aent_i i else AB_i_j s i j;
              xB_j := fun j => if Nat.eqb j jexit then epsilon else xB1 j;
              iter := iter' |}.

    (** [while cont: ...]; the source loop has no iteration cap, so the
        embedding takes fuel and answers [None] when it runs out. *)
Fixpoint run (fuel : nat) (nbi W : nat) (s : state) : result (option state) :=
      if cont s then
        match fuel with
        | O => Ok None
        | S f => s' <- body nbi W s ;; run f nbi W s'
        end
      else Ok (Some s).

    (** The states the loop passes through, started from [init]. *)
Inductive reachable (nbi : nat) (q_i : vec) (W : nat) : state -> Prop :=
    | reach_init s : init nbi q_i W = Ok s -> reachable nbi q_i W s
    | reach_step s s' :
        reachable nbi q_i W s -> cont s = true -> body nbi W s = Ok s' ->
        reachable nbi q_i W s'.

End WithWidths.

End CuttingStock.


(** ** [while cond: body] with an iteration cap

    Every IPFP loop is guarded by [ite < maxite] and increments [ite] once
    per pass, so [maxite] passes of fuel are exactly enough: the fuel runs
    out only in a state where the guard is already false. *)

Fixpoint while {S : Type} (fuel : nat) (cond : S -> bool) (body : S -> result S) (s : S)
  : result S :=
  match fuel with
  | O => Ok s
  | S f => if cond s then s' <- body s ;; while f cond body s' else Ok s
  end.

Definition Rgtb (a b : R) : bool := if Rgt_dec a b then true else false.

(** [a.max()] of a non-empty array, and the two axis reductions of a 2-D
    array; numpy raises [ValueError] when the reduced axis is empty. *)
Definition amax (n : nat) (a : vec) : R :=
  np_max_from (a O) (pred n) (fun i => a (S i)).

Definition max_axis1 (ncol : nat) (M : mat) : result vec :=
  if Nat.eqb ncol 0 then Raise ValueError else Ok (fun x => amax ncol (M x)).

Definition max_axis0 (nrow : nat) (M : mat) : result vec :=
  if Nat.eqb nrow 0 then Raise ValueError else Ok (fun y => amax nrow (fun x => M x y)).

(** ** Entropic optimal transport: the IPFP family on [OTProblem] *)

Module OT.

(** The fields of [OTProblem] the solvers read ([objects_D1] itself is
    not part of the notebooks). *)
Record OTProblem : Type := mkOT {
  Φ_a : vec;
  n_x : vec;
  m_y : vec;
  nbx : nat;
  nby : nat
}.

(** The data model of a transport problem: positive marginals of total
    mass one. *)
Definition well_formed (self : OTProblem) : Prop :=
  (forall x, (x < nbx self)%nat -> 0 < n_x self x) /\
  (forall y, (y < nby self)%nat -> 0 < m_y self y) /\
  np_sum (nbx self) (n_x self) = 1 /\
  np_sum (nby self) (m_y self) = 1.

(** The last component of the returned tuple. *)
Inductive method : Type :=
| matrix_IPFP
| log_domain_IPFP
| log_domain_IPFP_with_LSE_trick.

(** The returned tuple, without the wall-clock time [taken]. *)
Record output : Type := mkout {
  μ_x_y : mat;
  u_x : vec;
  v_y : vec;
  valobs : R;
  valtot : R;
  ite : nat;
  name : method
}.

(** [self.Φ_a.reshape(self.nbx,-1)] *)
Definition Φ_x_y (self : OTProblem) : mat :=
  fun x y => Φ_a self (x * nby self + y)%nat.

(** [μ_x_y.flatten()] *)
Definition flatten (ncol : nat) (M : mat) : vec :=
  fun a => M (a / ncol)%nat (a mod ncol)%nat.

(** [scipy.stats.entropy(a)]: [a] is normalised, and [0 log 0 = 0], which
    is also what [x * ln x] gives at 0 here. *)
Definition entropy (n : nat) (a : vec) : R :=
  let s := np_sum n a in
  - np_sum n (fun i => (a i / s) * ln (a i / s)).

Definition sum_xlogx (n : nat) (a : vec) : R :=
  let s := np_sum n a in
  s * ln s - s * entropy n a.

(** [valobs] and [valtot] as every solver computes them. *)
Definition objective (self : OTProblem) (σ : R) (μ : mat) : R * R :=
  let na := (nbx self * nby self)%nat in
  let valobs := dot na (Φ_a self) (flatten (nby self) μ) in
  (valobs, valobs - σ * sum_xlogx na (flatten (nby self) μ)).

Module Matrix.

Record state : Type := mk {
  A_x : option vec;      (* unbound until the first pass *)
  B_y : vec;
  error : R;
  ite : nat
}.

(** [np.exp(self.Φ_a / σ).reshape(self.nbx,-1)] *)
Definition K_x_y (self : OTProblem) (σ : R) : mat :=
  fun x y => exp (Φ_a self (x * nby self + y)%nat / σ).

Definition cond (tol : R) (maxite : nat) (s : state) : bool :=
  Rgtb (error s) tol && (ite s <? maxite)%nat.

(** [self.n_x / (K_x_y @ B_y)] *)
Definition A_of (self : OTProblem) (K : mat) (B : vec) : vec :=
  fun x => n_x self x / np_sum (nby self) (fun y => K x y * B y).

(** [A_x.T @ K_x_y] for [A_x] computed from [B_y] *)
Definition KA_of (self : OTProblem) (K : mat) (B : vec) : vec :=
  fun y => np_sum (nbx self) (fun x => A_of self K B x * K x y).

Definition body (self : OTProblem) (K : mat) (s : state) : result state :=
  let A := A_of self K (B_y s) in
  let KA_y := KA_of self K (B_y s) in
  err <- np_max (nby self) (fun y => Rabs (KA_y y * B_y s y / m_y self y) - 1) ;;
  Ok {| A_x := Some A;
        B_y := fun y => m_y self y / KA_y y;
        error := err;
        ite := S (ite s) |}.

Definition init (tol : R) : state :=
  {| A_x := None; B_y := fun _ => 1; error := tol + 1; ite := O |}.

Definition loop (self : OTProblem) (σ tol : R) (maxite : nat) : result state :=
  while maxite (cond tol maxite) (body self (K_x_y self σ)) (init tol).

Definition matrixIPFP (self : OTProblem) (σ tol : R) (maxite : nat) : result output :=
  s <- loop self σ tol maxite ;;
  match A_x s with
  | None => Raise UnboundLocalError
  | Some A =>
      let μ := fun x y => K_x_y self σ x y * A x * B_y s y in
      Ok {| μ_x_y := μ;
            u_x := fun x => - σ * ln (A x);
            v_y := fun y => - σ * ln (B_y s y);
            valobs := fst (objective self σ μ);
            valtot := snd (objective self σ μ);
            OT.ite := ite s;
            name := matrix_IPFP |}
  end.

(** The column scalings are positive. *)
Definition B_positive (self : OTProblem) (s : state) : Prop :=
  forall y, (y < nby self)%nat -> 0 < B_y s y.

(** The state is the image under one pass of a state with positive
    scalings. *)
Definition after_a_pass (self : OTProblem) (σ : R) (s : state) : Prop :=
  exists p, B_positive self p /\ body self (K_x_y self σ) p = Ok s.

(** The coupling formed from the scalings after one pass from [p]. *)
Definition coupling_after (self : OTProblem) (σ : R) (p : state) : mat :=
  fun x y =>
    K_x_y self σ x y * A_of self (K_x_y self σ) (B_y p) x
    * (m_y self y / KA_of self (K_x_y self σ) (B_y p) y).

End Matrix.

Module LogDomain.

Record state : Type := mk {
  u_x : option vec;
  v_y : vec;
  error : R;
  ite : nat
}.

Definition λ_x (self : OTProblem) (σ : R) : vec := fun x => - σ * ln (n_x self x).
Definition ζ_y (self : OTProblem) (σ : R) : vec := fun y => - σ * ln (m_y self y).

Definition cond (tol : R) (maxite : nat) (s : state) : bool :=
  Rgtb (error s) tol && (ite s <? maxite)%nat.

Definition body (self : OTProblem) (σ : R) (s : state) : result state :=
  let Φ := Φ_x_y self in
  let u := fun x =>
    λ_x self σ x + σ * ln (np_sum (nby self) (fun y => exp ((Φ x y - v_y s y) / σ))) in
  let KA_y := fun y => np_sum (nbx self) (fun x => exp ((Φ x y - u x) / σ)) in
  err <- np_max (nby self)
           (fun y => Rabs (KA_y y * exp (- v_y s y / σ) / m_y self y - 1)) ;;
  Ok {| u_x := Some u;
        v_y := fun y => ζ_y self σ y + σ * ln (KA_y y);
        error := err;
        ite := S (ite s) |}.

Definition init (tol : R) : state :=
  {| u_x := None; v_y := fun _ => 0; error := tol + 1; ite := O |}.

Definition loop (self : OTProblem) (σ tol : R) (maxite : nat) : result state :=
  while maxite (cond tol maxite) (body self σ) (init tol).

Definition finish (self : OTProblem) (σ : R) (s : state) (label : method) : result output :=
  match u_x s with
  | None => Raise UnboundLocalError
  | Some u =>
      let μ := fun x y => exp ((Φ_x_y self x y - u x - v_y s y) / σ) in
      Ok {| μ_x_y := μ;
            OT.u_x := u;
            OT.v_y := v_y s;
            valobs := fst (objective self σ μ);
            valtot := snd (objective self σ μ);
            OT.ite := ite s;
            name := label |}
  end.

Definition logdomainIPFP (self : OTProblem) (σ tol : R) (maxite : nat) : result output :=
  s <- loop self σ tol maxite ;;
  finish self σ s log_domain_IPFP.

End LogDomain.

Module LSE.

(** The arguments handed to [np.exp] during one pass of the loop. *)
Record exp_args : Type := mkargs {
  args_u : mat;      (* in the row log-sum-exp *)
  args_KA : mat;     (* in the column log-sum-exp *)
  args_error : vec   (* in the residual *)
}.

(** One pass of the loop, returning the new state together with the
    arguments it exponentiated. *)
Definition body_traced (self : OTProblem) (σ : R) (s : LogDomain.state)
  : result (LogDomain.state * exp_args) :=
  let Φ := Φ_x_y self in
  let v := LogDomain.v_y s in
  vstar_x <- max_axis1 (nby self) (fun x y => Φ x y - v y) ;;
  let au := fun x y => (Φ x y - vstar_x x - v y) / σ in
  let u := fun x =>
    LogDomain.λ_x self σ x + vstar_x x + σ * ln (np_sum (nby self) (fun y => exp (au x y))) in
  ustar_y <- max_axis0 (nbx self) (fun x y => Φ x y - u x) ;;
  let aKA := fun x y => (Φ x y - u x - ustar_y y) / σ in
  let KA_y := fun y => np_sum (nbx self) (fun x => exp (aKA x y)) in
  let aerr := fun y => (ustar_y y - v y) / σ in
  err <- np_max (nby self) (fun y => Rabs (KA_y y * exp (aerr y) / m_y self y - 1)) ;;
  Ok ({| LogDomain.u_x := Some u;
         LogDomain.v_y := fun y => LogDomain.ζ_y self σ y + ustar_y y + σ * ln (KA_y y);
         LogDomain.error := err;
         LogDomain.ite := S (LogDomain.ite s) |},
      {| args_u := au; args_KA := aKA; args_error := aerr |}).

Definition body (self : OTProblem) (σ : R) (s : LogDomain.state) : result LogDomain.state :=
  r <- body_traced self σ s ;; Ok (fst r).

Definition loop (self : OTProblem) (σ tol : R) (maxite : nat) : result LogDomain.state :=
  while maxite (LogDomain.cond tol maxite) (body self σ) (LogDomain.init tol).

Definition logdomainIPFP_with_LSE_trick (self : OTProblem) (σ tol : R) (maxite : nat)
  : result output :=
  s <- loop self σ tol maxite ;;
  LogDomain.finish self σ s log_domain_IPFP_with_LSE_trick.


End LSE.

End OT.

(** ** Lists used as index sets *)

Definition mem (k : nat) (l : list nat) : bool := existsb (Nat.eqb k) l.

(** [l.index(k)] *)
Fixpoint index_of (k : nat) (l : list nat) : option nat :=
  match l with
  | [] => None
  | h :: t => if Nat.eqb h k then Some O else option_map S (index_of k t)
  end.

(** [l[b] = k] *)
Fixpoint set_nth (b : nat) (k : nat) (l : list nat) : list nat :=
  match l, b with
  | [], _ => []
  | _ :: t, O => k :: t
  | h :: t, S b' => h :: set_nth b' k t
  end.

(** [l[k]] with Python's [IndexError] *)
Definition getitem (l : list nat) (k : nat) : result nat :=
  match nth_error l k with
  | Some v => Ok v
  | None => Raise IndexError
  end.

(** ** [mec.lp.Tableau], as the Lemke-Howson driver uses it *)

Module Tableau.

(** Modelled from the spec: the class [Tableau] is imported from the
    [mec] package and its code is not in the notebooks.  The record holds
    what section 3 of the specification lists: the ordered basis index set
    [k_b], the basis matrix [B] and the basic solution [x_B] (kept as a
    [Pivoter]), and the data [A_i_j], [d_i] of the system
    [slack + A_i_j @ decision = d_i].  Variable [k < nbi] is the [k]-th
    slack, variable [nbi + j] the [j]-th decision variable. *)
Record t : Type := mk {
  nbi : nat;
  nbj : nat;
  A_i_j : mat;
  d_i : vec;
  k_b : list nat;
  pivoter : Pivoter.t
}.

(** Modelled from the spec: the constraint column of variable [k] in
    [[I | A_i_j]]. *)
Definition column (self : t) (k : nat) : vec :=
  fun i => if (k <? nbi self)%nat then identity i k else A_i_j self i (k - nbi self)%nat.

(** Modelled from the spec: the constructor starts from the identity
    slack basis and [solve_for_basic()], that is [x_B = B^-1 d]. *)
Definition create (A : mat) (d : vec) (m n : nat) : result t :=
  x_B <- linalg_solve m identity d ;;
  Ok {| nbi := m; nbj := n; A_i_j := A; d_i := d;
        k_b := seq 0 m;
        pivoter := {| Pivoter.nbb := m; Pivoter.B_i_b := identity; Pivoter.x_b := x_B |} |}.

(** Modelled from the spec: [determine_departing] resolves
    [z = B^-1 entering_column], takes the ratio [x_B[b] / z_b] over the rows
    with [z_b > 0] and returns the basic variable of an arg-min row; with
    no [z_b > 0] it signals unboundedness. *)
Definition determine_departing (self : t) (kent : nat) : result nat :=
  z_b <- linalg_solve (nbi self) (Pivoter.B_i_b (pivoter self)) (column self kent) ;;
  match Pivoter.thedic (pivoter self) z_b with
  | [] => Raise UnboundedError
  | kv :: d => getitem (k_b self) (fst (min_from kv d))
  end.

(** Modelled from the spec: [update] moves along the entering direction
    by the ratio of the departing row ([x_B <- x_B - step z], the departing
    row's value becomes [step]), replaces the departing column of [B] by
    the entering column, and swaps the two index labels. *)
Definition update (self : t) (kent kdep : nat) : result t :=
  match index_of kdep (k_b self) with
  | None => Raise ValueError
  | Some bdep =>
      z_b <- linalg_solve (nbi self) (Pivoter.B_i_b (pivoter self)) (column self kent) ;;
      let step := Pivoter.x_b (pivoter self) bdep / z_b bdep in
      p' <- Pivoter.update (pivoter self) bdep step (column self kent) ;;
      Ok {| nbi := nbi self; nbj := nbj self; A_i_j := A_i_j self; d_i := d_i self;
            k_b := set_nth bdep kent (k_b self);
            pivoter := p' |}
  end.

(** Modelled from the spec: the value of variable [k] in the current
    basic solution; nonbasic variables are 0. *)
Definition value (self : t) (k : nat) : R :=
  match index_of k (k_b self) with
  | Some b => Pivoter.x_b (pivoter self) b
  | None => 0
  end.

(** Modelled from the spec: [solution()] returns the decision variables
    and the slacks (the objective value is not used by the driver). *)
Definition solution (self : t) : vec * vec :=
  (fun j => value self (nbi self + j)%nat, fun i => value self i).

End Tableau.

(** ** [Bimatrix_game] (Nash notebook) *)

Module Bimatrix_game.

Record t : Type := mk {
  A_i_j : mat;
  B_i_j : mat;
  nbi : nat;
  nbj : nat
}.

(** [np.min(M)] of an [nrow] x [ncol] array. *)
Fixpoint np_min_from (best : R) (n : nat) (a : vec) : R :=
  match n with
  | O => best
  | S k => Rmin (np_min_from best k a) (a k)
  end.

Definition np_min (nrow ncol : nat) (M : mat) : result R :=
  match (nrow * ncol)%nat with
  | O => Raise ValueError
  | S k => let a := OT.flatten ncol M in
           Ok (np_min_from (a O) k (fun i => a (S i)))
  end.

(** The returned dictionary. *)
Record output : Type := mkout {
  p_i : vec;
  q_j : vec;
  val1 : R;
  val2 : R
}.

(** [list(len(zks)+np.arange(len(zks))) + list(np.arange(len(zks)))] *)
Definition complements (n : nat) : list nat :=
  map (fun k => (n + k)%nat) (seq 0 n) ++ seq 0 n.

(** [np.block([[zeros, A], [B.T, zeros]])] *)
Definition C_k_l (nbi nbj : nat) (A B : mat) : mat :=
  fun k l =>
    if (k <? nbi)%nat
    then (if (l <? nbi)%nat then 0 else A k (l - nbi)%nat)
    else (if (l <? nbi)%nat then B l (k - nbi)%nat else 0).

(** The exit test of the pivot loop, on the basis after the update. *)
Definition exit_test (cs : list nat) (tab : Tableau.t) (kent kdep : nat) : result bool :=
  ckent <- getitem cs kent ;;
  if negb (mem ckent (Tableau.k_b tab))
  then (ckdep <- getitem cs kdep ;; Ok (mem ckdep (Tableau.k_b tab)))
  else Ok false.

(** One pass of [while True:]: the tableau after the update, the
    variable that departed, and whether the loop breaks. *)
Definition pivot (cs : list nat) (tab : Tableau.t) (kent : nat)
  : result (Tableau.t * nat * bool) :=
  kdep <- Tableau.determine_departing tab kent ;;
  tab' <- Tableau.update tab kent kdep ;;
  stop <- exit_test cs tab' kent kdep ;;
  Ok (tab', kdep, stop).

(** [while True: ...]; the loop has no iteration cap, so the embedding
    takes fuel and answers [None] when it runs out. *)
Fixpoint pivot_loop (fuel : nat) (cs : list nat) (tab : Tableau.t) (kent : nat)
  : result (option Tableau.t) :=
  match fuel with
  | O => Ok None
  | S f =>
      r <- pivot cs tab kent ;;
      let '(tab', kdep, stop) := r in
      if stop then Ok (Some tab')
      else (kent' <- getitem cs kdep ;; pivot_loop f cs tab' kent')
  end.

(** [1 / s] for a numpy float: a zero [s] gives [inf] and then [nan],
    which no real number stands for; the embedding raises instead. *)
Definition np_inv (s : R) : result R :=
  if Req_dec_T s 0 then Raise ValueError else Ok (1 / s).

Definition lemke_howson_solve (self : t) (fuel : nat) : result (option output) :=
  minA <- np_min (nbi self) (nbj self) (A_i_j self) ;;
  minB <- np_min (nbi self) (nbj self) (B_i_j self) ;;
  let A := fun i j => A_i_j self i j - minA + 1 in
  let B := fun i j => B_i_j self i j - minB + 1 in
  let n := (nbi self + nbj self)%nat in
  let cs := complements n in
  tab <- Tableau.create (C_k_l (nbi self) (nbj self) A B) (fun _ => 1) n n ;;
  let kent := n in
  r <- pivot_loop fuel cs tab kent ;;
  match r with
  | None => Ok None
  | Some tab' =>
      let z_k := fst (Tableau.solution tab') in
      let x_i := fun i => z_k i in
      let y_j := fun j => z_k (nbi self + j)%nat in
      α <- np_inv (np_sum (nbj self) y_j) ;;
      β <- np_inv (np_sum (nbi self) x_i) ;;
      Ok (Some {| p_i := fun i => x_i i * β;
                  q_j := fun j => y_j j * α;
                  val1 := α + minA - 1;
                  val2 := β + minB - 1 |})
  end.

(** [v @ M] for a vector of length [n]. *)
Definition vecmat (n : nat) (v : vec) (M : mat) : vec :=
  fun j => np_sum n (fun i => v i * M i j).

(** [np.eye(n)[i]] *)
Definition eye (i : nat) : vec := fun k => identity i k.

Definition is_NashEq (self : t) (p_i q_j : vec) (tol : R) : bool :=
  forallb
    (fun i => negb (Rgtb (dot (nbj self) (vecmat (nbi self) (eye i) (A_i_j self)) q_j)
                         (dot (nbj self) (vecmat (nbi self) p_i (A_i_j self)) q_j + tol)))
    (seq 0 (nbi self))
  &&
  forallb
    (fun j => negb (Rgtb (dot (nbj self) (vecmat (nbi self) p_i (B_i_j self)) (eye j))
                         (dot (nbj self) (vecmat (nbi self) p_i (B_i_j self)) q_j + tol)))
    (seq 0 (nbj self)).

(** The basis holds exactly one variable of every complementary pair
    [(w_k, z_k)], that is of the indices [k] and [n + k]. *)
Definition fully_complementary (n : nat) (kb : list nat) : Prop :=
  forall k, (k < n)%nat -> mem k kb <> mem (n + k) kb.

(** The states in which the exit test is evaluated: the tableau after an
    update, with the variable that entered and the one that departed. *)
Inductive at_test (cs : list nat) : Tableau.t -> nat -> nat -> Prop :=
| test_first tab0 n tab kdep stop (A : mat) :
    Tableau.create A (fun _ => 1) n n = Ok tab0 ->
    cs = complements n ->
    pivot cs tab0 n = Ok (tab, kdep, stop) ->
    at_test cs tab n kdep
| test_next tab0 kent0 kdep0 kent tab kdep stop :
    at_test cs tab0 kent0 kdep0 ->
    exit_test cs tab0 kent0 kdep0 = Ok false ->
    getitem cs kdep0 = Ok kent ->
    pivot cs tab0 kent = Ok (tab, kdep, stop) ->
    at_test cs tab kent kdep.

End Bimatrix_game.

(** ** Example inputs *)

Module Examples.

(** The first pivot of the notebook's [example_tableau]: identity basis,
    [d = (2, 2)], entering column [(2, 1)]. *)
Definition P_eye2 : Pivoter.t :=
  {| Pivoter.nbb := 2; Pivoter.B_i_b := identity; Pivoter.x_b := fun _ => 2 |}.

Definition N_x0 : vec := fun i => if Nat.eqb i 0 then 2 else 1.

(** A one-row basis and an entering column that resolves to [-1]. *)
Definition P_eye1 : Pivoter.t :=
  {| Pivoter.nbb := 1; Pivoter.B_i_b := identity; Pivoter.x_b := fun _ => 1 |}.

Definition N_neg : vec := fun _ => -1.

(** The cutting-stock data of the notebook and a price vector whose
    first entry is negative. *)
Definition w_notebook : nat -> nat :=
  fun i => nth i [1380; 1520; 1560; 1710; 1820; 1880; 1930; 2000; 2050; 2100;
                  2140; 2150; 2200]%nat O.

Definition W_notebook : nat := (56 * 100)%nat.

Definition k_negative : vec := fun i => if Nat.eqb i 0 then -1 else 0.

(** Two item widths, a roll of width 5 and demands (2, 1). *)
Definition w_small : nat -> nat := fun i => if Nat.eqb i 0 then 2%nat else 3%nat.

Definition q_small : vec := fun i => if Nat.eqb i 0 then 2 else 1.


(** The smallest transport problem: one row, one column, unit masses
    and a zero surplus. *)
Definition P_unit : OT.OTProblem :=
  {| OT.Φ_a := fun _ => 0; OT.n_x := fun _ => 1; OT.m_y := fun _ => 1;
     OT.nbx := 1; OT.nby := 1 |}.

(** One row, three columns of masses (2/5, 3/10, 3/10), zero surplus. *)
Definition P_three : OT.OTProblem :=
  {| OT.Φ_a := fun _ => 0;
     OT.n_x := fun _ => 1;
     OT.m_y := fun y => if Nat.eqb y 0 then 2 / 5 else 3 / 10;
     OT.nbx := 1; OT.nby := 3 |}.


(** The one-by-one bimatrix game with both payoffs equal to 1, and the
    matrix of its complementarity system. *)
Definition G_one : Bimatrix_game.t :=
  {| Bimatrix_game.A_i_j := fun _ _ => 1; Bimatrix_game.B_i_j := fun _ _ => 1;
     Bimatrix_game.nbi := 1; Bimatrix_game.nbj := 1 |}.

Definition C_one : mat :=
  Bimatrix_game.C_k_l 1 1 (fun _ _ => 1 - 1 + 1) (fun _ _ => 1 - 1 + 1).

End Examples.

(** ** Invariants of the Lemke-Howson pivot loop *)

Module LemkeHowson.

(** [complements[k]] for a variable index [k < 2n], and the index of the
    complementary pair a variable belongs to. *)
Definition comp (n k : nat) : nat := if (k <? n)%nat then (n + k)%nat else (k - n)%nat.

Definition pair_of (n k : nat) : nat := if (k <? n)%nat then k else (k - n)%nat.

(** Membership in the basis as a predicate on variable indices. *)
Definition complementary (n : nat) (inb : nat -> bool) : Prop :=
  forall k, (k < n)%nat -> inb k <> inb (n + k)%nat.

(** Almost complementary: the pair [miss] has no basic variable, the
    pair [dbl] has two, every other pair has one. *)
Definition almost_complementary (n : nat) (inb : nat -> bool) (miss dbl : nat) : Prop :=
  (miss < n)%nat /\ (dbl < n)%nat /\ miss <> dbl /\
  inb miss = false /\ inb (n + miss)%nat = false /\
  inb dbl = true /\ inb (n + dbl)%nat = true /\
  forall k, (k < n)%nat -> k <> miss -> k <> dbl -> inb k <> inb (n + k)%nat.

(** Before a pivot: the entering variable is nonbasic, and the basis is
    complementary (the start) or lacks exactly the pair of the entering
    variable. *)
Definition at_head (n : nat) (inb : nat -> bool) (kent : nat) : Prop :=
  (kent < 2 * n)%nat /\ inb kent = false /\
  (complementary n inb \/ exists dbl, almost_complementary n inb (pair_of n kent) dbl).

(** After a pivot: the entered variable is basic, the departed one is
    not, and the basis is complementary or lacks exactly the pair of the
    departed variable. *)
Definition after_pivot (n : nat) (inb : nat -> bool) (kent kdep : nat) : Prop :=
  (kent < 2 * n)%nat /\ (kdep < 2 * n)%nat /\ inb kent = true /\ inb kdep = false /\
  (complementary n inb \/ exists dbl, almost_complementary n inb (pair_of n kdep) dbl).

(** Membership after [k_b[bdep] = kent] where [k_b[bdep]] was [kdep]. *)
Definition swap (inb : nat -> bool) (kent kdep : nat) : nat -> bool :=
  fun k => if Nat.eqb k kent then true else if Nat.eqb k kdep then false else inb k.

(** The bookkeeping of a tableau is sound: [n] distinct basic variables
    out of [2n], and [B] holds their columns in the order of [k_b]. *)
Definition well_labelled (tab : Tableau.t) : Prop :=
  let n := Tableau.nbi tab in
  Tableau.nbj tab = n /\
  Pivoter.nbb (Tableau.pivoter tab) = n /\
  length (Tableau.k_b tab) = n /\
  NoDup (Tableau.k_b tab) /\
  (forall k, In k (Tableau.k_b tab) -> (k < 2 * n)%nat) /\
  (forall i b, (b < n)%nat ->
     Pivoter.B_i_b (Tableau.pivoter tab) i b = Tableau.column tab (nth b (Tableau.k_b tab) O) i).

(** The basic solution is feasible for [B x_B = d]. *)
Definition feasible (tab : Tableau.t) : Prop :=
  let n := Tableau.nbi tab in
  let P := Tableau.pivoter tab in
  (forall i, (i < n)%nat -> matvec n (Pivoter.B_i_b P) (Pivoter.x_b P) i = Tableau.d_i tab i) /\
  (forall b, (b < n)%nat -> 0 <= Pivoter.x_b P b).

(** The tableau still describes the system it was created for. *)
Definition same_system (tab0 tab : Tableau.t) : Prop :=
  Tableau.nbi tab = Tableau.nbi tab0 /\
  Tableau.A_i_j tab = Tableau.A_i_j tab0 /\
  Tableau.d_i tab = Tableau.d_i tab0.

End LemkeHowson.

(** ** The two half-steps of the log-domain iteration

    The expressions that [logdomainIPFP] assigns to [u_x] and [KA_y] in
    each pass, as functions of what they read. *)

Module LogDomainSteps.

Import OT.

(** [λ_x + σ * np.log(np.exp((Φ_x_y - v_y)/σ).sum(axis=1))] *)
Definition u_of (self : OTProblem) (σ : R) (v : vec) : vec :=
  fun x => LogDomain.λ_x self σ x
           + σ * ln (np_sum (nby self) (fun y => exp ((Φ_x_y self x y - v y) / σ))).

(** [np.exp((Φ_x_y - u_x)/σ).sum(axis=0)] *)
Definition KA_of (self : OTProblem) (σ : R) (u : vec) : vec :=
  fun y => np_sum (nbx self) (fun x => exp ((Φ_x_y self x y - u x) / σ)).

(** Two loop states hold the same numbers on the index ranges of the
    problem. *)
Definition agree (self : OTProblem) (s1 s2 : LogDomain.state) : Prop :=
  (forall y, (y < nby self)%nat -> LogDomain.v_y s1 y = LogDomain.v_y s2 y) /\
  LogDomain.error s1 = LogDomain.error s2 /\
  LogDomain.ite s1 = LogDomain.ite s2 /\
  match LogDomain.u_x s1, LogDomain.u_x s2 with
  | Some u1, Some u2 => forall x, (x < nbx self)%nat -> u1 x = u2 x
  | None, None => True
  | _, _ => False
  end.

(** Two returned tuples hold the same numbers on the index ranges of the
    problem. *)
Definition same_output (self : OTProblem) (o1 o2 : output) : Prop :=
  (forall x y, (x < nbx self)%nat -> (y < nby self)%nat -> μ_x_y o1 x y = μ_x_y o2 x y) /\
  (forall x, (x < nbx self)%nat -> u_x o1 x = u_x o2 x) /\
  (forall y, (y < nby self)%nat -> v_y o1 y = v_y o2 y) /\
  valobs o1 = valobs o2 /\ valtot o1 = valtot o2 /\ ite o1 = ite o2.

End LogDomainSteps.

(** ** [MatrixTableau]: constructor, entering rule and [solve]

    [determine_entering] picks among the candidates by the name of the
    variable, so the two name lists are carried along with the fields of
    [MatrixTableau.t].  Names are compared as Python compares [str]:
    lexicographically by character code. *)

Module NamedTableau.

Import String.

Record t : Type := mk {
  tab : MatrixTableau.t;
  names_basic : list string;
  names_nonbasic : list string
}.

(** [str(n)] *)
Definition str (n : nat) : string :=
  DecimalString.NilEmpty.string_of_uint (Nat.to_uint n).

(** [names[k]] and [names[k] = v] *)
Definition getname (l : list string) (k : nat) : result string :=
  match nth_error l k with
  | Some v => Ok v
  | None => Raise IndexError
  end.

Fixpoint setname (k : nat) (v : string) (l : list string) : list string :=
  match l, k with
  | [], _ => []
  | _ :: t, O => v :: t
  | h :: t, S k' => h :: setname k' v t
  end.

(** [MatrixTableau.__init__]; [nbb] and [nbn] are the shapes of [B_i_b]
    and [N_i_n], an omitted argument is [None]. *)
Definition create (nbb nbn : nat) (B_i_b N_i_n : mat) (d_i c_n : vec)
           (c_b : option vec) (names_basic names_nonbasic : option (list string))
  : result t :=
  x_b <- linalg_solve nbb B_i_b d_i ;;
  Ok {| tab := {| MatrixTableau.pivoter :=
                    {| Pivoter.nbb := nbb; Pivoter.B_i_b := B_i_b; Pivoter.x_b := x_b |};
                  MatrixTableau.N_i_n := N_i_n;
                  MatrixTableau.d_i := d_i;
                  MatrixTableau.c_b := match c_b with
                                       | None => fun _ => 0
                                       | Some c => c
                                       end;
                  MatrixTableau.c_n := c_n;
                  MatrixTableau.nbn := nbn |};
        names_basic := match names_basic with
                       | None => map (fun b => append "s_" (str b)) (seq 0 nbb)
                       | Some l => l
                       end;
        names_nonbasic := match names_nonbasic with
                          | None => map (fun n => append "x_" (str n)) (seq 0 nbn)
                          | Some l => l
                          end |}.

(** [self.N_i_n.T @ y - self.c_n] *)
Definition t_n (self : MatrixTableau.t) (y : vec) : vec :=
  fun n => np_sum (Pivoter.nbb (MatrixTableau.pivoter self))
                  (fun i => MatrixTableau.N_i_n self i n * y i)
           - MatrixTableau.c_n self n.

(** [[(n, names[n]) for n in ns if t_n[n] < 0]] *)
Fixpoint candidates (names : list string) (t : vec) (ns : list nat)
  : result (list (nat * string)) :=
  match ns with
  | [] => Ok []
  | n :: ns' =>
      if Rlt_dec (t n) 0
      then (name <- getname names n ;;
            rest <- candidates names t ns' ;;
            Ok ((n, name) :: rest))
      else candidates names t ns'
  end.

(** [min(l, key = lambda couple: couple[1])] of a non-empty list: the
    first couple whose name is smallest. *)
Fixpoint min_name (best : nat * string) (l : list (nat * string)) : nat * string :=
  match l with
  | [] => best
  | c :: l' => min_name (if ltb (snd c) (snd best) then c else best) l'
  end.

Definition determine_entering (self : t) : result (option nat) :=
  let P := MatrixTableau.pivoter (tab self) in
  y <- linalg_solve (Pivoter.nbb P) (transpose (Pivoter.B_i_b P))
                    (MatrixTableau.c_b (tab self)) ;;
  cs <- candidates (names_nonbasic self) (t_n (tab self) y)
                   (seq 0 (MatrixTableau.nbn (tab self))) ;;
  match cs with
  | [] => Ok None
  | c :: cs' => Ok (Some (fst (min_name c cs')))
  end.

Definition determine_departing (self : t) (nent : nat) : result (nat * R) :=
  MatrixTableau.determine_departing (tab self) nent.

(** [MatrixTableau.update], with the two column reads [N_i_n[:,nent]]
    and [B_i_b[:,bdep]] checked first, as the source makes them, and the
    two names swapped last. *)
Definition update (self : t) (bdep nent : nat) (epsilon : R) : result t :=
  if ((nent <? MatrixTableau.nbn (tab self))
      && (bdep <? Pivoter.nbb (MatrixTableau.pivoter (tab self))))%nat then
    tab' <- MatrixTableau.update (tab self) bdep nent epsilon ;;
    name_n <- getname (names_nonbasic self) nent ;;
    name_b <- getname (names_basic self) bdep ;;
    Ok {| tab := tab';
          names_basic := setname bdep name_n (names_basic self);
          names_nonbasic := setname nent name_b (names_nonbasic self) |}
  else Raise IndexError.

(** [solve]: [while True: ...] returns when no variable can enter; the
    loop has no iteration cap, so the embedding takes fuel and answers
    [None] when it runs out. *)
Fixpoint solve (fuel : nat) (self : t) : result (option t) :=
  match fuel with
  | O => Ok None
  | S f =>
      nent <- determine_entering self ;;
      match nent with
      | None => Ok (Some self)
      | Some n =>
          be <- determine_departing self n ;;
          self' <- update self (fst be) n (snd be) ;;
          solve f self'
      end
  end.

(** [self.x_b.dot(self.c_b)], the objective that [display] prints. *)
Definition obj (self : t) : R :=
  dot (Pivoter.nbb (MatrixTableau.pivoter (tab self)))
      (Pivoter.x_b (MatrixTableau.pivoter (tab self)))
      (MatrixTableau.c_b (tab self)).

End NamedTableau.

(** ** The linear program of a tableau

    [max c_b . x_B + c_n . x_N] subject to [B x_B + N x_N = d] and
    [x_B, x_N >= 0], as the notebook states it. *)

Module LP.

Definition feasible (T : MatrixTableau.t) (xB xN : vec) : Prop :=
  let nbb := Pivoter.nbb (MatrixTableau.pivoter T) in
  (forall b, (b < nbb)%nat -> 0 <= xB b) /\
  (forall n, (n < MatrixTableau.nbn T)%nat -> 0 <= xN n) /\
  (forall i, (i < nbb)%nat ->
     np_sum nbb (fun b => Pivoter.B_i_b (MatrixTableau.pivoter T) i b * xB b)
     + np_sum (MatrixTableau.nbn T) (fun n => MatrixTableau.N_i_n T i n * xN n)
     = MatrixTableau.d_i T i).

Definition value (T : MatrixTableau.t) (xB xN : vec) : R :=
  dot (Pivoter.nbb (MatrixTableau.pivoter T)) (MatrixTableau.c_b T) xB
  + dot (MatrixTableau.nbn T) (MatrixTableau.c_n T) xN.

(** The basic solution of the tableau is feasible. *)
Definition basic_feasible (T : MatrixTableau.t) : Prop :=
  let P := MatrixTableau.pivoter T in
  (forall i, (i < Pivoter.nbb P)%nat ->
     matvec (Pivoter.nbb P) (Pivoter.B_i_b P) (Pivoter.x_b P) i = MatrixTableau.d_i T i) /\
  (forall b, (b < Pivoter.nbb P)%nat -> 0 <= Pivoter.x_b P b).

(** Two tableaux describe the same program up to the order of the
    variables: every feasible point of one has a feasible point of the
    other with the same value. *)
Definition same_program (T T' : MatrixTableau.t) : Prop :=
  (forall xB xN, feasible T xB xN ->
     exists xB' xN', feasible T' xB' xN' /\ value T' xB' xN' = value T xB xN) /\
  (forall xB' xN', feasible T' xB' xN' ->
     exists xB xN, feasible T xB xN /\ value T xB xN = value T' xB' xN').

End LP.

(** The notebook's smallest kind of program: one constraint
    [s + x = 1], maximise [x]. *)
Module SimplexExample.

Definition start : result NamedTableau.t :=
  NamedTableau.create 1 1 (fun _ _ => 1) (fun _ _ => 1) (fun _ => 1) (fun _ => 1)
                      None None None.

End SimplexExample.

(** ** Mixed strategies and expected payoffs *)

Module Nash.

(** A probability vector over [n] pure strategies. *)
Definition is_strategy (n : nat) (p : vec) : Prop :=
  (forall i, (i < n)%nat -> 0 <= p i) /\ np_sum n p = 1.

(** [p @ M @ q] *)
Definition payoff (G : Bimatrix_game.t) (M : mat) (p q : vec) : R :=
  dot (Bimatrix_game.nbj G) (Bimatrix_game.vecmat (Bimatrix_game.nbi G) p M) q.

End Nash.

(** ** [display]: the banner printed above a solver's output *)

Module Display.

Import Ascii String.

(** ['*' * k]; a count that would be negative gives the empty string,
    which is what the truncated subtraction of [nat] gives too. *)
Fixpoint stars (k : nat) : string :=
  match k with
  | O => EmptyString
  | S k' => String "*"%char (stars k')
  end.

(** The rule printed first and last: ['*'*60]. *)
Definition rule : string := stars 60.

(** ['*'*(30 - len(name)//2) + '  ' + name + '  '
     + '*'*(26 - (1+len(name))//2)] *)
Definition title_line (name : string) : string :=
  append (stars (30 - length name / 2))
    (append "  "%string
       (append name (append "  "%string (stars (26 - (1 + length name) / 2))))).

End Display.

(** * Facts *)

(** ** Sums *)

Section Sums.

Lemma np_sum_ext n (f g : vec) :
  (forall i, (i < n)%nat -> f i = g i) -> np_sum n f = np_sum n g.
Proof.
  induction n as [|n IH]; intros H; simpl; [reflexivity|].
  rewrite IH by (intros; apply H; lia). rewrite H by lia. reflexivity.
Qed.

Lemma np_sum_plus n (f g : vec) :
  np_sum n (fun i => f i + g i) = np_sum n f + np_sum n g.
Proof. induction n as [|n IH]; simpl; [lra | rewrite IH; lra]. Qed.

Lemma np_sum_minus n (f g : vec) :
  np_sum n (fun i => f i - g i) = np_sum n f - np_sum n g.
Proof. induction n as [|n IH]; simpl; [lra | rewrite IH; lra]. Qed.

Lemma np_sum_scal n c (f : vec) :
  np_sum n (fun i => c * f i) = c * np_sum n f.
Proof. induction n as [|n IH]; simpl; [lra | rewrite IH; lra]. Qed.

Lemma np_sum_scal_r n c (f : vec) :
  np_sum n (fun i => f i * c) = np_sum n f * c.
Proof. induction n as [|n IH]; simpl; [lra | rewrite IH; lra]. Qed.

Lemma np_sum_zero n : np_sum n (fun _ => 0) = 0.
Proof. induction n as [|n IH]; simpl; [lra | rewrite IH; lra]. Qed.

Lemma np_sum_le n (f g : vec) :
  (forall i, (i < n)%nat -> f i <= g i) -> np_sum n f <= np_sum n g.
Proof.
  induction n as [|n IH]; intros H; simpl; [lra|].
  assert (f n <= g n) by (apply H; lia).
  assert (np_sum n f <= np_sum n g) by (apply IH; intros; apply H; lia). lra.
Qed.

Lemma np_sum_nonneg n (f : vec) :
  (forall i, (i < n)%nat -> 0 <= f i) -> 0 <= np_sum n f.
Proof.
  intros H. rewrite <- (np_sum_zero n). apply np_sum_le. exact H.
Qed.

Lemma np_sum_pos n (f : vec) :
  (0 < n)%nat -> (forall i, (i < n)%nat -> 0 < f i) -> 0 < np_sum n f.
Proof.
  intros Hn H. destruct n as [|n]; [lia|]. simpl.
  assert (0 <= np_sum n f) by (apply np_sum_nonneg; intros; left; apply H; lia).
  assert (0 < f n) by (apply H; lia). lra.
Qed.

(** A term of a sum of non-negative terms is below the sum. *)
Lemma np_sum_term_le n (f : vec) k :
  (forall i, (i < n)%nat -> 0 <= f i) -> (k < n)%nat -> f k <= np_sum n f.
Proof.
  induction n as [|n IH]; intros H Hk; [lia|]. simpl.
  assert (0 <= f n) by (apply H; lia).
  assert (0 <= np_sum n f) by (apply np_sum_nonneg; intros; apply H; lia).
  destruct (Nat.eq_dec k n) as [->|Hne]; [lra|].
  assert (f k <= np_sum n f) by (apply IH; [intros; apply H; lia | lia]). lra.
Qed.

Lemma np_sum_swap n m (f : nat -> nat -> R) :
  np_sum n (fun i => np_sum m (fun j => f i j)) =
  np_sum m (fun j => np_sum n (fun i => f i j)).
Proof.
  induction n as [|n IH]; simpl.
  - symmetry. apply np_sum_zero.
  - rewrite IH. rewrite <- np_sum_plus. reflexivity.
Qed.

(** Summing against one row of the identity picks an entry. *)
Lemma np_sum_identity_l n (f : vec) k :
  (k < n)%nat -> np_sum n (fun j => identity k j * f j) = f k.
Proof.
  induction n as [|n IH]; intros Hk; [lia|]. simpl. unfold identity at 2.
  destruct (Nat.eq_dec k n) as [->|Hne].
  - rewrite Nat.eqb_refl.
    rewrite (np_sum_ext n _ (fun _ => 0)).
    + rewrite np_sum_zero. lra.
    + intros i Hi. unfold identity.
      destruct (Nat.eqb_spec n i); [lia | lra].
  - destruct (Nat.eqb_spec k n); [lia|]. rewrite IH by lia. lra.
Qed.

Lemma np_sum_identity_r n (f : vec) k :
  (k < n)%nat -> np_sum n (fun j => f j * identity j k) = f k.
Proof.
  intros Hk. rewrite <- (np_sum_identity_l n f k Hk).
  apply np_sum_ext. intros i _. unfold identity.
  rewrite (Nat.eqb_sym i k). lra.
Qed.

(** Changing one entry of a summand. *)
Lemma np_sum_update n (f : vec) k c :
  (k < n)%nat ->
  np_sum n (fun j => if Nat.eqb j k then c else f j) = np_sum n f - f k + c.
Proof.
  induction n as [|n IH]; intros Hk; [lia|]. simpl.
  destruct (Nat.eqb_spec n k) as [->|Hne].
  - rewrite (np_sum_ext k _ f); [lra|].
    intros i Hi. destruct (Nat.eqb_spec i k); [lia | reflexivity].
  - rewrite IH by lia. lra.
Qed.

End Sums.

(** ** [np.linalg.solve] *)

Section Solve.

Lemma inverse_solves n M Minv a :
  is_inverse n M Minv -> solves n M a (matvec n Minv a).
Proof.
  intros Hinv i Hi. unfold matvec.
  rewrite (np_sum_ext n _ (fun j => np_sum n (fun k => (M i j * Minv j k) * a k))).
  2:{ intros j _. rewrite <- np_sum_scal. apply np_sum_ext. intros; lra. }
  rewrite np_sum_swap.
  rewrite (np_sum_ext n _ (fun k => identity i k * a k)).
  - apply np_sum_identity_l. exact Hi.
  - intros k Hk. rewrite np_sum_scal_r.
    destruct (Hinv i k Hi Hk) as [-> _]. reflexivity.
Qed.

(** A solution of an invertible system is the inverse applied to the
    right-hand side. *)
Lemma solves_unique n M Minv a z :
  is_inverse n M Minv -> solves n M a z ->
  forall i, (i < n)%nat -> z i = matvec n Minv a i.
Proof.
  intros Hinv Hz i Hi. unfold matvec.
  rewrite (np_sum_ext n _ (fun j => Minv i j * matvec n M z j)).
  2:{ intros j Hj. rewrite (Hz j Hj). reflexivity. }
  unfold matvec.
  rewrite (np_sum_ext n _ (fun j => np_sum n (fun k => (Minv i j * M j k) * z k))).
  2:{ intros j _. rewrite <- np_sum_scal. apply np_sum_ext. intros; lra. }
  rewrite np_sum_swap.
  rewrite (np_sum_ext n _ (fun k => identity i k * z k)).
  - symmetry. apply np_sum_identity_l. exact Hi.
  - intros k Hk. rewrite np_sum_scal_r.
    destruct (Hinv i k Hi Hk) as [_ ->]. reflexivity.
Qed.

Lemma linalg_solve_Ok n M a z :
  linalg_solve n M a = Ok z -> invertible n M /\ solves n M a z.
Proof.
  unfold linalg_solve.
  destruct (ClassicalEpsilon.excluded_middle_informative (invertible n M)) as [Hinv|Hn];
    [|discriminate].
  intros [= <-]. split; [exact Hinv|].
  apply ClassicalEpsilon.epsilon_spec.
  destruct Hinv as [Minv Hinv]. exists (matvec n Minv a).
  apply inverse_solves. exact Hinv.
Qed.

Lemma linalg_solve_invertible n M a :
  invertible n M -> exists z, linalg_solve n M a = Ok z /\ solves n M a z.
Proof.
  intros Hinv. destruct (linalg_solve n M a) as [z|e] eqn:E.
  - exists z. split; [reflexivity|]. apply (linalg_solve_Ok _ _ _ _ E).
  - exfalso. unfold linalg_solve in E.
    destruct (ClassicalEpsilon.excluded_middle_informative (invertible n M));
      [discriminate | contradiction].
Qed.

Lemma linalg_solve_singular n M a :
  ~ invertible n M -> linalg_solve n M a = Raise LinAlgError.
Proof.
  intros Hn. unfold linalg_solve.
  destruct (ClassicalEpsilon.excluded_middle_informative (invertible n M));
    [contradiction | reflexivity].
Qed.

(** How a call is evaluated on a concrete system: exhibit the inverse and
    a solution. *)
Lemma linalg_solve_eval n M Minv a z0 :
  is_inverse n M Minv -> solves n M a z0 ->
  exists z, linalg_solve n M a = Ok z /\ forall i, (i < n)%nat -> z i = z0 i.
Proof.
  intros Hinv H0.
  destruct (linalg_solve_invertible n M a (ex_intro _ Minv Hinv)) as [z [E Hz]].
  exists z. split; [exact E|]. intros i Hi.
  rewrite (solves_unique n M Minv a z Hinv Hz i Hi).
  rewrite (solves_unique n M Minv a z0 Hinv H0 i Hi). reflexivity.
Qed.

Lemma identity_is_inverse n : is_inverse n identity identity.
Proof.
  intros i j Hi Hj.
  split; exact (np_sum_identity_l n (fun k => identity k j) i Hi).
Qed.

End Solve.

(** ** [min] and [max] over a dictionary *)

Section Dict.

Lemma min_from_In best d : In (min_from best d) (best :: d).
Proof.
  revert best. induction d as [|kv d IH]; intros best; simpl; [auto|].
  destruct (IH (if Rlt_dec (snd kv) (snd best) then kv else best)) as [H|H].
  - destruct (Rlt_dec (snd kv) (snd best)); rewrite <- H; auto.
  - auto.
Qed.

Lemma min_from_le_best best d : snd (min_from best d) <= snd best.
Proof.
  revert best. induction d as [|h d IH]; intros best; simpl; [lra|].
  assert (H := IH (if Rlt_dec (snd h) (snd best) then h else best)).
  destruct (Rlt_dec (snd h) (snd best)); simpl in *; lra.
Qed.

Lemma min_from_le best d kv :
  In kv (best :: d) -> snd (min_from best d) <= snd kv.
Proof.
  revert best. induction d as [|h d IH]; intros best Hin.
  - destruct Hin as [->|[]]. simpl. lra.
  - destruct Hin as [<-|[<-|Hin]].
    + apply min_from_le_best.
    + simpl.
      assert (H := min_from_le_best (if Rlt_dec (snd h) (snd best) then h else best) d).
      destruct (Rlt_dec (snd h) (snd best)); simpl in *; lra.
    + simpl. apply IH. right. exact Hin.
Qed.

Lemma max_from_In best d : In (max_from best d) (best :: d).
Proof.
  revert best. induction d as [|kv d IH]; intros best; simpl; [auto|].
  destruct (IH (if Rlt_dec (snd best) (snd kv) then kv else best)) as [H|H].
  - destruct (Rlt_dec (snd best) (snd kv)); rewrite <- H; auto.
  - auto.
Qed.

Lemma max_from_ge_best best d : snd best <= snd (max_from best d).
Proof.
  revert best. induction d as [|h d IH]; intros best; simpl; [lra|].
  assert (H := IH (if Rlt_dec (snd best) (snd h) then h else best)).
  destruct (Rlt_dec (snd best) (snd h)); simpl in *; lra.
Qed.

Lemma max_from_ge best d kv :
  In kv (best :: d) -> snd kv <= snd (max_from best d).
Proof.
  revert best. induction d as [|h d IH]; intros best Hin.
  - destruct Hin as [->|[]]. simpl. lra.
  - destruct Hin as [<-|[<-|Hin]].
    + apply max_from_ge_best.
    + simpl.
      assert (H := max_from_ge_best (if Rlt_dec (snd best) (snd h) then h else best) d).
      destruct (Rlt_dec (snd best) (snd h)); simpl in *; lra.
    + simpl. apply IH. right. exact Hin.
Qed.

Lemma dict_min_In d kv : dict_min d = Ok kv -> In kv d.
Proof.
  destruct d as [|h d]; simpl; [discriminate|]. intros [= <-]. apply min_from_In.
Qed.

Lemma dict_min_le d kv kv' : dict_min d = Ok kv -> In kv' d -> snd kv <= snd kv'.
Proof.
  destruct d as [|h d]; simpl; [discriminate|]. intros [= <-]. apply min_from_le.
Qed.

Lemma dict_min_empty d e : dict_min d = Raise e -> d = [] /\ e = ValueError.
Proof.
  destruct d as [|h d]; simpl; [intros [= <-]; auto | discriminate].
Qed.

Lemma ratios_In n x z b r :
  In (b, r) (ratios n x z) <-> (b < n)%nat /\ 0 < z b /\ r = x b / z b.
Proof.
  unfold ratios. rewrite in_flat_map. split.
  - intros [b' [Hb' Hin]]. apply in_seq in Hb'.
    destruct (Rlt_dec 0 (z b')) as [Hz|Hz]; [|destruct Hin].
    destruct Hin as [[= <- <-]|[]]. repeat split; [lia | exact Hz].
  - intros [Hb [Hz ->]]. exists b. split; [apply in_seq; lia|].
    destruct (Rlt_dec 0 (z b)); [left; reflexivity | contradiction].
Qed.

Lemma ratios_empty n x z :
  ratios n x z = [] <-> forall b, (b < n)%nat -> z b <= 0.
Proof.
  split.
  - intros E b Hb. destruct (Rle_dec (z b) 0) as [H|H]; [exact H|].
    assert (Hin : In (b, x b / z b) (ratios n x z))
      by (apply ratios_In; repeat split; [exact Hb | lra]).
    rewrite E in Hin. destruct Hin.
  - intros H. destruct (ratios n x z) as [|[b r] d] eqn:E; [reflexivity|].
    assert (Hin : In (b, r) (ratios n x z)) by (rewrite E; left; reflexivity).
    apply ratios_In in Hin. destruct Hin as [Hb [Hz _]].
    specialize (H b Hb). lra.
Qed.

(** What the minimum-ratio rule returns. *)
Lemma ratio_test n x z j eps :
  dict_min (ratios n x z) = Ok (j, eps) ->
  (j < n)%nat /\ 0 < z j /\ eps = x j / z j /\
  forall b, (b < n)%nat -> 0 < z b -> eps <= x b / z b.
Proof.
  intros E. assert (Hin := dict_min_In _ _ E). apply ratios_In in Hin.
  destruct Hin as [Hj [Hz Heps]]. repeat split; try assumption.
  intros b Hb Hzb.
  apply (dict_min_le _ _ (b, x b / z b) E).
  apply ratios_In. auto.
Qed.

End Dict.

(** ** One pivot keeps the basic solution feasible *)

Section PivotStep.

Variables (n : nat) (B : mat) (x d Nent z : vec) (j : nat) (eps : R).

Hypothesis Bx : forall i, (i < n)%nat -> matvec n B x i = d i.
Hypothesis x_nonneg : forall b, (b < n)%nat -> 0 <= x b.
Hypothesis Bz : solves n B Nent z.
Hypothesis j_lt : (j < n)%nat.
Hypothesis zj_pos : 0 < z j.
Hypothesis eps_eq : eps = x j / z j.
Hypothesis eps_min : forall b, (b < n)%nat -> 0 < z b -> eps <= x b / z b.

Lemma step_nonneg : 0 <= eps.
Proof.
  rewrite eps_eq. apply Rmult_le_pos; [apply x_nonneg; exact j_lt|].
  left. apply Rinv_0_lt_compat. exact zj_pos.
Qed.

Lemma step_zero_at_departing : x j - eps * z j = 0.
Proof. rewrite eps_eq. field. lra. Qed.

Lemma pivot_keeps_system i :
  (i < n)%nat ->
  matvec n (fun i b => if Nat.eqb b j then Nent i else B i b)
           (fun b => if Nat.eqb b j then eps else x b - eps * z b) i = d i.
Proof.
  intros Hi. unfold matvec.
  rewrite (np_sum_ext n _
             (fun b => if Nat.eqb b j then Nent i * eps else B i b * (x b - eps * z b))).
  2:{ intros b _. destruct (Nat.eqb b j); reflexivity. }
  rewrite np_sum_update by exact j_lt.
  rewrite (np_sum_ext n (fun b => B i b * (x b - eps * z b))
             (fun b => B i b * x b - eps * (B i b * z b))) by (intros; lra).
  rewrite np_sum_minus, np_sum_scal.
  assert (H1 := Bx i Hi). assert (H2 := Bz i Hi). unfold matvec in H1, H2.
  rewrite H1, H2. rewrite step_zero_at_departing. lra.
Qed.

Lemma pivot_keeps_nonneg b :
  (b < n)%nat -> 0 <= (if Nat.eqb b j then eps else x b - eps * z b).
Proof.
  intros Hb. destruct (Nat.eqb b j); [apply step_nonneg|].
  assert (He := step_nonneg). assert (Hx := x_nonneg b Hb).
  destruct (Rlt_dec 0 (z b)) as [Hz|Hz].
  - assert (H := eps_min b Hb Hz).
    apply (Rmult_le_compat_r (z b)) in H; [|lra].
    replace (x b / z b * z b) with (x b) in H by (field; lra). lra.
  - assert (eps * z b <= 0) by nra. lra.
Qed.

End PivotStep.

(** ** Evaluating comparisons of concrete reals *)

Ltac Rdec :=
  match goal with
  | |- context [Rlt_dec ?a ?b] =>
      first
        [ let H := fresh in
          assert (H : a < b) by lra;
          destruct (Rlt_dec a b); [clear H | contradiction]
        | let H := fresh in
          assert (H : ~ a < b) by lra;
          destruct (Rlt_dec a b); [contradiction | clear H] ]
  end.

(** ** [Pivoter] *)

Section PivoterFacts.

Import Pivoter.

Lemma thedic_ratios self z : thedic self z = ratios (nbb self) (x_b self) z.
Proof. reflexivity. Qed.

(** C7.  A [Pivoter] whose basic solution satisfies [B x_B = d] and
    [x_B >= 0] is taken by [determine_departing] followed by [update] to a
    state that again satisfies [B x_B = d] and [x_B >= 0]; the update
    succeeds and replaces column [bdep] of [B] by the entering column. *)
Theorem Pivoter_update_keeps_feasible :
  forall (self : Pivoter.t) (d Nent : vec) (bdep : nat) (eps : R),
    (forall i, (i < nbb self)%nat -> matvec (nbb self) (B_i_b self) (x_b self) i = d i) ->
    (forall b, (b < nbb self)%nat -> 0 <= x_b self b) ->
    determine_departing self Nent = Ok (bdep, eps) ->
    exists self',
      update self bdep eps Nent = Ok self' /\
      nbb self' = nbb self /\
      (forall i b, B_i_b self' i b = if Nat.eqb b bdep then Nent i else B_i_b self i b) /\
      (forall i, (i < nbb self')%nat ->
                 matvec (nbb self') (B_i_b self') (x_b self') i = d i) /\
      (forall b, (b < nbb self')%nat -> 0 <= x_b self' b).
Proof.
  intros self d Nent bdep eps HBx Hx Hdep.
  unfold determine_departing in Hdep.
  destruct (linalg_solve (nbb self) (B_i_b self) Nent) as [z|e] eqn:Ez;
    simpl in Hdep; [|discriminate].
  destruct (linalg_solve_Ok _ _ _ _ Ez) as [_ Hz].
  rewrite thedic_ratios in Hdep.
  destruct (ratio_test _ _ _ _ _ Hdep) as [Hj [Hzj [Heps Hmin]]].
  unfold update. rewrite Ez. simpl.
  destruct (Nat.ltb_spec bdep (nbb self)) as [_|Hge]; [|lia].
  eexists. split; [reflexivity|]. simpl.
  split; [reflexivity|]. split; [reflexivity|]. split.
  - intros i Hi.
    exact (pivot_keeps_system (nbb self) (B_i_b self) (x_b self) d Nent z bdep eps
             HBx Hz Hj Hzj Heps i Hi).
  - intros b Hb.
    exact (pivot_keeps_nonneg (nbb self) (x_b self) z bdep eps Hx Hj Hzj Heps Hmin b Hb).
Qed.

(** The resolved direction of the example is the entering column itself. *)
Lemma example_direction :
  exists z, linalg_solve 2 identity Examples.N_x0 = Ok z /\ z 0%nat = 2 /\ z 1%nat = 1.
Proof.
  destruct (linalg_solve_eval 2 identity identity Examples.N_x0 Examples.N_x0)
    as [z [E Hz]].
  - apply identity_is_inverse.
  - intros i Hi. unfold matvec. apply np_sum_identity_l. exact Hi.
  - exists z. split; [exact E|].
    split; [apply (Hz 0%nat) | apply (Hz 1%nat)]; lia.
Qed.

Lemma example_departing :
  determine_departing Examples.P_eye2 Examples.N_x0 = Ok (0%nat, 1).
Proof.
  unfold determine_departing. simpl.
  destruct example_direction as [z [-> [Hz0 Hz1]]]. simpl.
  unfold thedic. simpl. rewrite Hz0, Hz1.
  repeat Rdec. simpl. Rdec.
  f_equal. f_equal. field.
Qed.

(** Witness of C7 on the first pivot of the notebook's example. *)
Lemma Pivoter_update_keeps_feasible_witness :
  exists self',
    update Examples.P_eye2 0 1 Examples.N_x0 = Ok self' /\
    nbb self' = 2%nat /\
    (forall i b, B_i_b self' i b = if Nat.eqb b 0 then Examples.N_x0 i else identity i b) /\
    (forall i, (i < nbb self')%nat ->
               matvec (nbb self') (B_i_b self') (x_b self') i = 2) /\
    (forall b, (b < nbb self')%nat -> 0 <= x_b self' b).
Proof.
  apply (Pivoter_update_keeps_feasible Examples.P_eye2 (fun _ => 2) Examples.N_x0 0 1).
  - intros i Hi. simpl. unfold matvec.
    exact (np_sum_identity_l 2 (fun _ => 2) i Hi).
  - intros b _. simpl. lra.
  - exact example_departing.
Defined.

End PivoterFacts.

Section PivoterUnbounded.

Import Pivoter.

(** An empty dictionary of ratios makes [min] raise. *)
Lemma no_positive_entry_raises :
  forall (self : Pivoter.t) (Nent z : vec),
    linalg_solve (nbb self) (B_i_b self) Nent = Ok z ->
    (forall b, (b < nbb self)%nat -> z b <= 0) ->
    determine_departing self Nent = Raise ValueError.
Proof.
  intros self Nent z Ez Hz. unfold determine_departing. rewrite Ez. simpl.
  rewrite thedic_ratios.
  assert (E : ratios (nbb self) (x_b self) z = []) by (apply ratios_empty; exact Hz).
  rewrite E. reflexivity.
Qed.

(** C9, as the code has it.  When the resolved direction [z = B^-1 Nent]
    has no strictly positive entry, [determine_departing] returns no
    departing row: the dictionary of ratios is empty and [min] raises the
    built-in [ValueError].  No dedicated unboundedness error exists. *)
Theorem determine_departing_unbounded_raises_ValueError :
  forall (self : Pivoter.t) (Nent z : vec),
    linalg_solve (nbb self) (B_i_b self) Nent = Ok z ->
    (forall b, (b < nbb self)%nat -> z b <= 0) ->
    determine_departing self Nent = Raise ValueError.
Proof. exact no_positive_entry_raises. Qed.

Lemma example_negative_direction :
  exists z, linalg_solve 1 identity Examples.N_neg = Ok z /\ z 0%nat = -1.
Proof.
  destruct (linalg_solve_eval 1 identity identity Examples.N_neg Examples.N_neg)
    as [z [E Hz]].
  - apply identity_is_inverse.
  - intros i Hi. unfold matvec. apply np_sum_identity_l. exact Hi.
  - exists z. split; [exact E|]. apply (Hz 0%nat). lia.
Qed.

(** Witness of the amended C9: a one-row basis whose entering column
    resolves to [-1]. *)
Lemma determine_departing_unbounded_witness :
  determine_departing Examples.P_eye1 Examples.N_neg = Raise ValueError.
Proof.
  destruct example_negative_direction as [z [Ez Hz]].
  apply (determine_departing_unbounded_raises_ValueError
           Examples.P_eye1 Examples.N_neg z Ez).
  intros b Hb. simpl in Hb. assert (b = 0%nat) as -> by lia. rewrite Hz. lra.
Defined.

(** Counterexample to C9 as stated: on that input the direction has no
    positive entry, yet the error raised is not [UnboundedError]. *)
Lemma determine_departing_unbounded_counterexample :
  ~ (forall (self : Pivoter.t) (Nent z : vec),
        linalg_solve (nbb self) (B_i_b self) Nent = Ok z ->
        (forall b, (b < nbb self)%nat -> z b <= 0) ->
        determine_departing self Nent = Raise UnboundedError).
Proof.
  intros H. destruct example_negative_direction as [z [Ez Hz]].
  specialize (H Examples.P_eye1 Examples.N_neg z Ez).
  assert (Hz' : forall b, (b < nbb Examples.P_eye1)%nat -> z b <= 0).
  { intros b Hb. simpl in Hb. assert (b = 0%nat) as -> by lia. rewrite Hz. lra. }
  specialize (H Hz').
  rewrite (no_positive_entry_raises Examples.P_eye1 Examples.N_neg z Ez Hz') in H.
  discriminate H.
Qed.

End PivoterUnbounded.

(** ** The column-generation loop *)

Section ColumnGeneration.

Import CuttingStock.

Variable w_i : nat -> nat.

Lemma ratio_dic_ratios nbi x z : ratio_dic nbi x z = ratios nbi x z.
Proof. reflexivity. Qed.

(** The entries of the resolved direction add up to the price of the
    entering pattern: [sum z = k . a] when [AB^T k = 1] and [AB z = a]. *)
Lemma direction_sum nbi (AB : mat) (k a z : vec) :
  solves nbi (transpose AB) (fun _ => 1) k ->
  solves nbi AB a z ->
  np_sum nbi z = dot nbi k a.
Proof.
  intros Hk Hz. unfold dot.
  rewrite (np_sum_ext nbi z (fun j => np_sum nbi (fun i => k i * (AB i j * z j)))).
  2:{ intros j Hj. specialize (Hk j Hj). unfold matvec, transpose in Hk.
      rewrite (np_sum_ext nbi _ (fun i => (AB i j * k i) * z j)) by (intros; lra).
      rewrite np_sum_scal_r, Hk. lra. }
  rewrite np_sum_swap. apply np_sum_ext. intros i Hi.
  rewrite np_sum_scal. specialize (Hz i Hi). unfold matvec in Hz. rewrite Hz.
  reflexivity.
Qed.

(** The objective after an accepted pivot. *)
Lemma objective_after_pivot nbi (x z : vec) jexit eps :
  (jexit < nbi)%nat -> x jexit - eps * z jexit = 0 ->
  np_sum nbi (fun j => if Nat.eqb j jexit then eps else x j - eps * z j) =
  np_sum nbi x - eps * (np_sum nbi z - 1).
Proof.
  intros Hj H0. rewrite np_sum_update by exact Hj.
  rewrite np_sum_minus, np_sum_scal, H0. lra.
Qed.

(** What one pass of the loop does, case by case. *)
Lemma body_cases nbi W s s' :
  body w_i nbi W s = Ok s' ->
  exists k a,
    linalg_solve nbi (transpose (AB_i_j s)) (fun _ => 1) = Ok k /\
    knapsack w_i nbi k W = Ok a /\
    ((1 >= dot nbi k a /\ cont s' = false /\ xB_j s' = xB_j s /\ AB_i_j s' = AB_i_j s) \/
     (~ 1 >= dot nbi k a /\ cont s' = true /\
      exists z jexit eps,
        linalg_solve nbi (AB_i_j s) a = Ok z /\
        dict_min (ratios nbi (xB_j s) z) = Ok (jexit, eps) /\
        xB_j s' = (fun j => if Nat.eqb j jexit then eps else xB_j s j - eps * z j) /\
        AB_i_j s' = (fun i j => if Nat.eqb j jexit then a i else AB_i_j s i j))).
Proof.
  unfold body. intros H.
  destruct (linalg_solve nbi (transpose (AB_i_j s)) (fun _ => 1)) as [k|] eqn:Ek;
    simpl in H; [|discriminate].
  destruct (knapsack w_i nbi k W) as [a|] eqn:Ea; simpl in H; [|discriminate].
  exists k, a. split; [reflexivity|]. split; [exact Ea|].
  destruct (Rge_dec 1 (dot nbi k a)) as [Hge|Hlt].
  - injection H as <-. left. simpl. auto.
  - right. split; [exact Hlt|].
    destruct (linalg_solve nbi (AB_i_j s) a) as [z|] eqn:Ez; simpl in H; [|discriminate].
    rewrite ratio_dic_ratios in H.
    destruct (dict_min (ratios nbi (xB_j s) z)) as [[jexit eps]|] eqn:Em;
      simpl in H; [|discriminate].
    injection H as <-. simpl. split; [reflexivity|].
    exists z, jexit, eps. auto.
Qed.

(** One pass never raises the objective when the basic solution is
    non-negative, and keeps it non-negative. *)
Lemma body_monotone nbi W s s' :
  (forall j, (j < nbi)%nat -> 0 <= xB_j s j) ->
  body w_i nbi W s = Ok s' ->
  np_sum nbi (xB_j s') <= np_sum nbi (xB_j s) /\
  (forall j, (j < nbi)%nat -> 0 <= xB_j s' j).
Proof.
  intros Hx Hb.
  destruct (body_cases nbi W s s' Hb) as [k [a [Ek [Ea [Hstop|Hpiv]]]]].
  - destruct Hstop as [_ [_ [-> _]]]. split; [lra | exact Hx].
  - destruct Hpiv as [Hgt [_ [z [jexit [eps [Ez [Em [-> _]]]]]]]].
    destruct (linalg_solve_Ok _ _ _ _ Ek) as [_ Hk].
    destruct (linalg_solve_Ok _ _ _ _ Ez) as [_ Hz].
    destruct (ratio_test _ _ _ _ _ Em) as [Hj [Hzj [Heps Hmin]]].
    assert (He : 0 <= eps)
      by exact (step_nonneg nbi (xB_j s) z jexit eps Hx Hj Hzj Heps).
    assert (H0 : xB_j s jexit - eps * z jexit = 0)
      by exact (step_zero_at_departing (xB_j s) z jexit eps Hzj Heps).
    split.
    + rewrite objective_after_pivot by assumption.
      rewrite (direction_sum nbi (AB_i_j s) k a z Hk Hz).
      assert (dot nbi k a > 1) by lra. nra.
    + intros j Hjn.
      exact (pivot_keeps_nonneg nbi (xB_j s) z jexit eps Hx Hj Hzj Heps Hmin j Hjn).
Qed.

(** A matrix with a zero row is singular. *)
Lemma zero_row_singular n (M : mat) i :
  (i < n)%nat -> (forall j, (j < n)%nat -> M i j = 0) -> ~ invertible n M.
Proof.
  intros Hi Hrow [Minv Hinv]. destruct (Hinv i i Hi Hi) as [H _].
  rewrite (np_sum_ext n _ (fun _ => 0)) in H.
  - rewrite np_sum_zero in H. unfold identity in H. rewrite Nat.eqb_refl in H. lra.
  - intros k Hk. rewrite Hrow by exact Hk. lra.
Qed.

Lemma np_sum_diag n (c x : vec) i :
  (i < n)%nat ->
  np_sum n (fun j => (if Nat.eqb i j then c i else 0) * x j) = c i * x i.
Proof.
  intros Hi.
  rewrite (np_sum_ext n _ (fun j => identity i j * (c i * x j))).
  - rewrite np_sum_identity_l by exact Hi. reflexivity.
  - intros j _. unfold identity. destruct (Nat.eqb i j); lra.
Qed.

(** The starting basic solution is [q_i / (W // w_i)], hence non-negative
    for non-negative demands. *)
Lemma init_nonneg nbi q W s :
  (forall i, (i < nbi)%nat -> 0 <= q i) ->
  init w_i nbi q W = Ok s ->
  forall j, (j < nbi)%nat -> 0 <= xB_j s j.
Proof.
  intros Hq Hinit j Hj. unfold init in Hinit.
  destruct (linalg_solve nbi _ q) as [x|] eqn:Ex; simpl in Hinit; [|discriminate].
  injection Hinit as <-. simpl.
  destruct (linalg_solve_Ok _ _ _ _ Ex) as [Hinv Hx].
  specialize (Hx j Hj). unfold matvec in Hx.
  rewrite (np_sum_diag nbi (fun i => INR (W / w_i i)) x j Hj) in Hx.
  assert (Hpos : 0 <= INR (W / w_i j)) by apply pos_INR.
  destruct (Req_dec (INR (W / w_i j)) 0) as [Hz|Hnz].
  - exfalso. apply (zero_row_singular nbi _ j Hj) in Hinv; [exact Hinv|].
    intros l _. destruct (Nat.eqb j l); [exact Hz | reflexivity].
  - specialize (Hq j Hj).
    assert (0 < INR (W / w_i j)) by lra. nra.
Qed.

Lemma reachable_nonneg nbi q W s :
  (forall i, (i < nbi)%nat -> 0 <= q i) ->
  reachable w_i nbi q W s ->
  forall j, (j < nbi)%nat -> 0 <= xB_j s j.
Proof.
  intros Hq Hr. induction Hr as [s Hinit|s s' Hr IH Hc Hb].
  - exact (init_nonneg nbi q W s Hq Hinit).
  - exact (proj2 (body_monotone nbi W s s' IH Hb)).
Qed.

End ColumnGeneration.

(** C4.  In the column-generation loop started from the diagonal basis
    with non-negative demands [q_i], the objective [sum x_B] after a pass
    of the loop is never above its value before the pass; in particular
    after every accepted pivot. *)
Theorem column_generation_objective_nonincreasing :
  forall (w_i : nat -> nat) (nbi : nat) (q_i : vec) (W : nat)
         (s s' : CuttingStock.state),
    (forall i, (i < nbi)%nat -> 0 <= q_i i) ->
    CuttingStock.reachable w_i nbi q_i W s ->
    CuttingStock.cont s = true ->
    CuttingStock.body w_i nbi W s = Ok s' ->
    np_sum nbi (CuttingStock.xB_j s') <= np_sum nbi (CuttingStock.xB_j s).
Proof.
  intros w_i nbi q_i W s s' Hq Hr _ Hb.
  exact (proj1 (body_monotone w_i nbi W s s' (reachable_nonneg w_i nbi q_i W s Hq Hr) Hb)).
Qed.

(** ** The [knapsack] oracle *)

Section Knapsack.

Import CuttingStock.

Variable w_i : nat -> nat.

Lemma max_from_first best d :
  (forall kv, In kv d -> snd kv <= snd best) -> max_from best d = best.
Proof.
  revert best. induction d as [|h d IH]; intros best H; simpl; [reflexivity|].
  assert (Hh : snd h <= snd best) by (apply H; left; reflexivity).
  destruct (Rlt_dec (snd best) (snd h)); [lra|].
  apply IH. intros kv Hin. apply H. right. exact Hin.
Qed.

(** The dictionary of a table cell starts with the key 0. *)
Lemma thedic_cons k_i i F_i v :
  thedic w_i k_i i F_i v =
  (O, k_i (S i) * INR 0 + F_i (v - 0 * w_i (S i))%nat)
    :: map (fun a => (a, k_i (S i) * INR a + F_i (v - a * w_i (S i))%nat))
           (seq 1 (v / w_i (S i))).
Proof.
  unfold thedic. rewrite Nat.add_1_r. reflexivity.
Qed.

Lemma best_thedic k_i i F_i v :
  best (thedic w_i k_i i F_i v) =
  max_from (O, k_i (S i) * INR 0 + F_i (v - 0 * w_i (S i))%nat)
           (map (fun a => (a, k_i (S i) * INR a + F_i (v - a * w_i (S i))%nat))
                (seq 1 (v / w_i (S i)))).
Proof. rewrite thedic_cons. reflexivity. Qed.

(** With a non-positive first price and zero prices elsewhere the table
    [F] is zero throughout, ... *)
Lemma F_zero k_i :
  k_i O <= 0 -> (forall i, k_i (S i) = 0) -> forall i v, F w_i k_i i v = 0.
Proof.
  intros H0 HS. induction i as [|i IH]; intros v; simpl.
  - rewrite Rmax_right by exact H0. lra.
  - rewrite best_thedic.
    rewrite max_from_first.
    + simpl. rewrite HS, IH. lra.
    + intros [a r] Hin. apply in_map_iff in Hin.
      destruct Hin as [a' [[= <- <-] _]]. simpl. rewrite HS, !IH. lra.
Qed.

(** ... every later row of [A] records the first key, 0, ... *)
Lemma A_zero k_i :
  k_i O <= 0 -> (forall i, k_i (S i) = 0) -> forall i v, A w_i k_i (S i) v = O.
Proof.
  intros H0 HS i v. unfold A. rewrite best_thedic.
  rewrite max_from_first; [reflexivity|].
  intros [a r] Hin. apply in_map_iff in Hin.
  destruct Hin as [a' [[= <- <-] _]]. simpl.
  rewrite HS, !(F_zero k_i H0 HS). lra.
Qed.

(** ... and the backtracking fills the first item to capacity. *)
Lemma backtrack_zero k_i :
  k_i O <= 0 -> (forall i, k_i (S i) = 0) ->
  forall i v a_i j,
    backtrack w_i k_i (S i) v a_i j =
    if Nat.eqb j 0 then INR (v / w_i 0)
    else if (j <=? i)%nat then 0 else a_i j.
Proof.
  intros H0 HS. induction i as [|i IH]; intros v a_i j.
  - simpl. destruct (Nat.eqb_spec j 0) as [->|Hj]; [reflexivity|].
    destruct (Nat.leb_spec j 0); [lia | reflexivity].
  - change (backtrack w_i k_i (S (S i)) v a_i j)
      with (backtrack w_i k_i (S i) (v - A w_i k_i (S i) v * w_i (S i))%nat
              (fun j => if Nat.eqb j (S i) then INR (A w_i k_i (S i) v) else a_i j) j).
    rewrite IH, (A_zero k_i H0 HS). simpl (0 * _)%nat. rewrite Nat.sub_0_r.
    destruct (Nat.eqb_spec j 0) as [->|Hj]; [reflexivity|].
    destruct (Nat.leb_spec j i), (Nat.leb_spec j (S i)); try lia; try reflexivity.
    + assert (j = S i) as -> by lia. rewrite Nat.eqb_refl. reflexivity.
    + destruct (Nat.eqb_spec j (S i)); [lia | reflexivity].
Qed.

End Knapsack.

(** C5 fails on the code.  On the notebook's own widths and roll, with
    prices [(-1, 0, ..., 0)], [knapsack] returns the pattern
    [(4, 0, ..., 0)] of value [-4], although the empty pattern is feasible
    and has value [0]: row 0 of [A] is filled with [v // w_i[0]] whatever
    the sign of [k_i[0]], while row 0 of [F] takes [max(k_i[0], 0)]. *)
Theorem knapsack_negative_first_price_not_optimal :
  exists a : vec,
    CuttingStock.knapsack Examples.w_notebook 13 Examples.k_negative Examples.W_notebook
      = Ok a /\
    a O = 4 /\
    (forall i, (1 <= i < 13)%nat -> a i = 0) /\
    dot 13 Examples.k_negative a = -4 /\
    (* the empty pattern fits the roll and is worth more *)
    (np_sum 13 (fun i => INR (Examples.w_notebook i) * 0) <= INR Examples.W_notebook /\
     dot 13 Examples.k_negative (fun _ => 0) = 0 /\
     dot 13 Examples.k_negative a < dot 13 Examples.k_negative (fun _ => 0)).
Proof.
  assert (H0 : Examples.k_negative O <= 0) by (unfold Examples.k_negative; simpl; lra).
  assert (HS : forall i, Examples.k_negative (S i) = 0) by reflexivity.
  assert (Hb := backtrack_zero Examples.w_notebook Examples.k_negative H0 HS 12
                  Examples.W_notebook (fun _ => 0)).
  exists (CuttingStock.backtrack Examples.w_notebook Examples.k_negative 13
            Examples.W_notebook (fun _ => 0)).
  assert (Ha0 : CuttingStock.backtrack Examples.w_notebook Examples.k_negative 13
                  Examples.W_notebook (fun _ => 0) O = 4).
  { rewrite Hb. simpl Nat.eqb. cbv iota.
    replace (Examples.W_notebook / Examples.w_notebook 0)%nat with 4%nat
      by (vm_compute; reflexivity).
    simpl. lra. }
  assert (Hai : forall i, (1 <= i < 13)%nat ->
            CuttingStock.backtrack Examples.w_notebook Examples.k_negative 13
              Examples.W_notebook (fun _ => 0) i = 0).
  { intros i Hi. rewrite Hb.
    destruct (Nat.eqb_spec i 0); [lia|].
    destruct (Nat.leb_spec i 12); [reflexivity | lia]. }
  split; [reflexivity|]. split; [exact Ha0|]. split; [exact Hai|].
  assert (Hd : dot 13 Examples.k_negative
                 (CuttingStock.backtrack Examples.w_notebook Examples.k_negative 13
                    Examples.W_notebook (fun _ => 0)) = -4).
  { unfold dot. cbn [np_sum]. rewrite Ha0.
    rewrite !Hai by lia. unfold Examples.k_negative. simpl. lra. }
  split; [exact Hd|].
  assert (Hz : dot 13 Examples.k_negative (fun _ => 0) = 0).
  { unfold dot. rewrite (np_sum_ext 13 _ (fun _ => 0)) by (intros; lra).
    apply np_sum_zero. }
  split; [|split; [exact Hz | rewrite Hd, Hz; lra]].
  rewrite (np_sum_ext 13 _ (fun _ => 0)) by (intros; lra).
  rewrite np_sum_zero. apply pos_INR.
Qed.

(** ** A pass of the loop on a small cutting-stock instance

    Widths (2, 3), roll 5, demands (2, 1): the starting basis is
    [diag(2, 1)] with [x_B = (1, 1)], the prices are [(1/2, 1)], the
    oracle proposes the pattern [(1, 1)] of price [3/2 > 1], and the ratio
    test lets the second basic pattern leave with [epsilon = 1]. *)

Section SmallInstance.

Import CuttingStock.

Ltac small_index i Hi :=
  destruct i as [|[|i]]; [| |exfalso; simpl in Hi; lia].

Lemma small_basis_inverse :
  is_inverse 2 (fun i j => if Nat.eqb i j then INR (5 / Examples.w_small i) else 0)
               (fun i j => if Nat.eqb i j then / INR (5 / Examples.w_small i) else 0).
Proof.
  intros i j Hi Hj. small_index i Hi; small_index j Hj;
    split; unfold identity; simpl; field.
Qed.

Lemma small_basis_transpose_inverse :
  is_inverse 2
    (transpose (fun i j => if Nat.eqb i j then INR (5 / Examples.w_small i) else 0))
    (fun i j => if Nat.eqb i j then / INR (5 / Examples.w_small i) else 0).
Proof.
  intros i j Hi Hj. small_index i Hi; small_index j Hj;
    split; unfold identity, transpose; simpl; field.
Qed.

Lemma small_init :
  exists s, init Examples.w_small 2 Examples.q_small 5 = Ok s /\
            cont s = true /\
            AB_i_j s = (fun i j => if Nat.eqb i j then INR (5 / Examples.w_small i) else 0) /\
            xB_j s 0%nat = 1 /\ xB_j s 1%nat = 1.
Proof.
  unfold init.
  destruct (linalg_solve_eval 2 _ _ Examples.q_small (fun _ => 1) small_basis_inverse)
    as [x [-> Hx]].
  - intros i Hi. unfold matvec, Examples.q_small.
    small_index i Hi; simpl; lra.
  - simpl. eexists. split; [reflexivity|]. simpl.
    split; [reflexivity|]. split; [reflexivity|].
    split; apply Hx; lia.
Qed.

Lemma small_prices :
  exists k,
    linalg_solve 2
      (transpose (fun i j => if Nat.eqb i j then INR (5 / Examples.w_small i) else 0))
      (fun _ => 1) = Ok k /\
    k 0%nat = 1 / 2 /\ k 1%nat = 1.
Proof.
  destruct (linalg_solve_eval 2 _ _ (fun _ => 1)
              (fun i => if Nat.eqb i 0 then 1 / 2 else 1) small_basis_transpose_inverse)
    as [k [E Hk]].
  - intros i Hi. unfold matvec, transpose.
    small_index i Hi; simpl; lra.
  - exists k. split; [exact E|]. split; [apply (Hk 0%nat) | apply (Hk 1%nat)]; lia.
Qed.

Lemma small_pattern (k : vec) :
  k 0%nat = 1 / 2 -> k 1%nat = 1 ->
  exists a, knapsack Examples.w_small 2 k 5 = Ok a /\ a 0%nat = 1 /\ a 1%nat = 1.
Proof.
  intros Hk0 Hk1.
  assert (HF : forall v, F Examples.w_small k 0 v = INR (v / 2) * (1 / 2)).
  { intros v. simpl. rewrite Hk0. rewrite Rmax_left by lra. reflexivity. }
  assert (HA : A Examples.w_small k 1 5 = 1%nat).
  { unfold A. rewrite best_thedic. rewrite !HF, Hk1. simpl.
    rewrite Hk0, Rmax_left by lra. Rdec. reflexivity. }
  eexists. split; [reflexivity|].
  change (backtrack Examples.w_small k 2 5 (fun _ => 0))
    with (backtrack Examples.w_small k 0
            (5 - A Examples.w_small k 1 5 * 3
               - A Examples.w_small k 0 (5 - A Examples.w_small k 1 5 * 3) * 2)
            (fun j => if Nat.eqb j 0
                      then INR (A Examples.w_small k 0 (5 - A Examples.w_small k 1 5 * 3))
                      else if Nat.eqb j 1 then INR (A Examples.w_small k 1 5) else 0)).
  rewrite HA. simpl. split; lra.
Qed.

Lemma small_direction (a : vec) :
  a 0%nat = 1 -> a 1%nat = 1 ->
  exists z,
    linalg_solve 2 (fun i j => if Nat.eqb i j then INR (5 / Examples.w_small i) else 0) a
      = Ok z /\
    z 0%nat = 1 / 2 /\ z 1%nat = 1.
Proof.
  intros Ha0 Ha1.
  destruct (linalg_solve_eval 2 _ _ a
              (fun i => if Nat.eqb i 0 then 1 / 2 else 1) small_basis_inverse)
    as [z [E Hz]].
  - intros i Hi. unfold matvec.
    small_index i Hi; simpl; lra.
  - exists z. split; [exact E|]. split; [apply (Hz 0%nat) | apply (Hz 1%nat)]; lia.
Qed.

Lemma small_pass :
  exists s s',
    reachable Examples.w_small 2 Examples.q_small 5 s /\
    cont s = true /\
    body Examples.w_small 2 5 s = Ok s' /\
    cont s' = true.
Proof.
  destruct small_init as [s [Hinit [Hcont [HAB [Hx0 Hx1]]]]].
  exists s. unfold body. rewrite HAB.
  destruct small_prices as [k [-> [Hk0 Hk1]]]. cbn [bind].
  destruct (small_pattern k Hk0 Hk1) as [a [-> [Ha0 Ha1]]]. cbn [bind].
  assert (Hdot : dot 2 k a = 3 / 2).
  { unfold dot. simpl. rewrite Hk0, Hk1, Ha0, Ha1. lra. }
  destruct (Rge_dec 1 (dot 2 k a)) as [Hge|_]; [lra|].
  destruct (small_direction a Ha0 Ha1) as [z [-> [Hz0 Hz1]]]. cbn [bind].
  unfold ratio_dic. simpl flat_map. rewrite Hz0, Hz1, Hx0, Hx1.
  repeat Rdec. simpl. Rdec. simpl.
  eexists. split; [constructor; exact Hinit|].
  split; [exact Hcont|]. split; reflexivity.
Qed.

End SmallInstance.

(** Witness of C4: the first pass on the small instance is an accepted
    pivot, and the theorem applies to it. *)
Lemma column_generation_objective_nonincreasing_witness :
  exists s s',
    CuttingStock.reachable Examples.w_small 2 Examples.q_small 5 s /\
    CuttingStock.body Examples.w_small 2 5 s = Ok s' /\
    CuttingStock.cont s' = true /\
    np_sum 2 (CuttingStock.xB_j s') <= np_sum 2 (CuttingStock.xB_j s).
Proof.
  destruct small_pass as [s [s' [Hr [Hc [Hb Hc']]]]].
  exists s, s'. split; [exact Hr|]. split; [exact Hb|]. split; [exact Hc'|].
  apply (column_generation_objective_nonincreasing
           Examples.w_small 2 Examples.q_small 5 s s').
  - intros i Hi. unfold Examples.q_small. destruct (Nat.eqb i 0); lra.
  - exact Hr.
  - exact Hc.
  - exact Hb.
Defined.

(** ** Loops and maxima *)

Section Loops.

Context {S : Type}.
Variables (cond : S -> bool) (body : S -> result S).

Lemma while_stop fuel s : cond s = false -> while fuel cond body s = Ok s.
Proof. intros H. destruct fuel; simpl; [|rewrite H]; reflexivity. Qed.

Lemma while_step fuel s s' :
  cond s = true -> body s = Ok s' ->
  while (Datatypes.S fuel) cond body s = while fuel cond body s'.
Proof. intros Hc Hb. simpl. rewrite Hc, Hb. reflexivity. Qed.

(** An invariant of the body holds when the loop returns. *)
Lemma while_ind (P : S -> Prop) fuel s s_end :
  (forall s s', P s -> cond s = true -> body s = Ok s' -> P s') ->
  P s -> while fuel cond body s = Ok s_end -> P s_end.
Proof.
  intros Hstep. revert s. induction fuel as [|fuel IH]; intros s Hs Hw; simpl in Hw.
  - injection Hw as <-. exact Hs.
  - destruct (cond s) eqn:Hc.
    + destruct (body s) as [s'|] eqn:Hb; simpl in Hw; [|discriminate].
      apply (IH s'); [apply (Hstep s s'); assumption | exact Hw].
    + injection Hw as <-. exact Hs.
Qed.

(** With enough fuel for the loop counter, the loop returns only in a
    state where its guard is false. *)
Lemma while_exits (m : S -> nat) fuel s s_end :
  (forall s, cond s = true -> (0 < m s)%nat) ->
  (forall s s', cond s = true -> body s = Ok s' -> (m s' < m s)%nat) ->
  (m s <= fuel)%nat ->
  while fuel cond body s = Ok s_end -> cond s_end = false.
Proof.
  intros Hpos Hdec. revert s.
  induction fuel as [|fuel IH]; intros s Hm Hw; simpl in Hw.
  - injection Hw as <-. destruct (cond s) eqn:Hc; [|reflexivity].
    specialize (Hpos s Hc). lia.
  - destruct (cond s) eqn:Hc.
    + destruct (body s) as [s'|] eqn:Hb; simpl in Hw; [|discriminate].
      apply (IH s'); [|exact Hw]. specialize (Hdec s s' Hc Hb). lia.
    + injection Hw as <-. exact Hc.
Qed.

(** A body that never raises on the invariant gives a loop that returns. *)
Lemma while_total (P : S -> Prop) fuel s :
  (forall s, P s -> exists s', body s = Ok s' /\ P s') ->
  P s -> exists s_end, while fuel cond body s = Ok s_end.
Proof.
  intros Hb. revert s. induction fuel as [|fuel IH]; intros s Hs; simpl.
  - eauto.
  - destruct (cond s); [|eauto].
    destruct (Hb s Hs) as [s' [-> Hs']]. simpl. apply IH. exact Hs'.
Qed.

End Loops.

Section Maxima.

Lemma np_max_from_ge_best best n a : best <= np_max_from best n a.
Proof.
  induction n as [|n IH]; simpl; [lra|].
  apply Rle_trans with (1 := IH). apply Rmax_l.
Qed.

Lemma np_max_from_ge best n a i : (i < n)%nat -> a i <= np_max_from best n a.
Proof.
  induction n as [|n IH]; intros Hi; [lia|]. simpl.
  destruct (Nat.eq_dec i n) as [->|Hne]; [apply Rmax_r|].
  apply Rle_trans with (2 := Rmax_l _ _). apply IH. lia.
Qed.


Lemma np_max_from_lt best n a c :
  best < c -> (forall i, (i < n)%nat -> a i < c) -> np_max_from best n a < c.
Proof.
  intros Hb. induction n as [|n IH]; intros H; simpl; [exact Hb|].
  apply Rmax_lub_lt; [apply IH; intros; apply H; lia | apply H; lia].
Qed.

Lemma amax_ge n a i : (i < n)%nat -> a i <= amax n a.
Proof.
  intros Hi. unfold amax. destruct i as [|i].
  - apply np_max_from_ge_best.
  - apply (np_max_from_ge (a O) (pred n) (fun i => a (Datatypes.S i)) i). lia.
Qed.


Lemma amax_lt n a c :
  (0 < n)%nat -> (forall i, (i < n)%nat -> a i < c) -> amax n a < c.
Proof.
  intros Hn H. unfold amax. apply np_max_from_lt; [apply H; lia|].
  intros i Hi. apply H. lia.
Qed.

Lemma np_max_amax n a : (0 < n)%nat -> np_max n a = Ok (amax n a).
Proof. intros Hn. destruct n; [lia | reflexivity]. Qed.

End Maxima.

(** ** Matrix IPFP *)

Section MatrixIPFP.

Import OT OT.Matrix.

Variables (self : OTProblem) (σ tol : R) (maxite : nat).

Hypothesis n_pos : forall x, (x < nbx self)%nat -> 0 < n_x self x.
Hypothesis m_pos : forall y, (y < nby self)%nat -> 0 < m_y self y.
Hypothesis nbx_pos : (0 < nbx self)%nat.
Hypothesis nby_pos : (0 < nby self)%nat.

Lemma K_pos x y : 0 < K_x_y self σ x y.
Proof. unfold K_x_y. apply exp_pos. Qed.

Local Abbreviation Aof := (A_of self (K_x_y self σ)).
Local Abbreviation KAof := (KA_of self (K_x_y self σ)).
Local Abbreviation Bpos := (B_positive self).
Local Abbreviation passed := (after_a_pass self σ).
Local Abbreviation coupling := (coupling_after self σ).

Lemma KB_pos B x :
  (forall y, (y < nby self)%nat -> 0 < B y) ->
  0 < np_sum (nby self) (fun y => K_x_y self σ x y * B y).
Proof.
  intros HB. apply np_sum_pos; [exact nby_pos|].
  intros y Hy. apply Rmult_lt_0_compat; [apply K_pos | apply HB; exact Hy].
Qed.

Lemma A_of_pos B x :
  (forall y, (y < nby self)%nat -> 0 < B y) -> (x < nbx self)%nat -> 0 < Aof B x.
Proof.
  intros HB Hx. unfold A_of. apply Rdiv_lt_0_compat; [apply n_pos; exact Hx|].
  apply KB_pos. exact HB.
Qed.

Lemma KA_of_pos B y :
  (forall y, (y < nby self)%nat -> 0 < B y) -> 0 < KAof B y.
Proof.
  intros HB. unfold KA_of. apply np_sum_pos; [exact nbx_pos|].
  intros x Hx. apply Rmult_lt_0_compat; [apply A_of_pos; assumption | apply K_pos].
Qed.

(** One pass of the loop, spelled out. *)
Lemma body_spec s :
  body self (K_x_y self σ) s =
  Ok {| A_x := Some (Aof (B_y s));
        B_y := fun y => m_y self y / KAof (B_y s) y;
        error := amax (nby self)
                   (fun y => Rabs (KAof (B_y s) y * B_y s y / m_y self y) - 1);
        ite := S (ite s) |}.
Proof.
  unfold body. rewrite np_max_amax by exact nby_pos. reflexivity.
Qed.

Lemma body_B_positive s s' :
  Bpos s -> body self (K_x_y self σ) s = Ok s' -> Bpos s'.
Proof.
  intros HB Hb. rewrite body_spec in Hb. injection Hb as <-.
  intros y Hy. simpl. apply Rdiv_lt_0_compat; [apply m_pos; exact Hy|].
  apply KA_of_pos. exact HB.
Qed.

(** The state the loop returns is the image of a state with positive
    scalings, unless no pass was made. *)
Lemma loop_invariant s :
  loop self σ tol maxite = Ok s -> Bpos s /\ (s = init tol \/ passed s).
Proof.
  unfold loop.
  apply (while_ind (cond tol maxite) (body self (K_x_y self σ))
           (fun s => Bpos s /\ (s = init tol \/ passed s))).
  - intros p s' [HB _] _ Hb. split; [exact (body_B_positive p s' HB Hb)|].
    right. exists p. auto.
  - split; [|left; reflexivity]. intros y _. simpl. lra.
Qed.

Lemma loop_exits s : loop self σ tol maxite = Ok s -> cond tol maxite s = false.
Proof.
  unfold loop.
  apply (while_exits (cond tol maxite) (body self (K_x_y self σ))
           (fun s => (maxite - ite s)%nat)).
  - intros p Hc. unfold cond in Hc. apply andb_prop in Hc. destruct Hc as [_ Hc].
    apply Nat.ltb_lt in Hc. lia.
  - intros p s' Hc Hb. rewrite body_spec in Hb. injection Hb as <-. simpl.
    unfold cond in Hc. apply andb_prop in Hc. destruct Hc as [_ Hc].
    apply Nat.ltb_lt in Hc. lia.
  - simpl. lia.
Qed.

Lemma loop_returns : exists s, loop self σ tol maxite = Ok s.
Proof.
  unfold loop.
  apply (while_total (cond tol maxite) (body self (K_x_y self σ)) (fun _ => True));
    [|exact I].
  intros s _. rewrite body_spec. eauto.
Qed.

Lemma init_guard : (0 < maxite)%nat -> cond tol maxite (init tol) = true.
Proof.
  intros Hm. unfold cond, init, Rgtb. simpl.
  destruct (Rgt_dec (tol + 1) tol) as [_|Hn]; [|exfalso; apply Hn; lra].
  apply Nat.ltb_lt. exact Hm.
Qed.

(** With a positive cap the loop makes at least one pass. *)
Lemma loop_made_a_pass s :
  (0 < maxite)%nat -> loop self σ tol maxite = Ok s -> passed s.
Proof.
  intros Hm Hl. destruct (loop_invariant s Hl) as [_ [->|H]]; [|exact H].
  apply loop_exits in Hl. rewrite (init_guard Hm) in Hl. discriminate.
Qed.

(** The returned coupling after a pass from [p]. *)
Lemma matrixIPFP_after_pass s p :
  loop self σ tol maxite = Ok s ->
  body self (K_x_y self σ) p = Ok s ->
  exists out, matrixIPFP self σ tol maxite = Ok out /\
              μ_x_y out = coupling p /\ OT.ite out = ite s.
Proof.
  intros Hl Hb. unfold matrixIPFP. rewrite Hl. simpl.
  rewrite body_spec in Hb. injection Hb as <-. simpl.
  eexists. split; [reflexivity|]. simpl. split; reflexivity.
Qed.

(** The column sums of the coupling are exactly [m]. *)
Lemma coupling_column_sums p y :
  Bpos p -> (y < nby self)%nat ->
  np_sum (nbx self) (fun x => coupling p x y) = m_y self y.
Proof.
  intros HB Hy. unfold coupling_after.
  rewrite (np_sum_ext _ _
             (fun x => (Aof (B_y p) x * K_x_y self σ x y)
                       * (m_y self y / KAof (B_y p) y))) by (intros; lra).
  rewrite np_sum_scal_r. fold (KA_of self (K_x_y self σ) (B_y p) y).
  assert (H := KA_of_pos (B_y p) y HB). field. lra.
Qed.

(** The row sums before the column update are exactly [n]. *)
Lemma rows_before_update p x :
  Bpos p -> (x < nbx self)%nat ->
  np_sum (nby self) (fun y => Aof (B_y p) x * K_x_y self σ x y * B_y p y) = n_x self x.
Proof.
  intros HB Hx.
  rewrite (np_sum_ext _ _ (fun y => Aof (B_y p) x * (K_x_y self σ x y * B_y p y)))
    by (intros; lra).
  rewrite np_sum_scal. unfold A_of.
  assert (H := KB_pos (B_y p) x HB). field. lra.
Qed.

(** Each entry of the coupling is the entry before the column update
    divided by the ratio the loop measures. *)
Lemma coupling_ratio p x y :
  Bpos p -> (x < nbx self)%nat -> (y < nby self)%nat ->
  coupling p x y * (KAof (B_y p) y * B_y p y / m_y self y) =
  Aof (B_y p) x * K_x_y self σ x y * B_y p y.
Proof.
  intros HB Hx Hy. unfold coupling_after.
  assert (H1 := KA_of_pos (B_y p) y HB). assert (H2 := m_pos y Hy).
  field. lra.
Qed.

(** When the measured error is at most [tol], every row sum of the
    coupling is at least [n_x / (1 + tol)]. *)
Lemma row_sum_lower p x :
  Bpos p -> (x < nbx self)%nat -> 0 < tol ->
  amax (nby self) (fun y => Rabs (KAof (B_y p) y * B_y p y / m_y self y) - 1) <= tol ->
  n_x self x * / (1 + tol) <= np_sum (nby self) (fun y => coupling p x y).
Proof.
  intros HB Hx Htol Herr.
  rewrite <- (rows_before_update p x HB Hx). rewrite <- np_sum_scal_r.
  apply np_sum_le. intros y Hy.
  assert (HKA := KA_of_pos (B_y p) y HB). assert (Hm := m_pos y Hy).
  assert (HBy := HB y Hy). assert (HA := A_of_pos (B_y p) x HB Hx).
  assert (HK := K_pos x y).
  set (r := KAof (B_y p) y * B_y p y / m_y self y).
  assert (Hr : 0 < r).
  { unfold r. apply Rdiv_lt_0_compat; [apply Rmult_lt_0_compat|]; assumption. }
  assert (Hr' : r <= 1 + tol).
  { assert (H := amax_ge (nby self)
                   (fun y => Rabs (KAof (B_y p) y * B_y p y / m_y self y) - 1) y Hy).
    simpl in H. fold r in H. rewrite Rabs_right in H by lra. lra. }
  assert (Hc := coupling_ratio p x y HB Hx Hy). fold r in Hc.
  set (w := Aof (B_y p) x * K_x_y self σ x y * B_y p y) in *.
  assert (Hw : 0 < w).
  { unfold w. apply Rmult_lt_0_compat; [apply Rmult_lt_0_compat|]; assumption. }
  set (c := coupling p x y) in *.
  assert (Hcpos : 0 < c).
  { destruct (Rlt_dec 0 c) as [H|H]; [exact H|]. exfalso.
    assert (c * r <= 0) by nra. lra. }
  assert (Hi : 0 < / (1 + tol)) by (apply Rinv_0_lt_compat; lra).
  apply (Rmult_le_reg_r (1 + tol)); [lra|].
  rewrite Rmult_assoc, Rinv_l by lra. rewrite Rmult_1_r.
  rewrite <- Hc. nra.
Qed.

(** The total mass of the coupling is the total mass of [m]. *)
Lemma coupling_total_mass p :
  Bpos p ->
  np_sum (nbx self) (fun x => np_sum (nby self) (fun y => coupling p x y)) =
  np_sum (nby self) (m_y self).
Proof.
  intros HB. rewrite np_sum_swap. apply np_sum_ext. intros y Hy.
  apply coupling_column_sums; assumption.
Qed.

(** The row residual of a converged coupling, for marginals of total
    mass one. *)
Lemma row_residual_bound p x :
  np_sum (nbx self) (n_x self) = 1 -> np_sum (nby self) (m_y self) = 1 ->
  Bpos p -> (x < nbx self)%nat -> 0 < tol ->
  amax (nby self) (fun y => Rabs (KAof (B_y p) y * B_y p y / m_y self y) - 1) <= tol ->
  Rabs (np_sum (nby self) (fun y => coupling p x y) - n_x self x) < tol.
Proof.
  intros Hn1 Hm1 HB Hx Htol Herr.
  set (c := / (1 + tol)).
  assert (Hc0 : 0 < c) by (apply Rinv_0_lt_compat; lra).
  assert (Hc1 : c * (1 + tol) = 1) by (unfold c; field; lra).
  set (R := fun x => np_sum (nby self) (fun y => coupling p x y)).
  assert (Hlow : forall x', (x' < nbx self)%nat -> 0 <= R x' - n_x self x' * c).
  { intros x' Hx'. assert (H := row_sum_lower p x' HB Hx' Htol Herr).
    fold c in H. unfold R. lra. }
  assert (Hsum : np_sum (nbx self) (fun x' => R x' - n_x self x' * c) = 1 - c).
  { rewrite np_sum_minus, np_sum_scal_r, Hn1. unfold R.
    rewrite (coupling_total_mass p HB), Hm1. lra. }
  assert (Ht := np_sum_term_le (nbx self) (fun x' => R x' - n_x self x' * c) x Hlow Hx).
  simpl in Ht. rewrite Hsum in Ht.
  assert (Hnx : 0 < n_x self x) by (apply n_pos; exact Hx).
  assert (Hnx1 : n_x self x <= 1).
  { rewrite <- Hn1. apply (np_sum_term_le (nbx self) (n_x self) x); [|exact Hx].
    intros i Hi. left. apply n_pos. exact Hi. }
  assert (HR := Hlow x Hx). fold (R x).
  apply Rabs_def1; nra.
Qed.

End MatrixIPFP.

(** C10.  For positive marginals on a non-empty problem and a positive
    iteration cap, [matrixIPFP] returns, and the coupling it returns has
    column sums exactly [m], whether the loop stopped on the tolerance or
    on the cap. *)
Theorem matrixIPFP_column_sums_exact :
  forall (self : OT.OTProblem) (σ tol : R) (maxite : nat),
    (forall x, (x < OT.nbx self)%nat -> 0 < OT.n_x self x) ->
    (forall y, (y < OT.nby self)%nat -> 0 < OT.m_y self y) ->
    (0 < OT.nbx self)%nat -> (0 < OT.nby self)%nat -> (0 < maxite)%nat ->
    exists out,
      OT.Matrix.matrixIPFP self σ tol maxite = Ok out /\
      forall y, (y < OT.nby self)%nat ->
        np_sum (OT.nbx self) (fun x => OT.μ_x_y out x y) = OT.m_y self y.
Proof.
  intros self σ tol maxite Hn Hm Hx Hy Hmax.
  destruct (loop_returns self σ tol maxite Hy) as [s Hl].
  destruct (loop_made_a_pass self σ tol maxite Hn Hm Hx Hy s Hmax Hl) as [p [HB Hb]].
  destruct (matrixIPFP_after_pass self σ tol maxite Hy s p Hl Hb) as [out [E [Hmu _]]].
  exists out. split; [exact E|]. intros y Hyy. rewrite Hmu.
  exact (coupling_column_sums self σ Hn Hx Hy p y HB Hyy).
Qed.

(** Witness of C10 on the one-by-one problem. *)
Lemma matrixIPFP_column_sums_exact_witness :
  exists out,
    OT.Matrix.matrixIPFP Examples.P_unit 1 (1 / 8) 10 = Ok out /\
    forall y, (y < 1)%nat -> np_sum 1 (fun x => OT.μ_x_y out x y) = 1.
Proof.
  apply (matrixIPFP_column_sums_exact Examples.P_unit 1 (1 / 8) 10);
    simpl; intros; try lra; lia.
Defined.

Section MatrixConverged.

Import OT OT.Matrix.

Lemma well_formed_nonempty self :
  well_formed self -> (0 < nbx self)%nat /\ (0 < nby self)%nat.
Proof.
  intros [_ [_ [Hn Hm]]]. split.
  - destruct (nbx self); [simpl in Hn; lra | lia].
  - destruct (nby self); [simpl in Hm; lra | lia].
Qed.

(** The marginal residuals of a coupling returned on the tolerance. *)
Lemma converged_marginals self σ tol maxite s :
  well_formed self -> 0 < tol ->
  loop self σ tol maxite = Ok s -> error s <= tol ->
  exists out,
    matrixIPFP self σ tol maxite = Ok out /\
    amax (nbx self)
         (fun x => Rabs (np_sum (nby self) (fun y => μ_x_y out x y) - n_x self x)) < tol /\
    amax (nby self)
         (fun y => Rabs (np_sum (nbx self) (fun x => μ_x_y out x y) - m_y self y)) < tol.
Proof.
  intros Hwf Htol Hl Herr.
  destruct (well_formed_nonempty self Hwf) as [Hx Hy].
  destruct Hwf as [Hn [Hm [Hn1 Hm1]]].
  destruct (loop_invariant self σ tol maxite Hn Hm Hx Hy s Hl) as [_ [->|[p [HB Hb]]]].
  { simpl in Herr. lra. }
  destruct (matrixIPFP_after_pass self σ tol maxite Hy s p Hl Hb) as [out [E [Hmu _]]].
  exists out. split; [exact E|]. rewrite Hmu.
  rewrite (body_spec self σ Hy) in Hb. injection Hb as <-. simpl in Herr.
  split.
  - apply amax_lt; [exact Hx|]. intros x Hxx.
    exact (row_residual_bound self σ tol Hn Hm Hx Hy p x Hn1 Hm1 HB Hxx Htol Herr).
  - apply amax_lt; [exact Hy|]. intros y Hyy.
    rewrite (coupling_column_sums self σ Hn Hx Hy p y HB Hyy).
    rewrite Rminus_diag, Rabs_R0. exact Htol.
Qed.

(** On the one-by-one problem the first pass already measures a zero
    error, so the loop stops after it for every tolerance [>= 0]. *)
Lemma unit_loop tol :
  0 <= tol ->
  exists s, loop Examples.P_unit 1 tol 10 = Ok s /\ error s = 0 /\ ite s = 1%nat.
Proof.
  intros Htol.
  assert (Hy : (0 < nby Examples.P_unit)%nat) by (simpl; lia).
  assert (Hb := body_spec Examples.P_unit 1 Hy (init tol)).
  set (s1 := {| A_x := _ |}) in Hb.
  assert (He : error s1 = 0).
  { unfold s1. simpl. unfold amax, KA_of, A_of, K_x_y. simpl.
    assert (H := exp_pos (0 / 1)).
    replace ((0 + 1 / (0 + exp (0 / 1) * 1) * exp (0 / 1)) * 1 / 1) with 1
      by (field; lra).
    rewrite Rabs_R1. lra. }
  exists s1. split; [|split; [exact He | reflexivity]].
  unfold loop.
  rewrite (while_step _ _ 9 (init tol) s1); [| |exact Hb].
  - apply while_stop. unfold cond, Rgtb. rewrite He.
    destruct (Rgt_dec 0 tol); [lra | reflexivity].
  - unfold cond, Rgtb. simpl.
    destruct (Rgt_dec (tol + 1) tol) as [_|Hn]; [reflexivity | exfalso; apply Hn; lra].
Qed.

Lemma unit_well_formed : well_formed Examples.P_unit.
Proof.
  unfold well_formed. simpl. repeat split; intros; lra.
Qed.

End MatrixConverged.

(** C1, for tolerances above zero.  For a transport problem of the data
    model (positive marginals, each of total mass one), [σ > 0] and
    [tol > 0]: when the loop of [matrixIPFP] ends with its measured error at
    or below [tol], the function returns and the returned coupling has
    [max_x |sum_y μ_xy - n_x| < tol] and [max_y |sum_x μ_xy - m_y| < tol]. *)
Theorem matrixIPFP_converged_marginals :
  forall (self : OT.OTProblem) (σ tol : R) (maxite : nat) (s : OT.Matrix.state),
    OT.well_formed self -> 0 < σ -> 0 < tol ->
    OT.Matrix.loop self σ tol maxite = Ok s ->
    OT.Matrix.error s <= tol ->
    exists out,
      OT.Matrix.matrixIPFP self σ tol maxite = Ok out /\
      amax (OT.nbx self)
           (fun x => Rabs (np_sum (OT.nby self) (fun y => OT.μ_x_y out x y)
                           - OT.n_x self x)) < tol /\
      amax (OT.nby self)
           (fun y => Rabs (np_sum (OT.nbx self) (fun x => OT.μ_x_y out x y)
                           - OT.m_y self y)) < tol.
Proof.
  intros self σ tol maxite s Hwf _ Htol Hl Herr.
  exact (converged_marginals self σ tol maxite s Hwf Htol Hl Herr).
Qed.

(** Witness of C1: the one-by-one problem with [tol = 1/8]. *)
Lemma matrixIPFP_converged_marginals_witness :
  exists s out,
    OT.Matrix.loop Examples.P_unit 1 (1 / 8) 10 = Ok s /\
    OT.Matrix.matrixIPFP Examples.P_unit 1 (1 / 8) 10 = Ok out /\
    amax 1 (fun x => Rabs (np_sum 1 (fun y => OT.μ_x_y out x y) - 1)) < 1 / 8 /\
    amax 1 (fun y => Rabs (np_sum 1 (fun x => OT.μ_x_y out x y) - 1)) < 1 / 8.
Proof.
  destruct (unit_loop (1 / 8)) as [s [Hl [He _]]]; [lra|].
  assert (H1 : 0 < 1) by lra.
  assert (H8 : 0 < 1 / 8) by lra.
  assert (He' : OT.Matrix.error s <= 1 / 8) by (rewrite He; lra).
  destruct (matrixIPFP_converged_marginals Examples.P_unit 1 (1 / 8) 10 s
              unit_well_formed H1 H8 Hl He') as [out H].
  exists s, out. split; [exact Hl | exact H].
Defined.

(** Counterexample to C1 as stated: with [tol = 0] the loop on the
    one-by-one problem ends on the tolerance (measured error [0 <= 0],
    after one pass out of ten), and no residual can be below [0]. *)
Lemma matrixIPFP_converged_marginals_counterexample :
  exists s out,
    OT.Matrix.loop Examples.P_unit 1 0 10 = Ok s /\
    OT.Matrix.error s <= 0 /\
    OT.Matrix.ite s = 1%nat /\
    OT.Matrix.matrixIPFP Examples.P_unit 1 0 10 = Ok out /\
    ~ amax 1 (fun x => Rabs (np_sum 1 (fun y => OT.μ_x_y out x y)
                             - OT.n_x Examples.P_unit x)) < 0.
Proof.
  destruct (unit_loop 0) as [s [Hl [He Hi]]]; [lra|].
  exists s.
  destruct (OT.Matrix.matrixIPFP Examples.P_unit 1 0 10) as [out|e] eqn:E.
  - exists out. split; [exact Hl|]. split; [rewrite He; lra|].
    split; [exact Hi|]. split; [reflexivity|].
    unfold amax. simpl. intros H.
    assert (H' := Rabs_pos (0 + OT.μ_x_y out 0%nat 0%nat - 1)). lra.
  - exfalso. unfold OT.Matrix.matrixIPFP in E. rewrite Hl in E. simpl in E.
    destruct (OT.Matrix.A_x s) eqn:EA; [discriminate|].
    destruct (loop_invariant Examples.P_unit 1 0 10) with (s := s)
      as [_ [->|[p [_ Hb]]]]; simpl; try lia; try (intros; lra); try exact Hl.
    + simpl in Hi. discriminate.
    + rewrite body_spec in Hb by (simpl; lia). injection Hb as <-. discriminate.
Qed.

(** ** Log-domain IPFP with the log-sum-exp trick *)

Section LSEFacts.

Import OT.

Variables (self : OTProblem) (σ : R).

Hypothesis wf : well_formed self.
Hypothesis σ_pos : 0 < σ.





End LSEFacts.



(** ** Matrix IPFP against log-domain IPFP on a three-column problem

    One row of mass 1, columns of masses (2/5, 3/10, 3/10), zero surplus,
    [σ = 1], [tol = 1/8].  After the first pass the ratios
    [K^T A * B / m] are (5/6, 10/9, 10/9).  [matrixIPFP] measures
    [max (|r| - 1) = 1/9 <= tol] and stops; [logdomainIPFP] measures
    [max |r - 1| = 1/6 > tol] and makes a second pass. *)

Section ThreeColumns.

Import OT.

Lemma exp_0_over_1 : exp (0 / 1) = 1.
Proof. replace (0 / 1) with 0 by lra. apply exp_0. Qed.

Lemma three_K x y : Matrix.K_x_y Examples.P_three 1 x y = 1.
Proof. unfold Matrix.K_x_y. simpl. apply exp_0_over_1. Qed.

Lemma three_m_cases y :
  (y < 3)%nat -> m_y Examples.P_three y = 2 / 5 \/ m_y Examples.P_three y = 3 / 10.
Proof. intros _. simpl. destruct (Nat.eqb y 0); auto. Qed.

Lemma three_matrix_loop :
  exists s, Matrix.loop Examples.P_three 1 (1 / 8) 10 = Ok s /\
            Matrix.ite s = 1%nat /\ Matrix.error s = 1 / 9.
Proof.
  assert (Hy : (0 < nby Examples.P_three)%nat) by (simpl; lia).
  assert (Hb := body_spec Examples.P_three 1 Hy (Matrix.init (1 / 8))).
  set (s1 := {| Matrix.A_x := _ |}) in Hb.
  assert (HKA : forall y, Matrix.KA_of Examples.P_three (Matrix.K_x_y Examples.P_three 1)
                            (fun _ => 1) y = 1 / 3).
  { intros y. unfold Matrix.KA_of, Matrix.A_of. simpl. rewrite !three_K. lra. }
  assert (He : Matrix.error s1 = 1 / 9).
  { unfold s1. simpl. unfold amax. simpl. rewrite !HKA.
    replace (1 / 3 * 1 / (2 / 5)) with (5 / 6) by field.
    replace (1 / 3 * 1 / (3 / 10)) with (10 / 9) by field.
    rewrite !Rabs_right by lra.
    rewrite (Rmax_right (5 / 6 - 1) (10 / 9 - 1)) by lra.
    rewrite Rmax_right by lra. lra. }
  exists s1. split; [|split; [reflexivity | exact He]].
  unfold Matrix.loop.
  rewrite (while_step _ _ 9 (Matrix.init (1 / 8)) s1); [| |exact Hb].
  - apply while_stop. unfold Matrix.cond, Rgtb. rewrite He.
    destruct (Rgt_dec (1 / 9) (1 / 8)); [lra | reflexivity].
  - unfold Matrix.cond, Rgtb. simpl.
    destruct (Rgt_dec (1 / 8 + 1) (1 / 8)) as [_|Hn]; [reflexivity | exfalso; apply Hn; lra].
Qed.

Lemma logdomain_body_spec self σ s :
  (0 < nby self)%nat ->
  LogDomain.body self σ s =
  Ok {| LogDomain.u_x :=
          Some (fun x => LogDomain.λ_x self σ x
                  + σ * ln (np_sum (nby self)
                              (fun y => exp ((Φ_x_y self x y - LogDomain.v_y s y) / σ))));
        LogDomain.v_y :=
          fun y => LogDomain.ζ_y self σ y
                   + σ * ln (np_sum (nbx self)
                      (fun x => exp ((Φ_x_y self x y
                         - (LogDomain.λ_x self σ x
                            + σ * ln (np_sum (nby self)
                                (fun y => exp ((Φ_x_y self x y - LogDomain.v_y s y) / σ)))))
                         / σ)));
        LogDomain.error :=
          amax (nby self)
            (fun y => Rabs (np_sum (nbx self)
                      (fun x => exp ((Φ_x_y self x y
                         - (LogDomain.λ_x self σ x
                            + σ * ln (np_sum (nby self)
                                (fun y => exp ((Φ_x_y self x y - LogDomain.v_y s y) / σ)))))
                         / σ))
                   * exp (- LogDomain.v_y s y / σ) / m_y self y - 1));
        LogDomain.ite := S (LogDomain.ite s) |}.
Proof.
  intros Hy. unfold LogDomain.body. rewrite np_max_amax by exact Hy. reflexivity.
Qed.

(** The row potential of the example is [ln 3] whenever the exponentials
    of [-v] add up to 3, and then the column sums are [1/3]. *)
Lemma three_u (v : vec) :
  exp ((0 - v 0%nat) / 1) + exp ((0 - v 1%nat) / 1) + exp ((0 - v 2%nat) / 1) = 3 ->
  forall x,
    LogDomain.λ_x Examples.P_three 1 x
    + 1 * ln (np_sum 3 (fun y => exp ((Φ_x_y Examples.P_three x y - v y) / 1))) = ln 3.
Proof.
  intros Hv x. unfold LogDomain.λ_x, Φ_x_y. simpl. rewrite ln_1.
  replace (0 + exp ((0 - v 0%nat) / 1) + exp ((0 - v 1%nat) / 1) + exp ((0 - v 2%nat) / 1))
    with 3 by lra.
  lra.
Qed.

Lemma exp_minus_ln3 : exp ((0 - ln 3) / 1) = 1 / 3.
Proof.
  replace ((0 - ln 3) / 1) with (- ln 3) by lra.
  rewrite exp_Ropp, exp_ln by lra. lra.
Qed.

Lemma three_logdomain_loop :
  exists s, LogDomain.loop Examples.P_three 1 (1 / 8) 10 = Ok s /\
            LogDomain.ite s = 2%nat.
Proof.
  assert (Hy : (0 < nby Examples.P_three)%nat) by (simpl; lia).
  (* first pass *)
  assert (Hb1 := logdomain_body_spec Examples.P_three 1 (LogDomain.init (1 / 8)) Hy).
  set (s1 := {| LogDomain.u_x := _ |}) in Hb1.
  assert (Hu1 : forall x,
            LogDomain.λ_x Examples.P_three 1 x
            + 1 * ln (np_sum 3 (fun y => exp ((Φ_x_y Examples.P_three x y - 0) / 1)))
            = ln 3).
  { apply (three_u (fun _ => 0)).
    replace ((0 - 0) / 1) with 0 by lra. rewrite exp_0. lra. }
  assert (Hv1 : forall y, (y < 3)%nat ->
            LogDomain.v_y s1 y = - ln (m_y Examples.P_three y) - ln 3).
  { intros y Hy3. unfold s1. cbn [LogDomain.v_y LogDomain.init nbx nby Examples.P_three np_sum].
    rewrite Hu1. unfold Φ_x_y, LogDomain.ζ_y.
    cbn [Φ_a Examples.P_three]. rewrite exp_minus_ln3.
    replace (0 + 1 / 3) with (/ 3) by lra. rewrite ln_Rinv by lra.
    cbn [m_y Examples.P_three]. lra. }
  assert (He1 : LogDomain.error s1 = 1 / 6).
  { unfold s1. cbn [LogDomain.error LogDomain.v_y LogDomain.init nbx nby
                    Examples.P_three np_sum].
    unfold amax. cbn [pred np_max_from]. rewrite !Hu1. unfold Φ_x_y.
    cbn [Φ_a Examples.P_three]. rewrite exp_minus_ln3.
    replace (- 0 / 1) with 0 by lra. rewrite exp_0.
    cbn [m_y Examples.P_three Nat.eqb].
    replace ((0 + 1 / 3) * 1 / (2 / 5) - 1) with (- (1 / 6)) by field.
    replace ((0 + 1 / 3) * 1 / (3 / 10) - 1) with (1 / 9) by field.
    rewrite Rabs_Ropp. rewrite !Rabs_right by lra.
    rewrite (Rmax_left (1 / 6) (1 / 9)) by lra.
    rewrite Rmax_left by lra. reflexivity. }
  (* second pass *)
  assert (Hb2 := logdomain_body_spec Examples.P_three 1 s1 Hy).
  set (s2 := {| LogDomain.u_x := _ |}) in Hb2.
  assert (Hexp : forall y, (y < 3)%nat ->
            exp ((0 - LogDomain.v_y s1 y) / 1) = 3 * m_y Examples.P_three y).
  { intros y Hy3. rewrite (Hv1 y Hy3).
    assert (Hm : 0 < m_y Examples.P_three y)
      by (destruct (three_m_cases y Hy3) as [-> | ->]; lra).
    replace ((0 - (- ln (m_y Examples.P_three y) - ln 3)) / 1)
      with (ln 3 + ln (m_y Examples.P_three y)) by lra.
    rewrite exp_plus, !exp_ln by lra. reflexivity. }
  assert (Hu2 : forall x,
            LogDomain.λ_x Examples.P_three 1 x
            + 1 * ln (np_sum 3 (fun y => exp ((Φ_x_y Examples.P_three x y
                                               - LogDomain.v_y s1 y) / 1)))
            = ln 3).
  { apply (three_u (LogDomain.v_y s1)).
    rewrite !Hexp by lia. simpl. lra. }
  assert (He2 : LogDomain.error s2 = 0).
  { unfold s2. cbn [LogDomain.error nbx nby Examples.P_three np_sum].
    unfold amax. cbn [pred np_max_from]. rewrite !Hu2. unfold Φ_x_y.
    cbn [Φ_a Examples.P_three]. rewrite exp_minus_ln3.
    assert (Hz : forall y, (y < 3)%nat ->
              Rabs ((0 + 1 / 3) * exp (- LogDomain.v_y s1 y / 1)
                    / m_y Examples.P_three y - 1) = 0).
    { intros y Hy3.
      replace (- LogDomain.v_y s1 y / 1) with ((0 - LogDomain.v_y s1 y) / 1) by lra.
      rewrite (Hexp y Hy3).
      assert (Hm : 0 < m_y Examples.P_three y)
        by (destruct (three_m_cases y Hy3) as [-> | ->]; lra).
      replace ((0 + 1 / 3) * (3 * m_y Examples.P_three y) / m_y Examples.P_three y - 1)
        with 0 by (field; lra).
      apply Rabs_R0. }
    rewrite !Hz by lia. rewrite (Rmax_left 0 0) by lra.
    rewrite Rmax_left by lra. reflexivity. }
  exists s2. split; [|reflexivity].
  unfold LogDomain.loop.
  rewrite (while_step _ _ 9 (LogDomain.init (1 / 8)) s1); [| |exact Hb1].
  - rewrite (while_step _ _ 8 s1 s2); [| |exact Hb2].
    + apply while_stop. unfold LogDomain.cond, Rgtb. rewrite He2.
      destruct (Rgt_dec 0 (1 / 8)); [lra | reflexivity].
    + unfold LogDomain.cond, Rgtb. rewrite He1.
      destruct (Rgt_dec (1 / 6) (1 / 8)) as [_|Hn]; [reflexivity | exfalso; apply Hn; lra].
  - unfold LogDomain.cond, Rgtb. simpl.
    destruct (Rgt_dec (1 / 8 + 1) (1 / 8)) as [_|Hn]; [reflexivity | exfalso; apply Hn; lra].
Qed.

End ThreeColumns.

(** C3 fails on the code.  On the three-column problem with [σ = 1],
    [tol = 1/8] and a cap of 10, [matrixIPFP] returns after 1 pass and
    [logdomainIPFP] after 2: the two loops do not exit after the same
    number of iterations.  [matrixIPFP] computes its error as
    [(abs(KA_y * B_y / m_y) - 1).max()], the absolute value taken before
    1 is subtracted, where [logdomainIPFP] takes
    [max(abs(KA_y * exp(-v_y/σ) / m_y - 1))]. *)
Theorem matrix_and_logdomain_iteration_counts_differ :
  exists out_m out_l,
    OT.Matrix.matrixIPFP Examples.P_three 1 (1 / 8) 10 = Ok out_m /\
    OT.LogDomain.logdomainIPFP Examples.P_three 1 (1 / 8) 10 = Ok out_l /\
    OT.ite out_m = 1%nat /\
    OT.ite out_l = 2%nat.
Proof.
  destruct three_matrix_loop as [sm [Hm [Him _]]].
  destruct three_logdomain_loop as [sl [Hl Hil]].
  unfold OT.Matrix.matrixIPFP, OT.LogDomain.logdomainIPFP. rewrite Hm, Hl.
  cbn [bind]. unfold OT.LogDomain.finish.
  destruct (OT.Matrix.A_x sm) as [A|] eqn:EA.
  - destruct (OT.LogDomain.u_x sl) as [u|] eqn:Eu.
    + eexists. eexists. split; [reflexivity|]. split; [reflexivity|].
      simpl. split; assumption.
    + exfalso.
      assert (H := while_ind (OT.LogDomain.cond (1 / 8) 10)
                     (OT.LogDomain.body Examples.P_three 1)
                     (fun s => OT.LogDomain.ite s = O \/ OT.LogDomain.u_x s <> None)
                     10 (OT.LogDomain.init (1 / 8)) sl).
      destruct H as [H|H]; [| left; reflexivity | exact Hl | | ].
      * intros s s' _ _ Hb. rewrite logdomain_body_spec in Hb by (simpl; lia).
        injection Hb as <-. right. discriminate.
      * rewrite Hil in H. discriminate.
      * apply H. exact Eu.
  - exfalso.
    destruct (loop_invariant Examples.P_three 1 (1 / 8) 10) with (s := sm)
      as [_ [->|[p [_ Hb]]]]; simpl; try lia; try exact Hm.
    + intros; lra.
    + intros y _. destruct (Nat.eqb y 0); lra.
    + simpl in Him. discriminate.
    + rewrite body_spec in Hb by (simpl; lia). injection Hb as <-. discriminate.
Qed.

(** ** Index sets *)

Section IndexSets.

Lemma mem_In k l : mem k l = true <-> In k l.
Proof.
  unfold mem. rewrite existsb_exists. split.
  - intros [x [Hin Hx]]. apply Nat.eqb_eq in Hx. subst. exact Hin.
  - intros Hin. exists k. split; [exact Hin | apply Nat.eqb_refl].
Qed.

Lemma mem_false k l : mem k l = false <-> ~ In k l.
Proof.
  rewrite <- mem_In. destruct (mem k l); split; intros H; congruence.
Qed.

Lemma index_of_Some k l b : index_of k l = Some b -> nth_error l b = Some k.
Proof.
  revert b. induction l as [|h t IH]; intros b; simpl; [discriminate|].
  destruct (Nat.eqb_spec h k) as [->|Hne].
  - intros [= <-]. reflexivity.
  - destruct (index_of k t) as [b'|]; simpl; [|discriminate].
    intros [= <-]. simpl. apply IH. reflexivity.
Qed.

Lemma index_of_None k l : index_of k l = None -> ~ In k l.
Proof.
  induction l as [|h t IH]; simpl; [auto|].
  destruct (Nat.eqb_spec h k) as [->|Hne]; [discriminate|].
  destruct (index_of k t); simpl; [discriminate|].
  intros _ [H|H]; [contradiction | apply IH; auto].
Qed.

Lemma index_of_nth k l b :
  NoDup l -> nth_error l b = Some k -> index_of k l = Some b.
Proof.
  revert b. induction l as [|h t IH]; intros b Hnd Hb.
  - destruct b; discriminate.
  - inversion Hnd as [|? ? Hnotin Hnd']; subst. simpl.
    destruct b as [|b]; simpl in Hb.
    + injection Hb as ->. rewrite Nat.eqb_refl. reflexivity.
    + destruct (Nat.eqb_spec h k) as [->|Hne].
      * exfalso. apply Hnotin. apply nth_error_In with b. exact Hb.
      * rewrite (IH b Hnd' Hb). reflexivity.
Qed.

Lemma set_nth_length b k l : length (set_nth b k l) = length l.
Proof.
  revert b. induction l as [|h t IH]; intros [|b]; simpl; auto.
Qed.

Lemma set_nth_In b ke kd l k :
  NoDup l -> nth_error l b = Some kd ->
  (In k (set_nth b ke l) <-> k = ke \/ (In k l /\ k <> kd)).
Proof.
  revert b. induction l as [|h t IH]; intros b Hnd Hb.
  - destruct b; discriminate.
  - inversion Hnd as [|? ? Hnotin Hnd']; subst.
    destruct b as [|b]; simpl in Hb |- *.
    + injection Hb as ->. split.
      * intros [<-|Hin]; [auto|]. right. split; [auto|].
        intros ->. contradiction.
      * intros [->|[[->|Hin] Hne]]; auto. contradiction.
    + rewrite (IH b Hnd' Hb). split.
      * intros [<-|[->|[Hin Hne]]]; auto.
        right. split; [auto|]. intros ->. apply Hnotin.
        apply nth_error_In with b. exact Hb.
      * intros [->|[[<-|Hin] Hne]]; auto.
Qed.

Lemma set_nth_NoDup b ke l :
  NoDup l -> ~ In ke l -> NoDup (set_nth b ke l).
Proof.
  revert b. induction l as [|h t IH]; intros b Hnd Hke; [destruct b; constructor|].
  inversion Hnd as [|? ? Hnotin Hnd']; subst.
  destruct b as [|b]; simpl.
  - constructor; [|exact Hnd']. intros Hin. apply Hke. right. exact Hin.
  - constructor.
    + intros Hin. destruct (nth_error t b) as [kd|] eqn:E.
      * apply (set_nth_In b ke kd t h Hnd' E) in Hin.
        destruct Hin as [->|[Hin _]]; [apply Hke; left; reflexivity | contradiction].
      * assert (Hid : set_nth b ke t = t).
        { clear -E. revert b E. induction t as [|a t IHt]; intros [|b] E; simpl in *;
            try reflexivity; try discriminate. rewrite IHt; auto. }
        rewrite Hid in Hin. contradiction.
    + apply IH; [exact Hnd' | intros Hin; apply Hke; right; exact Hin].
Qed.

Lemma set_nth_nth b ke l b' :
  (b < length l)%nat ->
  nth b' (set_nth b ke l) O = if Nat.eqb b' b then ke else nth b' l O.
Proof.
  revert b b'. induction l as [|h t IH]; intros b b' Hb; simpl in Hb; [lia|].
  destruct b as [|b], b' as [|b']; simpl; try reflexivity.
  apply IH. lia.
Qed.

(** Membership after the swap of labels. *)
Lemma mem_set_nth b ke kd l k :
  NoDup l -> nth_error l b = Some kd -> ~ In ke l ->
  mem k (set_nth b ke l) = LemkeHowson.swap (fun k => mem k l) ke kd k.
Proof.
  intros Hnd Hb Hke. unfold LemkeHowson.swap.
  destruct (Nat.eqb_spec k ke) as [->|Hne].
  - apply mem_In. apply (set_nth_In b ke kd l ke Hnd Hb). auto.
  - destruct (Nat.eqb_spec k kd) as [->|Hnd'].
    + apply mem_false. intros Hin.
      apply (set_nth_In b ke kd l kd Hnd Hb) in Hin.
      destruct Hin as [->|[_ H]]; congruence.
    + destruct (mem k l) eqn:E.
      * apply mem_In. apply (set_nth_In b ke kd l k Hnd Hb).
        right. split; [apply mem_In; exact E | exact Hnd'].
      * apply mem_false. intros Hin.
        apply (set_nth_In b ke kd l k Hnd Hb) in Hin.
        destruct Hin as [->|[Hin _]]; [congruence|].
        apply mem_In in Hin. congruence.
Qed.

Lemma getitem_complements n k :
  (k < 2 * n)%nat -> getitem (Bimatrix_game.complements n) k = Ok (LemkeHowson.comp n k).
Proof.
  intros Hk. unfold getitem, Bimatrix_game.complements, LemkeHowson.comp.
  destruct (Nat.ltb_spec k n) as [Hlt|Hge].
  - rewrite nth_error_app1 by (rewrite length_map, length_seq; exact Hlt).
    rewrite nth_error_map, nth_error_seq.
    destruct (Nat.ltb_spec k n); [reflexivity | lia].
  - rewrite nth_error_app2 by (rewrite length_map, length_seq; exact Hge).
    rewrite length_map, length_seq, nth_error_seq.
    destruct (Nat.ltb_spec (k - n) n); [reflexivity | lia].
Qed.

Lemma getitem_complements_Ok n k v :
  getitem (Bimatrix_game.complements n) k = Ok v -> (k < 2 * n)%nat.
Proof.
  unfold getitem. destruct (nth_error _ k) eqn:E; [|discriminate]. intros _.
  assert (H : nth_error (Bimatrix_game.complements n) k <> None) by congruence.
  apply nth_error_Some in H. unfold Bimatrix_game.complements in H.
  rewrite length_app, length_map, !length_seq in H. lia.
Qed.

End IndexSets.

(** ** The complementarity structure of the pivot loop *)

Section Complementarity.

Import LemkeHowson.

Variable n : nat.

Lemma comp_lt k : (k < 2 * n)%nat -> (comp n k < 2 * n)%nat.
Proof. unfold comp. destruct (Nat.ltb_spec k n); lia. Qed.

Lemma pair_of_lt k : (k < 2 * n)%nat -> (pair_of n k < n)%nat.
Proof. unfold pair_of. destruct (Nat.ltb_spec k n); lia. Qed.

(** A variable and its complement are the two members of its pair. *)
Lemma pair_members k :
  (k < 2 * n)%nat ->
  (k = pair_of n k /\ comp n k = (n + pair_of n k)%nat) \/
  (k = (n + pair_of n k)%nat /\ comp n k = pair_of n k).
Proof. unfold pair_of, comp. destruct (Nat.ltb_spec k n); lia. Qed.

(** Decide the comparisons of indices, then the memberships. *)
Ltac index_cases :=
  unfold swap;
  repeat match goal with
         | |- context [Nat.eqb ?a ?b] => destruct (Nat.eqb_spec a b); try lia
         end.

Ltac bool_case inb x :=
  lazymatch goal with
  | _ : inb x = true |- _ => fail
  | _ : inb x = false |- _ => fail
  | _ => destruct (inb x) eqn:?
  end.

Ltac bool_cases inb :=
  repeat match goal with
         | H : context [inb ?x] |- _ => bool_case inb x
         | |- context [inb ?x] => bool_case inb x
         end;
  try congruence; try lia.

(** The pivot takes a head state to a test state. *)
Lemma swap_after_pivot inb e d :
  at_head n inb e -> (d < 2 * n)%nat -> inb d = true ->
  after_pivot n (swap inb e d) e d.
Proof.
  intros [He [Hine Hcase]] Hd Hind.
  assert (Hde : d <> e) by (intros ->; congruence).
  assert (Hpe := pair_of_lt e He). assert (Hpd := pair_of_lt d Hd).
  assert (Hme := pair_members e He). assert (Hmd := pair_members d Hd).
  unfold after_pivot.
  split; [exact He|]. split; [exact Hd|].
  split; [unfold swap; rewrite Nat.eqb_refl; reflexivity|].
  split.
  { unfold swap. destruct (Nat.eqb_spec d e); [contradiction|].
    rewrite Nat.eqb_refl. reflexivity. }
  unfold almost_complementary in *.
  remember (pair_of n e) as pe eqn:Epe. remember (pair_of n d) as pd eqn:Epd.
  clear Epe Epd.
  destruct Hcase as [Hc|[dbl [_ [Hdbl [Hmd' [Hm1 [Hm2 [Hd1 [Hd2 Hrest]]]]]]]]].
  - (* from a complementary basis *)
    assert (Hxe := Hc pe Hpe). assert (Hxd := Hc pd Hpd).
    destruct (Nat.eq_dec pd pe) as [Hsame|Hdiff].
    + left. intros k Hk. assert (Hxk := Hc k Hk).
      destruct Hme as [[He1 _]|[He1 _]], Hmd as [[Hd1 _]|[Hd1 _]];
        subst e d; index_cases; subst; bool_cases inb.
    + right. exists pe.
      split; [exact Hpd|]. split; [exact Hpe|]. split; [exact Hdiff|].
      destruct Hme as [[He1 _]|[He1 _]], Hmd as [[Hd1 _]|[Hd1 _]]; subst e d;
        (repeat split;
         [ index_cases; bool_cases inb
         | index_cases; bool_cases inb
         | index_cases; bool_cases inb
         | index_cases; bool_cases inb
         | intros k Hk Hk1 Hk2; assert (Hxk := Hc k Hk);
           index_cases; bool_cases inb ]).
  - (* from an almost complementary basis *)
    assert (Hpde : pd <> pe).
    { intros ->. destruct Hmd as [[H1 _]|[H1 _]]; subst d; congruence. }
    destruct (Nat.eq_dec pd dbl) as [Hsame|Hdiff].
    + left. intros k Hk.
      destruct (Nat.eq_dec k pe) as [->|Hk1];
        [|destruct (Nat.eq_dec k dbl) as [->|Hk2];
          [|assert (Hxk := Hrest k Hk Hk1 Hk2)]];
        destruct Hme as [[He1 _]|[He1 _]], Hmd as [[Hd1' _]|[Hd1' _]];
        subst e d; index_cases; subst; bool_cases inb.
    + right. exists dbl.
      assert (Hxd := Hrest pd Hpd Hpde Hdiff).
      split; [exact Hpd|]. split; [exact Hdbl|]. split; [exact Hdiff|].
      destruct Hme as [[He1 _]|[He1 _]], Hmd as [[Hd1' _]|[Hd1' _]]; subst e d;
        (repeat split;
         [ index_cases; bool_cases inb
         | index_cases; bool_cases inb
         | index_cases; bool_cases inb
         | index_cases; bool_cases inb
         | intros k Hk Hk1 Hk2;
           destruct (Nat.eq_dec k pe) as [->|Hk3];
           [|assert (Hxk := Hrest k Hk Hk3 Hk2)];
           index_cases; subst; bool_cases inb ]).
Qed.

(** In a test state the exit test holds exactly when the basis is
    complementary. *)
Lemma exit_test_iff inb e d :
  after_pivot n inb e d ->
  (negb (inb (comp n e)) && inb (comp n d) = true <-> complementary n inb).
Proof.
  intros [He [Hd [Hine [Hind Hcase]]]].
  assert (Hpe := pair_of_lt e He). assert (Hpd := pair_of_lt d Hd).
  assert (Hme := pair_members e He). assert (Hmd := pair_members d Hd).
  unfold almost_complementary in *.
  remember (pair_of n e) as pe eqn:Epe. remember (pair_of n d) as pd eqn:Epd.
  clear Epe Epd.
  destruct Hcase as [Hc|[dbl [_ [Hdbl [Hmd' [Hm1 [Hm2 [Hd1 [Hd2 Hrest]]]]]]]]].
  - split; [intros _; exact Hc|]. intros _.
    assert (Hxe := Hc pe Hpe). assert (Hxd := Hc pd Hpd).
    destruct Hme as [[He1 ->]|[He1 ->]], Hmd as [[Hd1 ->]|[Hd1 ->]]; subst e d;
      bool_cases inb.
  - split.
    + intros Ht. exfalso.
      destruct Hmd as [[Hd1' Hcd]|[Hd1' Hcd]]; rewrite Hcd in Ht;
        [rewrite Hm2 in Ht | rewrite Hm1 in Ht];
        rewrite andb_false_r in Ht; discriminate.
    + intros Hc. exfalso. apply (Hc pd Hpd). congruence.
Qed.

(** The next entering variable, the complement of the one that departed
    from a basis that is not complementary, starts a head state. *)
Lemma next_head inb e d :
  after_pivot n inb e d -> ~ complementary n inb -> at_head n inb (comp n d).
Proof.
  intros [He [Hd [Hine [Hind Hcase]]]] Hnc.
  destruct Hcase as [Hc|[dbl Hac]]; [contradiction|].
  assert (Hmd := pair_members d Hd).
  assert (Hpp : pair_of n (comp n d) = pair_of n d).
  { unfold pair_of, comp. destruct (Nat.ltb_spec d n).
    - destruct (Nat.ltb_spec (n + d) n); lia.
    - destruct (Nat.ltb_spec (d - n) n); lia. }
  split; [apply comp_lt; exact Hd|]. split.
  - destruct Hac as [_ [_ [_ [Hm1 [Hm2 _]]]]].
    destruct Hmd as [[_ ->]|[_ ->]]; assumption.
  - right. exists dbl. rewrite Hpp. exact Hac.
Qed.

(** The starting basis of all slacks, with the first decision variable
    entering. *)
Lemma start_head : (0 < n)%nat -> at_head n (fun k => mem k (seq 0 n)) n.
Proof.
  intros Hn. split; [lia|]. split.
  - apply mem_false. rewrite in_seq. lia.
  - left. intros k Hk.
    assert (H1 : mem k (seq 0 n) = true) by (apply mem_In; apply in_seq; lia).
    assert (H2 : mem (n + k) (seq 0 n) = false)
      by (apply mem_false; rewrite in_seq; lia).
    congruence.
Qed.

End Complementarity.

(** ** The tableau through a pivot *)

Section TableauPivot.

Import LemkeHowson.

Lemma complementary_ext n inb inb' :
  (forall k, inb k = inb' k) -> complementary n inb -> complementary n inb'.
Proof. intros E H k Hk. rewrite <- !E. apply H. exact Hk. Qed.

Lemma almost_complementary_ext n inb inb' miss dbl :
  (forall k, inb k = inb' k) ->
  almost_complementary n inb miss dbl -> almost_complementary n inb' miss dbl.
Proof.
  intros E [H1 [H2 [H3 [H4 [H5 [H6 [H7 H8]]]]]]].
  unfold almost_complementary. rewrite <- !E.
  repeat split; try assumption.
  intros k Hk Hk1 Hk2. rewrite <- !E. apply H8; assumption.
Qed.

Lemma after_pivot_ext n inb inb' e d :
  (forall k, inb k = inb' k) -> after_pivot n inb e d -> after_pivot n inb' e d.
Proof.
  intros E [H1 [H2 [H3 [H4 H5]]]]. unfold after_pivot. rewrite <- !E.
  repeat split; try assumption.
  destruct H5 as [Hc|[dbl Hac]].
  - left. exact (complementary_ext n inb inb' E Hc).
  - right. exists dbl. exact (almost_complementary_ext n inb inb' _ _ E Hac).
Qed.

Lemma create_spec A d m n tab :
  Tableau.create A d m n = Ok tab ->
  Tableau.nbi tab = m /\ Tableau.nbj tab = n /\
  Tableau.A_i_j tab = A /\ Tableau.d_i tab = d /\
  Tableau.k_b tab = seq 0 m /\
  Pivoter.nbb (Tableau.pivoter tab) = m /\
  Pivoter.B_i_b (Tableau.pivoter tab) = identity /\
  (forall i, (i < m)%nat -> Pivoter.x_b (Tableau.pivoter tab) i = d i).
Proof.
  unfold Tableau.create. intros H.
  destruct (linalg_solve m identity d) as [x|] eqn:Ex; simpl in H; [|discriminate].
  injection H as <-. simpl. repeat split.
  intros i Hi. destruct (linalg_solve_Ok _ _ _ _ Ex) as [_ Hx].
  specialize (Hx i Hi). unfold matvec in Hx.
  rewrite np_sum_identity_l in Hx by exact Hi. exact Hx.
Qed.

Lemma create_well_labelled A d n tab :
  Tableau.create A d n n = Ok tab -> well_labelled tab.
Proof.
  intros H. destruct (create_spec A d n n tab H)
    as [Hm [Hn [HA [Hd [Hk [Hb [HB Hx]]]]]]].
  unfold well_labelled. rewrite Hm, Hn, Hk, Hb, HB.
  split; [reflexivity|]. split; [reflexivity|].
  split; [apply length_seq|]. split; [apply seq_NoDup|].
  split; [intros k Hin; apply in_seq in Hin; lia|].
  intros i b Hlt. rewrite seq_nth by exact Hlt. simpl.
  unfold Tableau.column. rewrite Hm.
  destruct (Nat.ltb_spec b n); [reflexivity | lia].
Qed.

Lemma create_feasible A d n tab :
  (forall i, (i < n)%nat -> 0 <= d i) ->
  Tableau.create A d n n = Ok tab -> feasible tab.
Proof.
  intros Hd0 H. destruct (create_spec A d n n tab H)
    as [Hm [Hn [HA [Hd [Hk [Hb [HB Hx]]]]]]].
  unfold feasible. rewrite Hm, HB, Hd. split.
  - intros i Hi. unfold matvec. rewrite np_sum_identity_l by exact Hi.
    apply Hx. exact Hi.
  - intros b Hb'. rewrite Hx by exact Hb'. apply Hd0. exact Hb'.
Qed.

(** What a pass of the pivot loop does to the tableau. *)
Lemma pivot_spec cs tab kent tab' kdep stop :
  well_labelled tab ->
  ~ In kent (Tableau.k_b tab) -> (kent < 2 * Tableau.nbi tab)%nat ->
  Bimatrix_game.pivot cs tab kent = Ok (tab', kdep, stop) ->
  exists bdep z eps,
    (bdep < Tableau.nbi tab)%nat /\
    nth_error (Tableau.k_b tab) bdep = Some kdep /\
    solves (Tableau.nbi tab) (Pivoter.B_i_b (Tableau.pivoter tab))
           (Tableau.column tab kent) z /\
    dict_min (ratios (Tableau.nbi tab) (Pivoter.x_b (Tableau.pivoter tab)) z)
      = Ok (bdep, eps) /\
    Tableau.k_b tab' = set_nth bdep kent (Tableau.k_b tab) /\
    Pivoter.x_b (Tableau.pivoter tab') =
      (fun b => if Nat.eqb b bdep then eps
                else Pivoter.x_b (Tableau.pivoter tab) b - eps * z b) /\
    Pivoter.B_i_b (Tableau.pivoter tab') =
      (fun i b => if Nat.eqb b bdep then Tableau.column tab kent i
                  else Pivoter.B_i_b (Tableau.pivoter tab) i b) /\
    Pivoter.nbb (Tableau.pivoter tab') = Tableau.nbi tab /\
    Tableau.nbj tab' = Tableau.nbj tab /\
    same_system tab tab' /\
    Bimatrix_game.exit_test cs tab' kent kdep = Ok stop.
Proof.
  intros [Hnj [Hnb [Hlen [Hnd [Hlt HB]]]]] Hkent Hk2n Hp.
  unfold Bimatrix_game.pivot in Hp.
  destruct (Tableau.determine_departing tab kent) as [kd|] eqn:Edep;
    cbn [bind] in Hp; [|discriminate].
  destruct (Tableau.update tab kent kd) as [t'|] eqn:Eup; cbn [bind] in Hp; [|discriminate].
  destruct (Bimatrix_game.exit_test cs t' kent kd) as [st|] eqn:Eex;
    cbn [bind] in Hp; [|discriminate].
  injection Hp as <- <- <-.
  unfold Tableau.determine_departing in Edep.
  destruct (linalg_solve _ _ (Tableau.column tab kent)) as [z|] eqn:Ez;
    cbn [bind] in Edep; [|discriminate].
  destruct (linalg_solve_Ok _ _ _ _ Ez) as [_ Hz].
  rewrite thedic_ratios, Hnb in Edep.
  destruct (ratios (Tableau.nbi tab) (Pivoter.x_b (Tableau.pivoter tab)) z)
    as [|kv d] eqn:Er; [discriminate|].
  assert (Em : dict_min (ratios (Tableau.nbi tab) (Pivoter.x_b (Tableau.pivoter tab)) z)
               = Ok (fst (min_from kv d), snd (min_from kv d))).
  { rewrite Er. simpl. destruct (min_from kv d); reflexivity. }
  set (bdep := fst (min_from kv d)) in *. set (eps := snd (min_from kv d)) in *.
  destruct (ratio_test _ _ _ _ _ Em) as [Hb [Hzb [Heps _]]].
  unfold getitem in Edep.
  destruct (nth_error (Tableau.k_b tab) bdep) as [k|] eqn:En; [|discriminate].
  injection Edep as ->.
  unfold Tableau.update in Eup.
  rewrite (index_of_nth kd (Tableau.k_b tab) bdep Hnd En) in Eup.
  rewrite Ez in Eup. cbn [bind] in Eup.
  unfold Pivoter.update in Eup. rewrite Hnb, Ez in Eup. cbn [bind] in Eup.
  destruct (Nat.ltb_spec bdep (Tableau.nbi tab)) as [_|Hge]; [|lia].
  cbn [bind] in Eup. injection Eup as <-.
  exists bdep, z, eps. cbn.
  rewrite <- Heps.
  split; [exact Hb|]. split; [exact En|]. split; [exact Hz|].
  split; [exact Em|]. split; [reflexivity|]. split; [reflexivity|].
  split; [reflexivity|]. split; [reflexivity|]. split; [reflexivity|].
  split; [unfold same_system; cbn; auto | exact Eex].
Qed.

Lemma pivot_well_labelled cs tab kent tab' kdep stop :
  well_labelled tab ->
  ~ In kent (Tableau.k_b tab) -> (kent < 2 * Tableau.nbi tab)%nat ->
  Bimatrix_game.pivot cs tab kent = Ok (tab', kdep, stop) ->
  well_labelled tab' /\ In kdep (Tableau.k_b tab) /\
  forall k, mem k (Tableau.k_b tab') = swap (fun k => mem k (Tableau.k_b tab)) kent kdep k.
Proof.
  intros Hwl Hkent Hk2n Hp.
  destruct (pivot_spec cs tab kent tab' kdep stop Hwl Hkent Hk2n Hp)
    as [bdep [z [eps [Hb [Hnth [_ [_ [Hkb [_ [HB' [Hnb' [Hnj' [[Hs1 [Hs2 Hs3]] _]]]]]]]]]]]]].
  destruct Hwl as [Hnj [Hnb [Hlen [Hnd [Hlt HB]]]]].
  split; [|split].
  - unfold well_labelled. rewrite Hs1, Hnj', Hnb', Hkb, HB'.
    split; [exact Hnj|]. split; [reflexivity|].
    split; [rewrite set_nth_length; exact Hlen|].
    split; [apply set_nth_NoDup; assumption|].
    split.
    + intros k Hin. apply (set_nth_In bdep kent kdep _ k Hnd Hnth) in Hin.
      destruct Hin as [->|[Hin _]]; [exact Hk2n | apply Hlt; exact Hin].
    + intros i b Hbn. rewrite set_nth_nth by (rewrite Hlen; exact Hb).
      unfold Tableau.column. rewrite Hs1, Hs2.
      destruct (Nat.eqb b bdep); [reflexivity|].
      rewrite (HB i b Hbn). reflexivity.
  - apply nth_error_In with bdep. exact Hnth.
  - intros k. rewrite Hkb. apply mem_set_nth; assumption.
Qed.

Lemma pivot_feasible cs tab kent tab' kdep stop :
  well_labelled tab -> feasible tab ->
  ~ In kent (Tableau.k_b tab) -> (kent < 2 * Tableau.nbi tab)%nat ->
  Bimatrix_game.pivot cs tab kent = Ok (tab', kdep, stop) ->
  feasible tab'.
Proof.
  intros Hwl [HBx Hx] Hkent Hk2n Hp.
  destruct (pivot_spec cs tab kent tab' kdep stop Hwl Hkent Hk2n Hp)
    as [bdep [z [eps [Hb [Hnth [Hz [Em [Hkb [Hx' [HB' [Hnb' [Hnj' [[Hs1 [Hs2 Hs3]] _]]]]]]]]]]]]].
  destruct (ratio_test _ _ _ _ _ Em) as [_ [Hzb [Heps Hmin]]].
  unfold feasible. rewrite Hs1, Hx', HB', Hs3. split.
  - intros i Hi.
    exact (pivot_keeps_system _ _ _ _ _ z bdep eps HBx Hz Hb Hzb Heps i Hi).
  - intros b Hbn.
    exact (pivot_keeps_nonneg _ _ z bdep eps Hx Hb Hzb Heps Hmin b Hbn).
Qed.

Lemma exit_test_eval n tab kent kdep :
  (kent < 2 * n)%nat -> (kdep < 2 * n)%nat ->
  Bimatrix_game.exit_test (Bimatrix_game.complements n) tab kent kdep =
  Ok (negb (mem (comp n kent) (Tableau.k_b tab)) && mem (comp n kdep) (Tableau.k_b tab)).
Proof.
  intros He Hd. unfold Bimatrix_game.exit_test.
  rewrite getitem_complements by exact He. cbn [bind].
  destruct (mem (comp n kent) (Tableau.k_b tab)); simpl; [reflexivity|].
  rewrite getitem_complements by exact Hd. reflexivity.
Qed.

(** A pass from a head state ends in a test state. *)
Lemma pivot_after_pivot cs tab kent tab' kdep stop :
  well_labelled tab ->
  at_head (Tableau.nbi tab) (fun k => mem k (Tableau.k_b tab)) kent ->
  Bimatrix_game.pivot cs tab kent = Ok (tab', kdep, stop) ->
  well_labelled tab' /\ Tableau.nbi tab' = Tableau.nbi tab /\
  after_pivot (Tableau.nbi tab') (fun k => mem k (Tableau.k_b tab')) kent kdep.
Proof.
  intros Hwl Hh Hp.
  assert (Hkent : ~ In kent (Tableau.k_b tab)).
  { apply mem_false. destruct Hh as [_ [H _]]. exact H. }
  assert (Hk2n : (kent < 2 * Tableau.nbi tab)%nat) by (destruct Hh as [H _]; exact H).
  destruct (pivot_well_labelled cs tab kent tab' kdep stop Hwl Hkent Hk2n Hp)
    as [Hwl' [Hin Hmem]].
  destruct (pivot_spec cs tab kent tab' kdep stop Hwl Hkent Hk2n Hp)
    as [_ [_ [_ [_ [_ [_ [_ [_ [_ [_ [_ [_ [[Hs1 _] _]]]]]]]]]]]]].
  split; [exact Hwl'|]. split; [exact Hs1|]. rewrite Hs1.
  apply (after_pivot_ext _ (swap (fun k => mem k (Tableau.k_b tab)) kent kdep)).
  - intros k. symmetry. apply Hmem.
  - apply swap_after_pivot; [exact Hh | | apply mem_In; exact Hin].
    destruct Hwl as [_ [_ [_ [_ [Hlt _]]]]]. apply Hlt. exact Hin.
Qed.

End TableauPivot.

(** ** The exit test of the pivot loop *)

Section ExitTest.

Import LemkeHowson.

Lemma pivot_nonempty cs tab kent r :
  well_labelled tab -> Bimatrix_game.pivot cs tab kent = Ok r -> (0 < Tableau.nbi tab)%nat.
Proof.
  intros [_ [Hnb _]] Hp. destruct (Tableau.nbi tab) as [|n] eqn:En; [|lia].
  exfalso. unfold Bimatrix_game.pivot, Tableau.determine_departing in Hp.
  rewrite En in Hp.
  destruct (linalg_solve 0 _ _) as [z|]; cbn [bind] in Hp; [|discriminate].
  rewrite thedic_ratios, Hnb in Hp. simpl in Hp. discriminate.
Qed.

(** Every state in which the exit test is evaluated is a test state. *)
Lemma at_test_invariant cs tab kent kdep :
  Bimatrix_game.at_test cs tab kent kdep ->
  well_labelled tab /\ cs = Bimatrix_game.complements (Tableau.nbi tab) /\
  after_pivot (Tableau.nbi tab) (fun k => mem k (Tableau.k_b tab)) kent kdep.
Proof.
  intros H. induction H as [tab0 n tab kdep stop A Hc Hcs Hp
                           |tab0 kent0 kdep0 kent tab kdep stop Ht IH Hex Hg Hp].
  - assert (Hwl := create_well_labelled A _ n tab0 Hc).
    destruct (create_spec A _ n n tab0 Hc) as [Hm [_ [_ [_ [Hk _]]]]].
    assert (Hn := pivot_nonempty cs tab0 n _ Hwl Hp). rewrite Hm in Hn.
    assert (Hh : at_head (Tableau.nbi tab0) (fun k => mem k (Tableau.k_b tab0)) n).
    { rewrite Hm, Hk. apply start_head. exact Hn. }
    destruct (pivot_after_pivot cs tab0 n tab kdep stop Hwl Hh Hp) as [Hwl' [Hs Ha]].
    split; [exact Hwl'|]. split; [rewrite Hs, Hm; exact Hcs | exact Ha].
  - destruct IH as [Hwl [Hcs Ha]].
    assert (Ha' := Ha). destruct Ha' as [He [Hd _]].
    rewrite Hcs in Hex, Hg.
    rewrite exit_test_eval in Hex by assumption.
    rewrite getitem_complements in Hg by exact Hd. injection Hg as <-.
    assert (Hnc : ~ complementary (Tableau.nbi tab0) (fun k => mem k (Tableau.k_b tab0))).
    { intros Hcomp. apply (exit_test_iff _ _ kent0 kdep0 Ha) in Hcomp.
      cbv beta in Hcomp. congruence. }
    assert (Hh := next_head _ _ kent0 kdep0 Ha Hnc).
    destruct (pivot_after_pivot cs tab0 _ tab kdep stop Hwl Hh Hp) as [Hwl' [Hs Ha2]].
    split; [exact Hwl'|]. split; [rewrite Hs; exact Hcs | exact Ha2].
Qed.

Lemma at_test_exit_test cs tab kent kdep :
  Bimatrix_game.at_test cs tab kent kdep ->
  exists b, Bimatrix_game.exit_test cs tab kent kdep = Ok b /\
            (b = true <->
             Bimatrix_game.fully_complementary (Tableau.nbi tab) (Tableau.k_b tab)).
Proof.
  intros H. destruct (at_test_invariant cs tab kent kdep H) as [_ [-> Ha]].
  assert (Ha' := Ha). destruct Ha' as [He [Hd _]].
  rewrite exit_test_eval by assumption.
  eexists. split; [reflexivity|].
  exact (exit_test_iff _ _ kent kdep Ha).
Qed.

End ExitTest.

(** C6.  In every state in which the Lemke-Howson loop, started from the
    all-slack basis, evaluates its exit test, the test returns, and it
    holds exactly when the basis has one variable of every complementary
    pair. *)
Theorem exit_test_iff_fully_complementary :
  forall (cs : list nat) (tab : Tableau.t) (kent kdep : nat),
    Bimatrix_game.at_test cs tab kent kdep ->
    exists b,
      Bimatrix_game.exit_test cs tab kent kdep = Ok b /\
      (b = true <->
       Bimatrix_game.fully_complementary (Tableau.nbi tab) (Tableau.k_b tab)).
Proof. exact at_test_exit_test. Qed.

(** ** The Lemke-Howson run on the one-by-one game *)

Section OneByOne.

Import LemkeHowson.

(** A pass of the loop returns as soon as the basis matrix is invertible
    and the resolved direction has a positive entry. *)
Lemma pivot_progress tab kent Minv z0 b0 :
  well_labelled tab ->
  (kent < 2 * Tableau.nbi tab)%nat ->
  is_inverse (Tableau.nbi tab) (Pivoter.B_i_b (Tableau.pivoter tab)) Minv ->
  solves (Tableau.nbi tab) (Pivoter.B_i_b (Tableau.pivoter tab))
         (Tableau.column tab kent) z0 ->
  (b0 < Tableau.nbi tab)%nat -> 0 < z0 b0 ->
  exists tab' kdep stop,
    Bimatrix_game.pivot (Bimatrix_game.complements (Tableau.nbi tab)) tab kent
      = Ok (tab', kdep, stop).
Proof.
  intros [Hnj [Hnb [Hlen [Hnd [Hlt HB]]]]] Hk2n Hinv Hz0 Hb0 Hpos.
  destruct (linalg_solve_eval _ _ _ _ _ Hinv Hz0) as [z [Ez Hz]].
  unfold Bimatrix_game.pivot, Tableau.determine_departing.
  rewrite Ez. cbn [bind]. rewrite thedic_ratios, Hnb.
  destruct (ratios (Tableau.nbi tab) (Pivoter.x_b (Tableau.pivoter tab)) z)
    as [|kv d] eqn:Er.
  { exfalso. apply ratios_empty with (b := b0) in Er; [|exact Hb0].
    rewrite (Hz b0 Hb0) in Er. lra. }
  assert (Em : dict_min (ratios (Tableau.nbi tab) (Pivoter.x_b (Tableau.pivoter tab)) z)
               = Ok (fst (min_from kv d), snd (min_from kv d))).
  { rewrite Er. simpl. destruct (min_from kv d); reflexivity. }
  destruct (ratio_test _ _ _ _ _ Em) as [Hb _].
  unfold getitem.
  destruct (nth_error (Tableau.k_b tab) (fst (min_from kv d))) as [kd|] eqn:En.
  2:{ exfalso. apply nth_error_None in En. lia. }
  cbn [bind]. unfold Tableau.update.
  rewrite (index_of_nth kd _ _ Hnd En), Ez. cbn [bind].
  unfold Pivoter.update. rewrite Hnb, Ez. cbn [bind].
  destruct (Nat.ltb_spec (fst (min_from kv d)) (Tableau.nbi tab)) as [_|Hge]; [|lia].
  cbn [bind].
  rewrite exit_test_eval; [|exact Hk2n|].
  - cbn [bind]. eauto.
  - apply Hlt. apply nth_error_In with (fst (min_from kv d)). exact En.
Qed.

(** The ratio dictionary of a two-row tableau with one positive entry. *)
Lemma ratios_second x z :
  z 0%nat <= 0 -> 0 < z 1%nat -> ratios 2 x z = [(1%nat, x 1%nat / z 1%nat)].
Proof.
  intros H0 H1. unfold ratios. simpl.
  destruct (Rlt_dec 0 (z 0%nat)); [lra|]. destruct (Rlt_dec 0 (z 1%nat)); [|lra].
  reflexivity.
Qed.

Lemma ratios_first x z :
  0 < z 0%nat -> z 1%nat <= 0 -> ratios 2 x z = [(0%nat, x 0%nat / z 0%nat)].
Proof.
  intros H0 H1. unfold ratios. simpl.
  destruct (Rlt_dec 0 (z 0%nat)); [|lra]. destruct (Rlt_dec 0 (z 1%nat)); [lra|].
  reflexivity.
Qed.

Ltac two_index i Hi :=
  destruct i as [|[|i]]; [| |exfalso; lia].

(** A two-by-two matrix that agrees with the identity is its own
    inverse. *)
Lemma identity_like_inverse (M : mat) :
  M 0%nat 0%nat = 1 -> M 0%nat 1%nat = 0 -> M 1%nat 0%nat = 0 -> M 1%nat 1%nat = 1 ->
  is_inverse 2 M identity.
Proof.
  intros H00 H01 H10 H11 i j Hi Hj.
  two_index i Hi; two_index j Hj; split; unfold identity; simpl;
    rewrite ?H00, ?H01, ?H10, ?H11; lra.
Qed.

Lemma identity_like_solves (M : mat) (a : vec) :
  M 0%nat 0%nat = 1 -> M 0%nat 1%nat = 0 -> M 1%nat 0%nat = 0 -> M 1%nat 1%nat = 1 ->
  solves 2 M a a.
Proof.
  intros H00 H01 H10 H11 i Hi. unfold matvec.
  two_index i Hi; simpl; rewrite ?H00, ?H01, ?H10, ?H11; lra.
Qed.

(** The states of the run: the start, after [x_1] enters and [s_1]
    departs, and after [y_1] enters and [r_1] departs. *)
Lemma one_start :
  exists tab0,
    Tableau.create Examples.C_one (fun _ => 1) 2 2 = Ok tab0 /\
    well_labelled tab0 /\ Tableau.nbi tab0 = 2%nat /\
    Tableau.A_i_j tab0 = Examples.C_one /\
    Tableau.k_b tab0 = [0; 1]%nat /\
    Pivoter.B_i_b (Tableau.pivoter tab0) = identity /\
    Pivoter.x_b (Tableau.pivoter tab0) 0%nat = 1 /\
    Pivoter.x_b (Tableau.pivoter tab0) 1%nat = 1.
Proof.
  destruct (linalg_solve_invertible 2 identity (fun _ => 1)) as [x [Ex _]].
  { exists identity. apply identity_is_inverse. }
  assert (Hc : Tableau.create Examples.C_one (fun _ => 1) 2 2
               = Ok {| Tableau.nbi := 2; Tableau.nbj := 2;
                       Tableau.A_i_j := Examples.C_one; Tableau.d_i := fun _ => 1;
                       Tableau.k_b := seq 0 2;
                       Tableau.pivoter := {| Pivoter.nbb := 2;
                                             Pivoter.B_i_b := identity;
                                             Pivoter.x_b := x |} |}).
  { unfold Tableau.create. rewrite Ex. reflexivity. }
  eexists. split; [exact Hc|].
  destruct (create_spec _ _ _ _ _ Hc) as [_ [_ [_ [_ [_ [_ [_ Hx]]]]]]].
  split; [exact (create_well_labelled _ _ _ _ Hc)|]. cbn.
  repeat split; apply Hx; lia.
Qed.

Lemma one_first_pivot tab0 :
  well_labelled tab0 -> Tableau.nbi tab0 = 2%nat ->
  Tableau.A_i_j tab0 = Examples.C_one ->
  Tableau.k_b tab0 = [0; 1]%nat ->
  Pivoter.B_i_b (Tableau.pivoter tab0) = identity ->
  Pivoter.x_b (Tableau.pivoter tab0) 0%nat = 1 ->
  Pivoter.x_b (Tableau.pivoter tab0) 1%nat = 1 ->
  exists tab1,
    Bimatrix_game.pivot (Bimatrix_game.complements 2) tab0 2 = Ok (tab1, 1%nat, false) /\
    well_labelled tab1 /\ Tableau.nbi tab1 = 2%nat /\
    Tableau.A_i_j tab1 = Examples.C_one /\
    Tableau.k_b tab1 = [0; 2]%nat /\
    Pivoter.B_i_b (Tableau.pivoter tab1) 0%nat 0%nat = 1 /\
    Pivoter.B_i_b (Tableau.pivoter tab1) 0%nat 1%nat = 0 /\
    Pivoter.B_i_b (Tableau.pivoter tab1) 1%nat 0%nat = 0 /\
    Pivoter.B_i_b (Tableau.pivoter tab1) 1%nat 1%nat = 1 /\
    Pivoter.x_b (Tableau.pivoter tab1) 0%nat = 1 /\
    Pivoter.x_b (Tableau.pivoter tab1) 1%nat = 1.
Proof.
  intros Hwl Hn HA Hk HB Hx0 Hx1.
  assert (Hcol0 : Tableau.column tab0 2 0%nat = 0).
  { unfold Tableau.column. rewrite Hn, HA. unfold Examples.C_one, Bimatrix_game.C_k_l.
    simpl. reflexivity. }
  assert (Hcol1 : Tableau.column tab0 2 1%nat = 1).
  { unfold Tableau.column. rewrite Hn, HA. unfold Examples.C_one, Bimatrix_game.C_k_l.
    simpl. lra. }
  assert (Hkent : ~ In 2%nat (Tableau.k_b tab0)) by (rewrite Hk; simpl; lia).
  assert (Hk2n : (2 < 2 * Tableau.nbi tab0)%nat) by (rewrite Hn; lia).
  assert (Hinv : is_inverse (Tableau.nbi tab0) (Pivoter.B_i_b (Tableau.pivoter tab0)) identity)
    by (rewrite Hn, HB; apply identity_is_inverse).
  assert (Hz0 : solves (Tableau.nbi tab0) (Pivoter.B_i_b (Tableau.pivoter tab0))
                  (Tableau.column tab0 2) (Tableau.column tab0 2)).
  { rewrite Hn, HB. intros i Hi. unfold matvec. apply np_sum_identity_l. exact Hi. }
  destruct (pivot_progress tab0 2 identity _ 1%nat Hwl Hk2n Hinv Hz0)
    as [tab1 [kdep [stop Hp]]]; [rewrite Hn; lia | rewrite Hcol1; lra |].
  rewrite Hn in Hp.
  destruct (pivot_spec _ tab0 2 tab1 kdep stop Hwl Hkent Hk2n Hp)
    as [bdep [z [eps [Hb [Hnth [Hz [Em [Hkb [Hx' [HB' [Hnb' [Hnj' [[Hs1 [Hs2 Hs3]] Hex]]]]]]]]]]]]].
  assert (Hzv : forall i, (i < 2)%nat -> z i = Tableau.column tab0 2 i).
  { intros i Hi. rewrite <- Hn in Hi.
    rewrite (solves_unique _ _ _ _ z Hinv Hz i Hi).
    rewrite (solves_unique _ _ _ _ _ Hinv Hz0 i Hi). reflexivity. }
  assert (Hzv0 : z 0%nat = 0) by (rewrite Hzv by lia; exact Hcol0).
  assert (Hzv1 : z 1%nat = 1) by (rewrite Hzv by lia; exact Hcol1).
  rewrite Hn, (ratios_second _ z) in Em by lra. simpl in Em.
  injection Em as <- <-.
  rewrite Hk in Hnth. simpl in Hnth. injection Hnth as <-.
  assert (Hkb1 : Tableau.k_b tab1 = [0; 2]%nat) by (rewrite Hkb, Hk; reflexivity).
  assert (Hstop : stop = false).
  { rewrite exit_test_eval in Hex by (rewrite ?Hn; lia).
    rewrite Hkb1 in Hex. simpl in Hex. congruence. }
  subst stop. exists tab1. split; [exact Hp|].
  destruct (pivot_well_labelled _ tab0 2 tab1 1%nat false Hwl Hkent Hk2n Hp)
    as [Hwl1 _].
  split; [exact Hwl1|]. split; [congruence|]. split; [congruence|].
  split; [exact Hkb1|].
  rewrite HB', Hx', HB. cbn. rewrite Hcol0, Hcol1, Hx0, Hx1, Hzv0, Hzv1.
  unfold identity. simpl. repeat split; lra.
Qed.

Lemma one_second_pivot tab1 :
  well_labelled tab1 -> Tableau.nbi tab1 = 2%nat ->
  Tableau.A_i_j tab1 = Examples.C_one ->
  Tableau.k_b tab1 = [0; 2]%nat ->
  Pivoter.B_i_b (Tableau.pivoter tab1) 0%nat 0%nat = 1 ->
  Pivoter.B_i_b (Tableau.pivoter tab1) 0%nat 1%nat = 0 ->
  Pivoter.B_i_b (Tableau.pivoter tab1) 1%nat 0%nat = 0 ->
  Pivoter.B_i_b (Tableau.pivoter tab1) 1%nat 1%nat = 1 ->
  Pivoter.x_b (Tableau.pivoter tab1) 0%nat = 1 ->
  Pivoter.x_b (Tableau.pivoter tab1) 1%nat = 1 ->
  exists tab2,
    Bimatrix_game.pivot (Bimatrix_game.complements 2) tab1 3 = Ok (tab2, 0%nat, true) /\
    Tableau.nbi tab2 = 2%nat /\
    Tableau.k_b tab2 = [3; 2]%nat /\
    Pivoter.x_b (Tableau.pivoter tab2) 0%nat = 1 /\
    Pivoter.x_b (Tableau.pivoter tab2) 1%nat = 1.
Proof.
  intros Hwl Hn HA Hk H00 H01 H10 H11 Hx0 Hx1.
  assert (Hcol0 : Tableau.column tab1 3 0%nat = 1).
  { unfold Tableau.column. rewrite Hn, HA. unfold Examples.C_one, Bimatrix_game.C_k_l.
    simpl. lra. }
  assert (Hcol1 : Tableau.column tab1 3 1%nat = 0).
  { unfold Tableau.column. rewrite Hn, HA. unfold Examples.C_one, Bimatrix_game.C_k_l.
    simpl. reflexivity. }
  assert (Hkent : ~ In 3%nat (Tableau.k_b tab1)) by (rewrite Hk; simpl; lia).
  assert (Hk2n : (3 < 2 * Tableau.nbi tab1)%nat) by (rewrite Hn; lia).
  assert (Hinv : is_inverse (Tableau.nbi tab1) (Pivoter.B_i_b (Tableau.pivoter tab1)) identity)
    by (rewrite Hn; apply identity_like_inverse; assumption).
  assert (Hz0 : solves (Tableau.nbi tab1) (Pivoter.B_i_b (Tableau.pivoter tab1))
                  (Tableau.column tab1 3) (Tableau.column tab1 3))
    by (rewrite Hn; apply identity_like_solves; assumption).
  destruct (pivot_progress tab1 3 identity _ 0%nat Hwl Hk2n Hinv Hz0)
    as [tab2 [kdep [stop Hp]]]; [rewrite Hn; lia | rewrite Hcol0; lra |].
  rewrite Hn in Hp.
  destruct (pivot_spec _ tab1 3 tab2 kdep stop Hwl Hkent Hk2n Hp)
    as [bdep [z [eps [Hb [Hnth [Hz [Em [Hkb [Hx' [HB' [Hnb' [Hnj' [[Hs1 [Hs2 Hs3]] Hex]]]]]]]]]]]]].
  assert (Hzv : forall i, (i < 2)%nat -> z i = Tableau.column tab1 3 i).
  { intros i Hi. rewrite <- Hn in Hi.
    rewrite (solves_unique _ _ _ _ z Hinv Hz i Hi).
    rewrite (solves_unique _ _ _ _ _ Hinv Hz0 i Hi). reflexivity. }
  assert (Hzv0 : z 0%nat = 1) by (rewrite Hzv by lia; exact Hcol0).
  assert (Hzv1 : z 1%nat = 0) by (rewrite Hzv by lia; exact Hcol1).
  rewrite Hn, (ratios_first _ z) in Em by lra. simpl in Em.
  injection Em as <- <-.
  rewrite Hk in Hnth. simpl in Hnth. injection Hnth as <-.
  assert (Hkb2 : Tableau.k_b tab2 = [3; 2]%nat) by (rewrite Hkb, Hk; reflexivity).
  assert (Hstop : stop = true).
  { rewrite exit_test_eval in Hex by (rewrite ?Hn; lia).
    rewrite Hkb2 in Hex. simpl in Hex. congruence. }
  subst stop. exists tab2. split; [exact Hp|].
  split; [congruence|]. split; [exact Hkb2|].
  rewrite Hx'. cbn. rewrite Hx0, Hx1, Hzv0, Hzv1. split; field.
Qed.

End OneByOne.

(** Witness of C6: the first exit test of the run on the one-by-one
    game, evaluated after [x_1] entered and [s_1] departed. *)
Lemma exit_test_iff_fully_complementary_witness :
  exists tab b,
    Bimatrix_game.at_test (Bimatrix_game.complements 2) tab 2 1 /\
    Bimatrix_game.exit_test (Bimatrix_game.complements 2) tab 2 1 = Ok b /\
    (b = true <->
     Bimatrix_game.fully_complementary (Tableau.nbi tab) (Tableau.k_b tab)).
Proof.
  destruct one_start as [tab0 [Hc [Hwl [Hn [HA [Hk [HB [Hx0 Hx1]]]]]]]].
  destruct (one_first_pivot tab0 Hwl Hn HA Hk HB Hx0 Hx1) as [tab1 [Hp _]].
  assert (Hat : Bimatrix_game.at_test (Bimatrix_game.complements 2) tab1 2 1)
    by exact (Bimatrix_game.test_first _ tab0 2 tab1 1%nat false Examples.C_one
                Hc eq_refl Hp).
  destruct (exit_test_iff_fully_complementary _ tab1 2%nat 1%nat Hat) as [b Hb].
  exists tab1, b. split; [exact Hat | exact Hb].
Defined.

(** ** The tableau at the exit of the pivot loop *)

Section LoopExit.

Import LemkeHowson.

Lemma same_system_trans t0 t1 t2 :
  same_system t0 t1 -> same_system t1 t2 -> same_system t0 t2.
Proof.
  intros [H1 [H2 H3]] [K1 [K2 K3]]. unfold same_system.
  repeat split; congruence.
Qed.

(** When the loop breaks, the tableau is sound and feasible for the
    system it started from, and its basis is complementary. *)
Lemma pivot_loop_exit fuel :
  forall tab kent tab',
    well_labelled tab -> feasible tab ->
    at_head (Tableau.nbi tab) (fun k => mem k (Tableau.k_b tab)) kent ->
    Bimatrix_game.pivot_loop fuel (Bimatrix_game.complements (Tableau.nbi tab)) tab kent
      = Ok (Some tab') ->
    well_labelled tab' /\ feasible tab' /\ same_system tab tab' /\
    complementary (Tableau.nbi tab') (fun k => mem k (Tableau.k_b tab')).
Proof.
  induction fuel as [|f IH]; intros tab kent tab' Hwl Hf Hh Hl; simpl in Hl.
  - discriminate.
  - destruct (Bimatrix_game.pivot _ tab kent) as [[[tab1 kdep] stop]|] eqn:Hp;
      cbn [bind] in Hl; [|discriminate].
    assert (Hkent : ~ In kent (Tableau.k_b tab)).
    { apply mem_false. destruct Hh as [_ [H _]]. exact H. }
    assert (Hk2n : (kent < 2 * Tableau.nbi tab)%nat) by (destruct Hh as [H _]; exact H).
    destruct (pivot_after_pivot _ tab kent tab1 kdep stop Hwl Hh Hp) as [Hwl1 [Hs Ha]].
    assert (Hf1 := pivot_feasible _ tab kent tab1 kdep stop Hwl Hf Hkent Hk2n Hp).
    destruct (pivot_spec _ tab kent tab1 kdep stop Hwl Hkent Hk2n Hp)
      as [_ [_ [_ [_ [_ [_ [_ [_ [_ [_ [_ [_ [Hsys Hex]]]]]]]]]]]]].
    assert (Ha' := Ha). destruct Ha' as [He [Hd _]].
    rewrite <- Hs in Hex, Hl.
    rewrite exit_test_eval in Hex by assumption.
    assert (Hiff := exit_test_iff _ _ kent kdep Ha). cbv beta in Hiff.
    destruct stop.
    + injection Hl as <-.
      split; [exact Hwl1|]. split; [exact Hf1|]. split; [exact Hsys|].
      apply Hiff. congruence.
    + rewrite getitem_complements in Hl by exact Hd. cbn [bind] in Hl.
      assert (Hnc : ~ complementary (Tableau.nbi tab1)
                      (fun k => mem k (Tableau.k_b tab1))).
      { intros Hc. apply Hiff in Hc. congruence. }
      assert (Hh1 := next_head _ _ kent kdep Ha Hnc).
      destruct (IH tab1 _ tab' Hwl1 Hf1 Hh1 Hl) as [Hw [Hfe [Hsy Hco]]].
      split; [exact Hw|]. split; [exact Hfe|].
      split; [exact (same_system_trans _ _ _ Hsys Hsy) | exact Hco].
Qed.

(** A loop that returns a tableau has made a pass. *)
Lemma pivot_loop_nonempty fuel cs tab kent tab' :
  well_labelled tab ->
  Bimatrix_game.pivot_loop fuel cs tab kent = Ok (Some tab') ->
  (0 < Tableau.nbi tab)%nat.
Proof.
  intros Hwl Hl. destruct fuel as [|f]; simpl in Hl; [discriminate|].
  destruct (Bimatrix_game.pivot cs tab kent) as [r|] eqn:Hp;
    cbn [bind] in Hl; [|discriminate].
  exact (pivot_nonempty cs tab kent r Hwl Hp).
Qed.

End LoopExit.

(** ** The basic solution as a solution of the complementarity system *)

Section BasicSolution.

Import LemkeHowson.

Lemma np_sum_shift n (f : vec) :
  np_sum (S n) f = f O + np_sum n (fun i => f (S i)).
Proof.
  induction n as [|n IH].
  - simpl. lra.
  - change (np_sum (S (S n)) f) with (np_sum (S n) f + f (S n)).
    rewrite IH. simpl. lra.
Qed.

Lemma np_sum_app n m (f : vec) :
  np_sum (n + m) f = np_sum n f + np_sum m (fun j => f (n + j)%nat).
Proof.
  induction m as [|m IH].
  - rewrite Nat.add_0_r. simpl. lra.
  - rewrite Nat.add_succ_r. simpl. rewrite IH. lra.
Qed.

Lemma index_of_not_In k l : ~ In k l -> index_of k l = None.
Proof.
  intros Hn. destruct (index_of k l) as [b|] eqn:E; [|reflexivity].
  exfalso. apply Hn. apply index_of_Some in E.
  exact (nth_error_In _ _ E).
Qed.

(** Summing over all variables against the values of the basic ones is
    summing over the rows of the basis. *)
Lemma np_sum_index_of (l : list nat) :
  forall (x g : vec) (N : nat),
    NoDup l -> (forall k, In k l -> (k < N)%nat) ->
    np_sum N (fun k => g k * match index_of k l with Some b => x b | None => 0 end)
    = np_sum (length l) (fun b => g (nth b l O) * x b).
Proof.
  induction l as [|a l IH]; intros x g N Hnd Hlt.
  - simpl. transitivity (np_sum N (fun _ => 0)); [|apply np_sum_zero].
    apply np_sum_ext. intros k _. lra.
  - inversion Hnd as [|a' l' Hna Hnd']; subst.
    assert (HaN : (a < N)%nat) by (apply Hlt; left; reflexivity).
    set (h := fun k => g k * match index_of k l with
                               | Some b => x (S b) | None => 0 end).
    assert (E : np_sum N (fun k => g k * match index_of k (a :: l) with
                                           | Some b => x b | None => 0 end)
                = np_sum N (fun k => if Nat.eqb k a then g a * x O else h k)).
    { apply np_sum_ext. intros k _. simpl.
      rewrite (Nat.eqb_sym a k).
      destruct (Nat.eqb_spec k a) as [->|Hne]; [reflexivity|].
      unfold h. destruct (index_of k l); reflexivity. }
    rewrite E, np_sum_update by exact HaN.
    assert (Hha : h a = 0).
    { unfold h. rewrite (index_of_not_In a l Hna). lra. }
    rewrite Hha. unfold h.
    rewrite (IH (fun b => x (S b)) g N Hnd')
      by (intros k Hk; apply Hlt; right; exact Hk).
    change (length (a :: l)) with (S (length l)).
    rewrite np_sum_shift. simpl. lra.
Qed.

Variable tab : Tableau.t.
Hypothesis Hwl : well_labelled tab.
Hypothesis Hfe : feasible tab.

Lemma value_nonneg k : 0 <= Tableau.value tab k.
Proof.
  unfold Tableau.value. destruct (index_of k (Tableau.k_b tab)) as [b|] eqn:E; [|lra].
  apply index_of_Some in E.
  assert (Hb : (b < length (Tableau.k_b tab))%nat)
    by (apply nth_error_Some; congruence).
  destruct Hwl as [_ [_ [Hlen _]]]. destruct Hfe as [_ Hx].
  apply Hx. lia.
Qed.

Lemma value_nonbasic k : mem k (Tableau.k_b tab) = false -> Tableau.value tab k = 0.
Proof.
  intros H. apply mem_false in H. unfold Tableau.value.
  rewrite (index_of_not_In _ _ H). reflexivity.
Qed.

(** Row [i] of [[I | A] (w, z) = d]. *)
Lemma basic_solution_row i :
  (i < Tableau.nbi tab)%nat ->
  Tableau.value tab i +
  np_sum (Tableau.nbi tab)
         (fun j => Tableau.A_i_j tab i j * Tableau.value tab (Tableau.nbi tab + j))
  = Tableau.d_i tab i.
Proof.
  intros Hi.
  destruct Hwl as [_ [_ [Hlen [Hnd [Hlt HB]]]]]. destruct Hfe as [HBx _].
  assert (Hall : np_sum (2 * Tableau.nbi tab)
                        (fun k => Tableau.column tab k i * Tableau.value tab k)
                 = Tableau.d_i tab i).
  { unfold Tableau.value.
    rewrite (np_sum_index_of (Tableau.k_b tab) (Pivoter.x_b (Tableau.pivoter tab))
               (fun k => Tableau.column tab k i) _ Hnd Hlt).
    rewrite Hlen, <- (HBx i Hi). unfold matvec.
    apply np_sum_ext. intros b Hb. rewrite (HB i b Hb). reflexivity. }
  rewrite <- Hall.
  replace (2 * Tableau.nbi tab)%nat with (Tableau.nbi tab + Tableau.nbi tab)%nat by lia.
  rewrite np_sum_app. f_equal.
  - symmetry.
    rewrite <- (np_sum_identity_l (Tableau.nbi tab) (Tableau.value tab) i Hi).
    apply np_sum_ext. intros k Hk. unfold Tableau.column.
    destruct (Nat.ltb_spec k (Tableau.nbi tab)); [reflexivity | lia].
  - apply np_sum_ext. intros j Hj. unfold Tableau.column.
    destruct (Nat.ltb_spec (Tableau.nbi tab + j) (Tableau.nbi tab)); [lia|].
    replace (Tableau.nbi tab + j - Tableau.nbi tab)%nat with j by lia. reflexivity.
Qed.

Lemma basic_solution_complementary k :
  complementary (Tableau.nbi tab) (fun k => mem k (Tableau.k_b tab)) ->
  (k < Tableau.nbi tab)%nat ->
  Tableau.value tab k = 0 \/ Tableau.value tab (Tableau.nbi tab + k) = 0.
Proof.
  intros Hc Hk. specialize (Hc k Hk). cbv beta in Hc.
  destruct (mem k (Tableau.k_b tab)) eqn:E1.
  - right. apply value_nonbasic.
    destruct (mem (Tableau.nbi tab + k) (Tableau.k_b tab)); congruence.
  - left. apply value_nonbasic. exact E1.
Qed.

End BasicSolution.

(** ** From a complementary solution to a Nash equilibrium *)

Section NashAlgebra.


Variable G : Bimatrix_game.t.

(** [np.eye(nbi)[i] @ A @ q] *)
Lemma row_payoff (M : mat) (q : vec) i :
  (i < Bimatrix_game.nbi G)%nat ->
  dot (Bimatrix_game.nbj G)
      (Bimatrix_game.vecmat (Bimatrix_game.nbi G) (Bimatrix_game.eye i) M) q
  = np_sum (Bimatrix_game.nbj G) (fun j => M i j * q j).
Proof.
  intros Hi. unfold dot, Bimatrix_game.vecmat, Bimatrix_game.eye.
  apply np_sum_ext. intros j Hj.
  rewrite (np_sum_identity_l (Bimatrix_game.nbi G) (fun i' => M i' j) i Hi).
  reflexivity.
Qed.

(** [p @ B @ np.eye(nbj)[j]] *)
Lemma col_payoff (M : mat) (p : vec) j :
  (j < Bimatrix_game.nbj G)%nat ->
  dot (Bimatrix_game.nbj G)
      (Bimatrix_game.vecmat (Bimatrix_game.nbi G) p M) (Bimatrix_game.eye j)
  = np_sum (Bimatrix_game.nbi G) (fun i => M i j * p i).
Proof.
  intros Hj. unfold dot, Bimatrix_game.eye.
  transitivity (np_sum (Bimatrix_game.nbj G)
                  (fun j' => identity j j'
                             * Bimatrix_game.vecmat (Bimatrix_game.nbi G) p M j')).
  { apply np_sum_ext. intros j' _. ring. }
  rewrite (np_sum_identity_l (Bimatrix_game.nbj G)
             (Bimatrix_game.vecmat (Bimatrix_game.nbi G) p M) j Hj).
  unfold Bimatrix_game.vecmat. apply np_sum_ext. intros i _. ring.
Qed.

(** [p @ M @ q], summed by rows and by columns. *)
Lemma mixed_payoff_rows (M : mat) (p q : vec) :
  dot (Bimatrix_game.nbj G) (Bimatrix_game.vecmat (Bimatrix_game.nbi G) p M) q
  = np_sum (Bimatrix_game.nbi G)
      (fun i => p i * np_sum (Bimatrix_game.nbj G) (fun j => M i j * q j)).
Proof.
  unfold dot, Bimatrix_game.vecmat.
  transitivity (np_sum (Bimatrix_game.nbj G)
                  (fun j => np_sum (Bimatrix_game.nbi G)
                                   (fun i => p i * (M i j * q j)))).
  { apply np_sum_ext. intros j _. rewrite <- np_sum_scal_r.
    apply np_sum_ext. intros i _. ring. }
  rewrite np_sum_swap. apply np_sum_ext. intros i _.
  exact (np_sum_scal (Bimatrix_game.nbj G) (p i) (fun j => M i j * q j)).
Qed.

Lemma mixed_payoff_cols (M : mat) (p q : vec) :
  dot (Bimatrix_game.nbj G) (Bimatrix_game.vecmat (Bimatrix_game.nbi G) p M) q
  = np_sum (Bimatrix_game.nbj G)
      (fun j => q j * np_sum (Bimatrix_game.nbi G) (fun i => M i j * p i)).
Proof.
  unfold dot, Bimatrix_game.vecmat. apply np_sum_ext. intros j _.
  rewrite Rmult_comm. f_equal. apply np_sum_ext. intros i _. ring.
Qed.

(** Rows of the block matrix [[0, A], [B.T, 0]] against [z = (x, y)]. *)
Lemma C_rows_upper (A B : mat) (z : vec) i :
  (i < Bimatrix_game.nbi G)%nat ->
  np_sum (Bimatrix_game.nbi G + Bimatrix_game.nbj G)
    (fun l => Bimatrix_game.C_k_l (Bimatrix_game.nbi G) (Bimatrix_game.nbj G) A B i l * z l)
  = np_sum (Bimatrix_game.nbj G) (fun j => A i j * z (Bimatrix_game.nbi G + j)%nat).
Proof.
  intros Hi. rewrite np_sum_app.
  rewrite (np_sum_ext (Bimatrix_game.nbi G) _ (fun _ => 0)).
  2:{ intros l Hl. unfold Bimatrix_game.C_k_l.
      destruct (Nat.ltb_spec i (Bimatrix_game.nbi G)); [|lia].
      destruct (Nat.ltb_spec l (Bimatrix_game.nbi G)); [|lia]. ring. }
  rewrite np_sum_zero, Rplus_0_l.
  apply np_sum_ext. intros j Hj. unfold Bimatrix_game.C_k_l.
  destruct (Nat.ltb_spec i (Bimatrix_game.nbi G)); [|lia].
  destruct (Nat.ltb_spec (Bimatrix_game.nbi G + j) (Bimatrix_game.nbi G)); [lia|].
  replace (Bimatrix_game.nbi G + j - Bimatrix_game.nbi G)%nat with j by lia.
  reflexivity.
Qed.

Lemma C_rows_lower (A B : mat) (z : vec) j :
  (j < Bimatrix_game.nbj G)%nat ->
  np_sum (Bimatrix_game.nbi G + Bimatrix_game.nbj G)
    (fun l => Bimatrix_game.C_k_l (Bimatrix_game.nbi G) (Bimatrix_game.nbj G) A B
                (Bimatrix_game.nbi G + j)%nat l * z l)
  = np_sum (Bimatrix_game.nbi G) (fun i => B i j * z i).
Proof.
  intros Hj. rewrite np_sum_app.
  rewrite (np_sum_ext (Bimatrix_game.nbj G) _ (fun _ => 0)).
  2:{ intros l Hl. unfold Bimatrix_game.C_k_l.
      destruct (Nat.ltb_spec (Bimatrix_game.nbi G + j) (Bimatrix_game.nbi G)); [lia|].
      destruct (Nat.ltb_spec (Bimatrix_game.nbi G + l) (Bimatrix_game.nbi G)); [lia|].
      ring. }
  rewrite np_sum_zero, Rplus_0_r.
  apply np_sum_ext. intros i Hi. unfold Bimatrix_game.C_k_l.
  destruct (Nat.ltb_spec (Bimatrix_game.nbi G + j) (Bimatrix_game.nbi G)); [lia|].
  destruct (Nat.ltb_spec i (Bimatrix_game.nbi G)); [|lia].
  replace (Bimatrix_game.nbi G + j - Bimatrix_game.nbi G)%nat with j by lia.
  reflexivity.
Qed.

Lemma np_inv_Ok s a : Bimatrix_game.np_inv s = Ok a -> s <> 0 /\ a = 1 / s.
Proof.
  unfold Bimatrix_game.np_inv. destruct (Req_dec_T s 0); [discriminate|].
  intros H. injection H as <-. split; [assumption | reflexivity].
Qed.


End NashAlgebra.

(** ** The output of [lemke_howson_solve] *)

Section LemkeHowsonOutput.

Import LemkeHowson.


(** The run on the one-by-one game returns after two pivots. *)
Lemma one_run :
  exists out, Bimatrix_game.lemke_howson_solve Examples.G_one 2 = Ok (Some out).
Proof.
  assert (Hrun : Bimatrix_game.lemke_howson_solve Examples.G_one 2 =
    (tab <- Tableau.create Examples.C_one (fun _ => 1) 2 2 ;;
     r <- Bimatrix_game.pivot_loop 2 (Bimatrix_game.complements 2) tab 2 ;;
     match r with
     | None => Ok None
     | Some tab' =>
         α <- Bimatrix_game.np_inv
                (np_sum 1 (fun j => fst (Tableau.solution tab') (1 + j)%nat)) ;;
         β <- Bimatrix_game.np_inv (np_sum 1 (fun i => fst (Tableau.solution tab') i)) ;;
         Ok (Some {| Bimatrix_game.p_i := fun i => fst (Tableau.solution tab') i * β;
                     Bimatrix_game.q_j :=
                       fun j => fst (Tableau.solution tab') (1 + j)%nat * α;
                     Bimatrix_game.val1 := α + 1 - 1;
                     Bimatrix_game.val2 := β + 1 - 1 |})
     end)) by reflexivity.
  rewrite Hrun.
  destruct one_start as [tab0 [Hc [Hwl [Hn [HA [Hk [HB [Hx0 Hx1]]]]]]]].
  destruct (one_first_pivot tab0 Hwl Hn HA Hk HB Hx0 Hx1)
    as [tab1 [Hp1 [Hwl1 [Hn1 [HA1 [Hk1 [H00 [H01 [H10 [H11 [Hy0 Hy1]]]]]]]]]]].
  destruct (one_second_pivot tab1 Hwl1 Hn1 HA1 Hk1 H00 H01 H10 H11 Hy0 Hy1)
    as [tab2 [Hp2 [Hn2 [Hk2 [Hz0 Hz1]]]]].
  rewrite Hc. cbn [bind].
  assert (Hl : Bimatrix_game.pivot_loop 2 (Bimatrix_game.complements 2) tab0 2
               = Ok (Some tab2)).
  { cbn [Bimatrix_game.pivot_loop]. rewrite Hp1. cbn [bind].
    change (getitem (Bimatrix_game.complements 2) 1) with (Ok 3%nat : result nat).
    cbn [bind]. rewrite Hp2. reflexivity. }
  rewrite Hl. cbn [bind].
  assert (Hv2 : Tableau.value tab2 2 = 1)
    by (unfold Tableau.value; rewrite Hk2; simpl; exact Hz1).
  assert (Hv3 : Tableau.value tab2 3 = 1)
    by (unfold Tableau.value; rewrite Hk2; simpl; exact Hz0).
  unfold Tableau.solution. cbn [fst np_sum]. rewrite Hn2.
  change (2 + (1 + 0))%nat with 3%nat. change (2 + 0)%nat with 2%nat.
  rewrite Hv2, Hv3.
  unfold Bimatrix_game.np_inv.
  destruct (Req_dec_T (0 + 1) 0) as [E|_]; [exfalso; lra|].
  cbn [bind]. eexists. reflexivity.
Qed.

End LemkeHowsonOutput.



(** ** The [knapsack] oracle: feasibility and optimality *)

Section KnapsackOptimal.

Import CuttingStock.

Variable w_i : nat -> nat.

(** An entry of a table cell's dictionary. *)
Lemma thedic_In k_i i F_i v a r :
  In (a, r) (thedic w_i k_i i F_i v) <->
  (a <= v / w_i (S i))%nat /\ r = k_i (S i) * INR a + F_i (v - a * w_i (S i))%nat.
Proof.
  unfold thedic. rewrite in_map_iff. split.
  - intros [a' [E Hin]]. injection E as <- <-. apply in_seq in Hin.
    split; [lia | reflexivity].
  - intros [Ha ->]. exists a. split; [reflexivity | apply in_seq; lia].
Qed.

(** The cell of [A] and the cell of [F] are the key and the value of a
    maximal entry of the dictionary. *)
Lemma best_In k_i i F_i v : In (best (thedic w_i k_i i F_i v)) (thedic w_i k_i i F_i v).
Proof. rewrite best_thedic, thedic_cons. apply max_from_In. Qed.

Lemma best_ge k_i i F_i v kv :
  In kv (thedic w_i k_i i F_i v) -> snd kv <= snd (best (thedic w_i k_i i F_i v)).
Proof.
  rewrite best_thedic. rewrite thedic_cons. apply max_from_ge.
Qed.

Lemma F_step k_i i v :
  F w_i k_i (S i) v =
  k_i (S i) * INR (A w_i k_i (S i) v)
  + F w_i k_i i (v - A w_i k_i (S i) v * w_i (S i))%nat.
Proof.
  assert (H := best_In k_i i (F w_i k_i i) v).
  change (F w_i k_i (S i) v) with (snd (best (thedic w_i k_i i (F w_i k_i i) v))).
  change (A w_i k_i (S i) v) with (fst (best (thedic w_i k_i i (F w_i k_i i) v))).
  destruct (best (thedic w_i k_i i (F w_i k_i i) v)) as [a r].
  apply thedic_In in H. destruct H as [_ ->]. reflexivity.
Qed.

(** The number of copies recorded in [A] fits the remaining width. *)
Lemma A_fits k_i i v : (A w_i k_i i v * w_i i <= v)%nat.
Proof.
  destruct i as [|i].
  - simpl. rewrite Nat.mul_comm. apply Nat.Div0.mul_div_le.
  - assert (H := best_In k_i i (F w_i k_i i) v).
    change (A w_i k_i (S i) v) with (fst (best (thedic w_i k_i i (F w_i k_i i) v))).
    destruct (best (thedic w_i k_i i (F w_i k_i i) v)) as [a r].
    apply thedic_In in H. destruct H as [Ha _]. simpl.
    transitivity (v / w_i (S i) * w_i (S i))%nat.
    + apply Nat.mul_le_mono_r. exact Ha.
    + rewrite Nat.mul_comm. apply Nat.Div0.mul_div_le.
Qed.

(** The backtracking writes the entries below [i] and no other. *)
Lemma backtrack_above k_i i :
  forall v a_i j, (i <= j)%nat -> backtrack w_i k_i i v a_i j = a_i j.
Proof.
  induction i as [|i IH]; intros v a_i j Hj; simpl; [reflexivity|].
  rewrite IH by lia. destruct (Nat.eqb_spec j i); [lia | reflexivity].
Qed.

Lemma backtrack_integer k_i i :
  forall v a_i j, (j < i)%nat -> exists m : nat, backtrack w_i k_i i v a_i j = INR m.
Proof.
  induction i as [|i IH]; intros v a_i j Hj; [lia|]. simpl.
  destruct (Nat.eq_dec j i) as [->|Hne].
  - rewrite backtrack_above by lia. rewrite Nat.eqb_refl. eexists. reflexivity.
  - apply IH. lia.
Qed.

(** The pattern read back from [A] fits the width it was asked for. *)
Lemma backtrack_fits k_i i :
  forall v a_i,
    np_sum i (fun j => backtrack w_i k_i i v a_i j * INR (w_i j)) <= INR v.
Proof.
  induction i as [|i IH]; intros v a_i.
  - simpl. apply pos_INR.
  - change (np_sum (S i) (fun j => backtrack w_i k_i (S i) v a_i j * INR (w_i j)))
      with (np_sum i (fun j => backtrack w_i k_i (S i) v a_i j * INR (w_i j))
            + backtrack w_i k_i (S i) v a_i i * INR (w_i i)).
    simpl backtrack.
    rewrite (backtrack_above k_i i _ _ i (le_n i)), Nat.eqb_refl.
    assert (Hfit := A_fits k_i i v).
    specialize (IH (v - A w_i k_i i v * w_i i)%nat
                   (fun j => if Nat.eqb j i then INR (A w_i k_i i v) else a_i j)).
    rewrite minus_INR in IH by exact Hfit. rewrite mult_INR in IH. lra.
Qed.

(** With a non-negative first price the pattern read back from [A] has
    the value recorded in [F]. *)
Lemma backtrack_value k_i i :
  0 <= k_i O ->
  forall v a_i,
    np_sum (S i) (fun j => k_i j * backtrack w_i k_i (S i) v a_i j) = F w_i k_i i v.
Proof.
  intros H0. induction i as [|i IH]; intros v a_i.
  - simpl. rewrite Rmax_left by exact H0. lra.
  - change (np_sum (S (S i)) (fun j => k_i j * backtrack w_i k_i (S (S i)) v a_i j))
      with (np_sum (S i) (fun j => k_i j * backtrack w_i k_i (S (S i)) v a_i j)
            + k_i (S i) * backtrack w_i k_i (S (S i)) v a_i (S i)).
    change (backtrack w_i k_i (S (S i)) v a_i)
      with (backtrack w_i k_i (S i) (v - A w_i k_i (S i) v * w_i (S i))%nat
              (fun j => if Nat.eqb j (S i) then INR (A w_i k_i (S i) v) else a_i j)).
    rewrite IH.
    rewrite (backtrack_above k_i (S i) _ _ (S i) (le_n (S i))), Nat.eqb_refl.
    rewrite F_step. lra.
Qed.

(** [F] bounds the value of every pattern that fits, when the widths are
    positive. *)
Lemma F_upper k_i i :
  (forall j, (j <= i)%nat -> (0 < w_i j)%nat) ->
  forall v (b : nat -> nat),
    np_sum (S i) (fun j => INR (b j) * INR (w_i j)) <= INR v ->
    np_sum (S i) (fun j => k_i j * INR (b j)) <= F w_i k_i i v.
Proof.
  induction i as [|i IH]; intros Hw v b Hfit.
  - simpl in *. rewrite Rplus_0_l in *.
    rewrite <- mult_INR in Hfit. apply INR_le in Hfit.
    assert (Hb : (b O <= v / w_i O)%nat).
    { apply Nat.div_le_lower_bound; [specialize (Hw O (le_n 0)); lia|].
      rewrite Nat.mul_comm. exact Hfit. }
    apply le_INR in Hb. assert (0 <= INR (b O)) by apply pos_INR.
    destruct (Rle_dec 0 (k_i O)) as [Hk|Hk].
    + rewrite Rmax_left by exact Hk. nra.
    + rewrite Rmax_right by lra. nra.
  - change (np_sum (S (S i)) (fun j => INR (b j) * INR (w_i j)))
      with (np_sum (S i) (fun j => INR (b j) * INR (w_i j))
            + INR (b (S i)) * INR (w_i (S i))) in Hfit.
    change (np_sum (S (S i)) (fun j => k_i j * INR (b j)))
      with (np_sum (S i) (fun j => k_i j * INR (b j)) + k_i (S i) * INR (b (S i))).
    assert (Hrest : 0 <= np_sum (S i) (fun j => INR (b j) * INR (w_i j))).
    { apply np_sum_nonneg. intros j _.
      apply Rmult_le_pos; apply pos_INR. }
    assert (Hlast : (b (S i) * w_i (S i) <= v)%nat).
    { apply INR_le. rewrite mult_INR. lra. }
    assert (Hb : (b (S i) <= v / w_i (S i))%nat).
    { apply Nat.div_le_lower_bound; [specialize (Hw (S i) (le_n _)); lia|].
      rewrite Nat.mul_comm. exact Hlast. }
    assert (Hin : In (b (S i),
                      k_i (S i) * INR (b (S i))
                      + F w_i k_i i (v - b (S i) * w_i (S i))%nat)
                     (thedic w_i k_i i (F w_i k_i i) v)).
    { apply thedic_In. split; [exact Hb | reflexivity]. }
    apply best_ge in Hin. simpl snd in Hin.
    change (snd (best (thedic w_i k_i i (F w_i k_i i) v)))
      with (F w_i k_i (S i) v) in Hin.
    assert (Hsub : np_sum (S i) (fun j => k_i j * INR (b j))
                   <= F w_i k_i i (v - b (S i) * w_i (S i))%nat).
    { apply IH; [intros j Hj; apply Hw; lia|].
      rewrite minus_INR by exact Hlast. rewrite mult_INR. lra. }
    lra.
Qed.

End KnapsackOptimal.

(** X1.  On a non-empty price vector [knapsack] returns a pattern of
    non-negative integers whose total width [a_i @ w_i] is at most [W],
    whatever the prices and the widths. *)
Theorem knapsack_pattern_fits :
  forall (w_i : nat -> nat) (n : nat) (k_i : vec) (W : nat),
  exists a_i : vec,
    CuttingStock.knapsack w_i (S n) k_i W = Ok a_i /\
    (forall i, (i < S n)%nat -> exists m : nat, a_i i = INR m) /\
    np_sum (S n) (fun i => a_i i * INR (w_i i)) <= INR W.
Proof.
  intros w_i n k_i W. eexists. split; [reflexivity|]. split.
  - intros i Hi. apply backtrack_integer. exact Hi.
  - apply backtrack_fits.
Qed.

(** X2.  With positive widths and a non-negative first price, the
    pattern returned by [knapsack] is worth at least as much as every
    integer pattern that fits the width [W]. *)
Theorem knapsack_optimal_nonnegative_first_price :
  forall (w_i : nat -> nat) (n : nat) (k_i : vec) (W : nat),
    (forall i, (i < S n)%nat -> (0 < w_i i)%nat) ->
    0 <= k_i O ->
    exists a_i : vec,
      CuttingStock.knapsack w_i (S n) k_i W = Ok a_i /\
      forall b : nat -> nat,
        np_sum (S n) (fun i => INR (b i) * INR (w_i i)) <= INR W ->
        dot (S n) k_i (fun i => INR (b i)) <= dot (S n) k_i a_i.
Proof.
  intros w_i n k_i W Hw H0. eexists. split; [reflexivity|].
  intros b Hfit. unfold dot.
  rewrite (backtrack_value w_i k_i n H0).
  apply F_upper; [intros j Hj; apply Hw; lia | exact Hfit].
Qed.

(** Witness of X2: two items of widths 2 and 3, non-negative prices. *)
Lemma knapsack_optimal_nonnegative_first_price_witness :
  exists a_i : vec,
    CuttingStock.knapsack Examples.w_small 2 (fun _ => 1) 5 = Ok a_i /\
    forall b : nat -> nat,
      np_sum 2 (fun i => INR (b i) * INR (Examples.w_small i)) <= INR 5 ->
      dot 2 (fun _ => 1) (fun i => INR (b i)) <= dot 2 (fun _ => 1) a_i.
Proof.
  apply (knapsack_optimal_nonnegative_first_price Examples.w_small 1 (fun _ => 1) 5).
  - intros i Hi. unfold Examples.w_small. destruct (Nat.eqb i 0); lia.
  - lra.
Defined.

(** ** Invariants of the column-generation loop *)

Section ColumnGenerationInvariants.

Import CuttingStock.

Variable w_i : nat -> nat.

Lemma knapsack_Ok nbi k W a :
  knapsack w_i nbi k W = Ok a -> a = backtrack w_i k nbi W (fun _ => 0).
Proof.
  unfold knapsack. destruct (Nat.eqb nbi 0); [discriminate|].
  intros H. injection H as <-. reflexivity.
Qed.

(** The basis keeps covering the demand exactly. *)
Lemma reachable_covers nbi q W s :
  reachable w_i nbi q W s ->
  forall i, (i < nbi)%nat -> matvec nbi (AB_i_j s) (xB_j s) i = q i.
Proof.
  intros Hr. induction Hr as [s Hinit|s s' Hr IH Hc Hb].
  - unfold init in Hinit.
    destruct (linalg_solve nbi _ q) as [x|] eqn:Ex; simpl in Hinit; [|discriminate].
    injection Hinit as <-. simpl.
    exact (proj2 (linalg_solve_Ok _ _ _ _ Ex)).
  - destruct (body_cases w_i nbi W s s' Hb) as [k [a [Ek [Ea [Hstop|Hpiv]]]]].
    + destruct Hstop as [_ [_ [-> ->]]]. exact IH.
    + destruct Hpiv as [_ [_ [z [jexit [eps [Ez [Em [-> ->]]]]]]]].
      destruct (linalg_solve_Ok _ _ _ _ Ez) as [_ Hz].
      destruct (ratio_test _ _ _ _ _ Em) as [Hj [Hzj [Heps _]]].
      intros i Hi.
      exact (pivot_keeps_system nbi (AB_i_j s) (xB_j s) q a z jexit eps
               IH Hz Hj Hzj Heps i Hi).
Qed.

(** Every column of the basis is a pattern that fits the roll. *)
Lemma reachable_columns_fit nbi q W s :
  reachable w_i nbi q W s ->
  forall j, (j < nbi)%nat -> np_sum nbi (fun i => AB_i_j s i j * INR (w_i i)) <= INR W.
Proof.
  intros Hr. induction Hr as [s Hinit|s s' Hr IH Hc Hb].
  - unfold init in Hinit.
    destruct (linalg_solve nbi _ q) as [x|] eqn:Ex; simpl in Hinit; [|discriminate].
    injection Hinit as <-. simpl. intros j Hj.
    rewrite (np_sum_ext nbi _
               (fun i => identity j i * (INR (W / w_i i) * INR (w_i i)))).
    2:{ intros i _. unfold identity. rewrite (Nat.eqb_sym j i).
        destruct (Nat.eqb i j); lra. }
    rewrite np_sum_identity_l by exact Hj.
    rewrite <- mult_INR. apply le_INR.
    rewrite Nat.mul_comm. apply Nat.Div0.mul_div_le.
  - destruct (body_cases w_i nbi W s s' Hb) as [k [a [Ek [Ea [Hstop|Hpiv]]]]].
    + destruct Hstop as [_ [_ [_ ->]]]. exact IH.
    + destruct Hpiv as [_ [_ [z [jexit [eps [_ [_ [_ ->]]]]]]]].
      intros j Hj. destruct (Nat.eqb j jexit).
      * rewrite (knapsack_Ok nbi k W a Ea). apply backtrack_fits.
      * apply IH. exact Hj.
Qed.

End ColumnGenerationInvariants.

(** X3.  In every state the column-generation loop reaches from the
    diagonal starting basis with non-negative demands, the cutting plan
    is feasible: [AB_i_j @ xB_j = q_i] and [xB_j >= 0]. *)
Theorem column_generation_plan_feasible :
  forall (w_i : nat -> nat) (nbi : nat) (q_i : vec) (W : nat) (s : CuttingStock.state),
    (forall i, (i < nbi)%nat -> 0 <= q_i i) ->
    CuttingStock.reachable w_i nbi q_i W s ->
    (forall i, (i < nbi)%nat ->
       matvec nbi (CuttingStock.AB_i_j s) (CuttingStock.xB_j s) i = q_i i) /\
    (forall j, (j < nbi)%nat -> 0 <= CuttingStock.xB_j s j).
Proof.
  intros w_i nbi q_i W s Hq Hr. split.
  - exact (reachable_covers w_i nbi q_i W s Hr).
  - exact (reachable_nonneg w_i nbi q_i W s Hq Hr).
Qed.

(** Witness of X3: the state after the first pass on the small
    instance. *)
Lemma column_generation_plan_feasible_witness :
  exists s,
    CuttingStock.reachable Examples.w_small 2 Examples.q_small 5 s /\
    (forall i, (i < 2)%nat ->
       matvec 2 (CuttingStock.AB_i_j s) (CuttingStock.xB_j s) i = Examples.q_small i) /\
    (forall j, (j < 2)%nat -> 0 <= CuttingStock.xB_j s j).
Proof.
  destruct small_pass as [s [s' [Hr [Hc [Hb _]]]]].
  exists s'.
  assert (Hr' : CuttingStock.reachable Examples.w_small 2 Examples.q_small 5 s')
    by exact (CuttingStock.reach_step _ _ _ _ s s' Hr Hc Hb).
  split; [exact Hr'|].
  apply (column_generation_plan_feasible Examples.w_small 2 Examples.q_small 5 s').
  - intros i Hi. unfold Examples.q_small. destruct (Nat.eqb i 0); lra.
  - exact Hr'.
Defined.

(** X4.  In every state the column-generation loop reaches, each column
    of the basis [AB_i_j] is a cutting pattern that fits the roll:
    [AB_i_j[:,j] @ w_i <= W]. *)
Theorem column_generation_patterns_fit :
  forall (w_i : nat -> nat) (nbi : nat) (q_i : vec) (W : nat) (s : CuttingStock.state)
         (j : nat),
    CuttingStock.reachable w_i nbi q_i W s ->
    (j < nbi)%nat ->
    np_sum nbi (fun i => CuttingStock.AB_i_j s i j * INR (w_i i)) <= INR W.
Proof.
  intros w_i nbi q_i W s j Hr Hj.
  exact (reachable_columns_fit w_i nbi q_i W s Hr j Hj).
Qed.

(** Witness of X4: the column that entered in the first pass on the
    small instance. *)
Lemma column_generation_patterns_fit_witness :
  exists s,
    CuttingStock.reachable Examples.w_small 2 Examples.q_small 5 s /\
    np_sum 2 (fun i => CuttingStock.AB_i_j s i 1%nat * INR (Examples.w_small i)) <= INR 5.
Proof.
  destruct small_pass as [s [s' [Hr [Hc [Hb _]]]]].
  exists s'.
  assert (Hr' : CuttingStock.reachable Examples.w_small 2 Examples.q_small 5 s')
    by exact (CuttingStock.reach_step _ _ _ _ s s' Hr Hc Hb).
  split; [exact Hr'|].
  apply (column_generation_patterns_fit Examples.w_small 2 Examples.q_small 5 s' 1 Hr').
  lia.
Defined.

(** ** The stopping test of the column-generation loop *)

Section ColumnGenerationStop.

Import CuttingStock.

Variable w_i : nat -> nat.

(** When the oracle is exact and finds no pattern of price above 1, the
    prices [k] certify the plan: every fractional plan covering the
    demand uses at least [k . q] rolls, which is what the basis uses. *)
Lemma priced_out_bound n (k q : vec) W (J : nat) (P : nat -> nat -> nat) (y : vec) :
  (forall b : nat -> nat,
     np_sum (S n) (fun i => INR (b i) * INR (w_i i)) <= INR W ->
     dot (S n) k (fun i => INR (b i)) <= 1) ->
  (forall j, (j < J)%nat -> 0 <= y j) ->
  (forall j, (j < J)%nat ->
     np_sum (S n) (fun i => INR (P j i) * INR (w_i i)) <= INR W) ->
  (forall i, (i < S n)%nat -> np_sum J (fun j => INR (P j i) * y j) = q i) ->
  dot (S n) k q <= np_sum J y.
Proof.
  intros Hprice Hy Hfit Hcov. unfold dot.
  rewrite (np_sum_ext (S n) _ (fun i => np_sum J (fun j => k i * INR (P j i) * y j))).
  2:{ intros i Hi. rewrite <- (Hcov i Hi), <- np_sum_scal.
      apply np_sum_ext. intros j _. ring. }
  rewrite np_sum_swap. apply np_sum_le. intros j Hj.
  rewrite np_sum_scal_r.
  assert (H1 := Hprice (P j) (Hfit j Hj)). unfold dot in H1.
  assert (H2 := Hy j Hj). nra.
Qed.

Lemma stop_is_optimal n q W s s' k :
  (forall i, (i < S n)%nat -> (0 < w_i i)%nat) ->
  reachable w_i (S n) q W s ->
  body w_i (S n) W s = Ok s' -> cont s' = false ->
  linalg_solve (S n) (transpose (AB_i_j s)) (fun _ => 1) = Ok k -> 0 <= k O ->
  forall (J : nat) (P : nat -> nat -> nat) (y : vec),
    (forall j, (j < J)%nat -> 0 <= y j) ->
    (forall j, (j < J)%nat ->
       np_sum (S n) (fun i => INR (P j i) * INR (w_i i)) <= INR W) ->
    (forall i, (i < S n)%nat -> np_sum J (fun j => INR (P j i) * y j) = q i) ->
    np_sum (S n) (xB_j s') <= np_sum J y.
Proof.
  intros Hw Hr Hb Hc Ek H0 J P y Hy Hfit Hcov.
  destruct (body_cases w_i (S n) W s s' Hb) as [k' [a [Ek' [Ea [Hstop|Hpiv]]]]].
  2:{ destruct Hpiv as [_ [Hc' _]]. congruence. }
  rewrite Ek in Ek'. injection Ek' as <-.
  destruct Hstop as [Hge [_ [-> _]]].
  destruct (linalg_solve_Ok _ _ _ _ Ek) as [_ Hk].
  assert (Hx : solves (S n) (AB_i_j s) q (xB_j s))
    by exact (reachable_covers w_i (S n) q W s Hr).
  rewrite (direction_sum (S n) (AB_i_j s) k q (xB_j s) Hk Hx).
  apply (priced_out_bound n k q W J P y); try assumption.
  intros b Hb'. apply Rle_trans with (dot (S n) k a); [|lra].
  rewrite (knapsack_Ok w_i (S n) k W a Ea). unfold dot.
  rewrite (backtrack_value w_i k n H0).
  apply F_upper; [intros j Hj; apply Hw; lia | exact Hb'].
Qed.

End ColumnGenerationStop.

(** ** The loop on a one-item instance *)

Section OneItem.

Import CuttingStock.

Lemma linalg_solve_one (M : mat) (a : vec) :
  M O O = 1 -> exists z, linalg_solve 1 M a = Ok z /\ z O = a O.
Proof.
  intros HM.
  assert (Hinv : is_inverse 1 M identity).
  { intros i j Hi Hj. assert (i = O) as -> by lia. assert (j = O) as -> by lia.
    unfold identity. simpl. rewrite HM. split; lra. }
  assert (Hs : solves 1 M a a).
  { intros i Hi. assert (i = O) as -> by lia. unfold matvec. simpl. rewrite HM. lra. }
  destruct (linalg_solve_eval 1 M identity a a Hinv Hs) as [z [Ez Hz]].
  exists z. split; [exact Ez | apply Hz; lia].
Qed.

(** One item of width 1, a roll of width 1, demand 1: the first pass
    finds no pattern of price above 1 and stops. *)
Lemma one_item_pass :
  exists s s' k,
    reachable (fun _ => 1%nat) 1 (fun _ => 1) 1 s /\
    body (fun _ => 1%nat) 1 1 s = Ok s' /\ cont s' = false /\
    linalg_solve 1 (transpose (AB_i_j s)) (fun _ => 1) = Ok k /\ k O = 1.
Proof.
  destruct (linalg_solve_one
              (fun i j => if Nat.eqb i j then INR (1 / 1) else 0) (fun _ => 1))
    as [x [Ex Hx]]; [simpl; lra|].
  set (s := {| cont := true;
               AB_i_j := fun i j => if Nat.eqb i j then INR (1 / 1) else 0;
               xB_j := x; iter := O |}).
  assert (Hinit : init (fun _ => 1%nat) 1 (fun _ => 1) 1 = Ok s).
  { unfold init. rewrite Ex. reflexivity. }
  destruct (linalg_solve_one (transpose (AB_i_j s)) (fun _ => 1))
    as [k [Ek Hk]]; [unfold transpose; simpl; lra|].
  exists s. eexists. exists k.
  split; [apply reach_init; exact Hinit|].
  unfold body. rewrite Ek. cbn [bind knapsack Nat.eqb].
  assert (Hd : dot 1 k (backtrack (fun _ => 1%nat) k 1 1 (fun _ => 0)) = 1).
  { unfold dot. simpl. rewrite Hk. lra. }
  rewrite Hd. destruct (Rge_dec 1 1) as [_|Hn]; [|exfalso; lra].
  split; [reflexivity|]. split; [reflexivity|]. split; [reflexivity | exact Hk].
Qed.

End OneItem.

(** X5.  When the column-generation loop stops, the plan is optimal for
    the linear relaxation, provided the widths are positive and the first
    price [k_i[0]] of the last pass is non-negative (so that [knapsack] is
    exact): every non-negative combination [y] of patterns that fit the
    roll and cover the demand uses at least [xB_j.sum()] rolls. *)
Theorem column_generation_stops_at_optimum :
  forall (w_i : nat -> nat) (n : nat) (q_i : vec) (W : nat)
         (s s' : CuttingStock.state) (k_i : vec)
         (J : nat) (P : nat -> nat -> nat) (y : vec),
    (forall i, (i < S n)%nat -> (0 < w_i i)%nat) ->
    CuttingStock.reachable w_i (S n) q_i W s ->
    CuttingStock.body w_i (S n) W s = Ok s' ->
    CuttingStock.cont s' = false ->
    linalg_solve (S n) (transpose (CuttingStock.AB_i_j s)) (fun _ => 1) = Ok k_i ->
    0 <= k_i O ->
    (forall j, (j < J)%nat -> 0 <= y j) ->
    (forall j, (j < J)%nat ->
       np_sum (S n) (fun i => INR (P j i) * INR (w_i i)) <= INR W) ->
    (forall i, (i < S n)%nat -> np_sum J (fun j => INR (P j i) * y j) = q_i i) ->
    np_sum (S n) (CuttingStock.xB_j s') <= np_sum J y.
Proof.
  intros w_i n q_i W s s' k_i J P y Hw Hr Hb Hc Ek H0 Hy Hfit Hcov.
  exact (stop_is_optimal w_i n q_i W s s' k_i Hw Hr Hb Hc Ek H0 J P y Hy Hfit Hcov).
Qed.

(** Witness of X5: the one-item instance, against the plan that cuts one
    roll into one item. *)
Lemma column_generation_stops_at_optimum_witness :
  exists s s',
    CuttingStock.reachable (fun _ => 1%nat) 1 (fun _ => 1) 1 s /\
    CuttingStock.body (fun _ => 1%nat) 1 1 s = Ok s' /\
    CuttingStock.cont s' = false /\
    np_sum 1 (CuttingStock.xB_j s') <= np_sum 1 (fun _ => 1).
Proof.
  destruct one_item_pass as [s [s' [k [Hr [Hb [Hc [Ek Hk]]]]]]].
  exists s, s'. split; [exact Hr|]. split; [exact Hb|]. split; [exact Hc|].
  apply (column_generation_stops_at_optimum (fun _ => 1%nat) 0 (fun _ => 1) 1 s s' k
           1 (fun _ _ => 1%nat) (fun _ => 1)).
  - intros i Hi. lia.
  - exact Hr.
  - exact Hb.
  - exact Hc.
  - exact Ek.
  - rewrite Hk. lra.
  - intros j Hj. lra.
  - intros j Hj. simpl. lra.
  - intros i Hi. simpl. lra.
Defined.

(** ** What the IPFP solvers return *)

Lemma ln_quotient a b : 0 < a -> 0 < b -> ln (a / b) = ln a - ln b.
Proof.
  intros Ha Hb. unfold Rdiv.
  rewrite ln_mult by (try apply Rinv_0_lt_compat; assumption).
  rewrite ln_Rinv by exact Hb. ring.
Qed.

Section MatrixOutput.

Import OT OT.Matrix.

Variables (self : OTProblem) (σ tol : R) (maxite : nat).

Hypothesis n_pos : forall x, (x < nbx self)%nat -> 0 < n_x self x.
Hypothesis m_pos : forall y, (y < nby self)%nat -> 0 < m_y self y.
Hypothesis nbx_pos : (0 < nbx self)%nat.
Hypothesis nby_pos : (0 < nby self)%nat.
Hypothesis maxite_pos : (0 < maxite)%nat.
Hypothesis σ_nonzero : σ <> 0.

(** The returned potentials are the logarithms of positive scalings, so
    the coupling is their Gibbs kernel. *)
Lemma matrixIPFP_gibbs :
  exists out,
    matrixIPFP self σ tol maxite = Ok out /\
    forall x y, (x < nbx self)%nat -> (y < nby self)%nat ->
      0 < μ_x_y out x y /\
      μ_x_y out x y = exp ((Φ_x_y self x y - u_x out x - v_y out y) / σ).
Proof.
  destruct (loop_returns self σ tol maxite nby_pos) as [s Hl].
  destruct (loop_made_a_pass self σ tol maxite n_pos m_pos nbx_pos nby_pos s
              maxite_pos Hl) as [p [HB Hb]].
  unfold matrixIPFP. rewrite Hl. cbn [bind].
  rewrite (body_spec self σ nby_pos) in Hb. injection Hb as <-. cbn.
  eexists. split; [reflexivity|]. cbn.
  intros x y Hx Hy.
  assert (HA : 0 < A_of self (K_x_y self σ) (B_y p) x)
    by exact (A_of_pos self σ n_pos nby_pos (B_y p) x HB Hx).
  assert (HKA : 0 < KA_of self (K_x_y self σ) (B_y p) y)
    by exact (KA_of_pos self σ n_pos nbx_pos nby_pos (B_y p) y HB).
  assert (HB' : 0 < m_y self y / KA_of self (K_x_y self σ) (B_y p) y)
    by (apply Rdiv_lt_0_compat; [apply m_pos; exact Hy | exact HKA]).
  assert (HK : 0 < K_x_y self σ x y) by apply K_pos.
  split.
  - apply Rmult_lt_0_compat; [apply Rmult_lt_0_compat|]; assumption.
  - replace ((Φ_x_y self x y - - σ * ln (A_of self (K_x_y self σ) (B_y p) x)
              - - σ * ln (m_y self y / KA_of self (K_x_y self σ) (B_y p) y)) / σ)
      with (Φ_x_y self x y / σ + ln (A_of self (K_x_y self σ) (B_y p) x)
            + ln (m_y self y / KA_of self (K_x_y self σ) (B_y p) y))
      by (field; exact σ_nonzero).
    rewrite !exp_plus, !exp_ln by assumption.
    reflexivity.
Qed.

End MatrixOutput.

Section LogDomainOutput.

Import OT LogDomainSteps.

Variables (self : OTProblem) (σ tol : R) (maxite : nat).

Hypothesis nbx_pos : (0 < nbx self)%nat.
Hypothesis nby_pos : (0 < nby self)%nat.

Lemma logdomain_KA_pos u y : 0 < KA_of self σ u y.
Proof.
  unfold KA_of. apply np_sum_pos; [exact nbx_pos|]. intros x _. apply exp_pos.
Qed.

(** One pass of the log-domain loop, by its two half-steps. *)
Lemma logdomain_body_steps s :
  LogDomain.body self σ s =
  Ok {| LogDomain.u_x := Some (u_of self σ (LogDomain.v_y s));
        LogDomain.v_y :=
          fun y => LogDomain.ζ_y self σ y
                   + σ * ln (KA_of self σ (u_of self σ (LogDomain.v_y s)) y);
        LogDomain.error :=
          amax (nby self)
            (fun y => Rabs (KA_of self σ (u_of self σ (LogDomain.v_y s)) y
                            * exp (- LogDomain.v_y s y / σ) / m_y self y - 1));
        LogDomain.ite := S (LogDomain.ite s) |}.
Proof.
  unfold LogDomain.body. rewrite np_max_amax by exact nby_pos. reflexivity.
Qed.

Lemma logdomain_loop_returns : exists s, LogDomain.loop self σ tol maxite = Ok s.
Proof.
  unfold LogDomain.loop.
  apply (while_total (LogDomain.cond tol maxite) (LogDomain.body self σ) (fun _ => True));
    [|exact I].
  intros s _. rewrite logdomain_body_steps. eauto.
Qed.

Lemma logdomain_loop_exits s :
  LogDomain.loop self σ tol maxite = Ok s -> LogDomain.cond tol maxite s = false.
Proof.
  unfold LogDomain.loop.
  apply (while_exits (LogDomain.cond tol maxite) (LogDomain.body self σ)
           (fun s => (maxite - LogDomain.ite s)%nat)).
  - intros p Hc. unfold LogDomain.cond in Hc. apply andb_prop in Hc.
    destruct Hc as [_ Hc]. apply Nat.ltb_lt in Hc. lia.
  - intros p s' Hc Hb. rewrite logdomain_body_steps in Hb. injection Hb as <-. simpl.
    unfold LogDomain.cond in Hc. apply andb_prop in Hc. destruct Hc as [_ Hc].
    apply Nat.ltb_lt in Hc. lia.
  - simpl. lia.
Qed.

Lemma logdomain_loop_passed s :
  (0 < maxite)%nat -> LogDomain.loop self σ tol maxite = Ok s ->
  exists p, LogDomain.body self σ p = Ok s.
Proof.
  intros Hm Hl.
  assert (H : s = LogDomain.init tol \/ exists p, LogDomain.body self σ p = Ok s).
  { revert Hl. unfold LogDomain.loop.
    apply (while_ind (LogDomain.cond tol maxite) (LogDomain.body self σ)
             (fun s => s = LogDomain.init tol \/
                       exists p, LogDomain.body self σ p = Ok s)).
    - intros p s' _ _ Hb. right. exists p. exact Hb.
    - left. reflexivity. }
  destruct H as [->|H]; [|exact H].
  apply logdomain_loop_exits in Hl.
  unfold LogDomain.cond, LogDomain.init, Rgtb in Hl. simpl in Hl.
  destruct (Rgt_dec (tol + 1) tol) as [_|Hn]; [|exfalso; apply Hn; lra].
  destruct (Nat.ltb_spec 0 maxite); [discriminate | lia].
Qed.

Hypothesis m_pos : forall y, (y < nby self)%nat -> 0 < m_y self y.
Hypothesis σ_nonzero : σ <> 0.

(** The column update makes the column sums of the Gibbs kernel equal to
    [m_y]. *)
Lemma logdomain_column_sums u y :
  (y < nby self)%nat ->
  np_sum (nbx self)
    (fun x => exp ((Φ_x_y self x y - u x
                    - (LogDomain.ζ_y self σ y + σ * ln (KA_of self σ u y))) / σ))
  = m_y self y.
Proof.
  intros Hy. assert (HKA := logdomain_KA_pos u y). assert (Hm := m_pos y Hy).
  rewrite (np_sum_ext (nbx self) _
             (fun x => exp ((Φ_x_y self x y - u x) / σ)
                       * (m_y self y / KA_of self σ u y))).
  - rewrite np_sum_scal_r. fold (KA_of self σ u y). field. lra.
  - intros x _. unfold LogDomain.ζ_y.
    replace ((Φ_x_y self x y - u x
              - (- σ * ln (m_y self y) + σ * ln (KA_of self σ u y))) / σ)
      with ((Φ_x_y self x y - u x) / σ + (ln (m_y self y) - ln (KA_of self σ u y)))
      by (field; exact σ_nonzero).
    rewrite exp_plus, <- ln_quotient by assumption.
    rewrite exp_ln by (apply Rdiv_lt_0_compat; assumption).
    reflexivity.
Qed.

Lemma logdomainIPFP_columns :
  (0 < maxite)%nat ->
  exists out,
    LogDomain.logdomainIPFP self σ tol maxite = Ok out /\
    forall y, (y < nby self)%nat ->
      np_sum (nbx self) (fun x => μ_x_y out x y) = m_y self y.
Proof.
  intros Hmax.
  destruct logdomain_loop_returns as [s Hl].
  destruct (logdomain_loop_passed s Hmax Hl) as [p Hb].
  unfold LogDomain.logdomainIPFP. rewrite Hl. cbn [bind].
  rewrite logdomain_body_steps in Hb. injection Hb as <-.
  unfold LogDomain.finish. cbn.
  eexists. split; [reflexivity|]. cbn.
  intros y Hy. exact (logdomain_column_sums _ y Hy).
Qed.

End LogDomainOutput.

Section Entropy.

Import OT.

(** A term of the entropy, rescaled. *)
Lemma xlogx_term s a :
  0 < s -> 0 <= a -> s * (a / s * ln (a / s)) = a * ln a - a * ln s.
Proof.
  intros Hs Ha. destruct (Req_dec a 0) as [->|Hne].
  - unfold Rdiv. rewrite !Rmult_0_l. ring.
  - rewrite ln_quotient by lra. field. lra.
Qed.

Lemma sum_xlogx_spec n (a : vec) :
  (forall i, (i < n)%nat -> 0 <= a i) -> 0 < np_sum n a ->
  sum_xlogx n a = np_sum n (fun i => a i * ln (a i)).
Proof.
  intros Ha Hs. unfold sum_xlogx, entropy. cbv zeta.
  set (s := np_sum n a) in *.
  replace (s * ln s - s * - np_sum n (fun i => a i / s * ln (a i / s)))
    with (s * ln s + s * np_sum n (fun i => a i / s * ln (a i / s))) by ring.
  rewrite <- np_sum_scal.
  rewrite (np_sum_ext n _ (fun i => a i * ln (a i) - a i * ln s))
    by (intros i Hi; apply xlogx_term; [exact Hs | apply Ha; exact Hi]).
  rewrite np_sum_minus, np_sum_scal_r. fold s. ring.
Qed.

End Entropy.

(** X6.  For positive marginals on a non-empty problem, [σ <> 0] and
    [maxite >= 1], [matrixIPFP] returns a coupling with positive entries
    which is the Gibbs kernel of the returned potentials:
    [μ_x_y = exp((Φ_x_y - u_x - v_y)/σ)]. *)
Theorem matrixIPFP_coupling_is_gibbs_kernel :
  forall (self : OT.OTProblem) (σ tol : R) (maxite : nat),
    (forall x, (x < OT.nbx self)%nat -> 0 < OT.n_x self x) ->
    (forall y, (y < OT.nby self)%nat -> 0 < OT.m_y self y) ->
    (0 < OT.nbx self)%nat -> (0 < OT.nby self)%nat -> (0 < maxite)%nat ->
    σ <> 0 ->
    exists out,
      OT.Matrix.matrixIPFP self σ tol maxite = Ok out /\
      forall x y, (x < OT.nbx self)%nat -> (y < OT.nby self)%nat ->
        0 < OT.μ_x_y out x y /\
        OT.μ_x_y out x y
        = exp ((OT.Φ_x_y self x y - OT.u_x out x - OT.v_y out y) / σ).
Proof.
  intros self σ tol maxite Hn Hm Hx Hy Hmax Hσ.
  exact (matrixIPFP_gibbs self σ tol maxite Hn Hm Hx Hy Hmax Hσ).
Qed.

(** Witness of X6 on the one-by-one problem. *)
Lemma matrixIPFP_coupling_is_gibbs_kernel_witness :
  exists out,
    OT.Matrix.matrixIPFP Examples.P_unit 1 (1 / 8) 10 = Ok out /\
    forall x y, (x < 1)%nat -> (y < 1)%nat ->
      0 < OT.μ_x_y out x y /\
      OT.μ_x_y out x y
      = exp ((OT.Φ_x_y Examples.P_unit x y - OT.u_x out x - OT.v_y out y) / 1).
Proof.
  apply (matrixIPFP_coupling_is_gibbs_kernel Examples.P_unit 1 (1 / 8) 10);
    simpl; intros; try lra; lia.
Defined.

(** X8.  For positive column masses on a non-empty problem, [σ <> 0]
    and [maxite >= 1], [logdomainIPFP] returns a coupling whose column
    sums are exactly [m_y], whichever guard ended the loop. *)
Theorem logdomainIPFP_column_sums_exact :
  forall (self : OT.OTProblem) (σ tol : R) (maxite : nat),
    (forall y, (y < OT.nby self)%nat -> 0 < OT.m_y self y) ->
    (0 < OT.nbx self)%nat -> (0 < OT.nby self)%nat -> (0 < maxite)%nat ->
    σ <> 0 ->
    exists out,
      OT.LogDomain.logdomainIPFP self σ tol maxite = Ok out /\
      forall y, (y < OT.nby self)%nat ->
        np_sum (OT.nbx self) (fun x => OT.μ_x_y out x y) = OT.m_y self y.
Proof.
  intros self σ tol maxite Hm Hx Hy Hmax Hσ.
  exact (logdomainIPFP_columns self σ tol maxite Hx Hy Hm Hσ Hmax).
Qed.

(** Witness of X8 on the one-by-one problem. *)
Lemma logdomainIPFP_column_sums_exact_witness :
  exists out,
    OT.LogDomain.logdomainIPFP Examples.P_unit 1 (1 / 8) 10 = Ok out /\
    forall y, (y < 1)%nat -> np_sum 1 (fun x => OT.μ_x_y out x y) = 1.
Proof.
  apply (logdomainIPFP_column_sums_exact Examples.P_unit 1 (1 / 8) 10);
    simpl; intros; try lra; lia.
Defined.

(** X9.  On an array of non-negative numbers with a positive sum,
    [sum_xlogx] is the sum of [a * log a] over its entries (an entry 0
    counting for 0). *)
Theorem sum_xlogx_is_sum_of_xlogx :
  forall (n : nat) (a : vec),
    (forall i, (i < n)%nat -> 0 <= a i) -> 0 < np_sum n a ->
    OT.sum_xlogx n a = np_sum n (fun i => a i * ln (a i)).
Proof.
  intros n a Ha Hs. exact (sum_xlogx_spec n a Ha Hs).
Qed.

(** Witness of X9: the array [(0, 1, 2)]. *)
Lemma sum_xlogx_is_sum_of_xlogx_witness :
  OT.sum_xlogx 3 INR = np_sum 3 (fun i => INR i * ln (INR i)).
Proof.
  apply (sum_xlogx_is_sum_of_xlogx 3 INR).
  - intros i _. apply pos_INR.
  - simpl. lra.
Defined.

(** ** The log-sum-exp trick does not change the iteration *)

Section LogSumExp.

Lemma np_max_from_ext best best' n (a b : vec) :
  best = best' -> (forall i, (i < n)%nat -> a i = b i) ->
  np_max_from best n a = np_max_from best' n b.
Proof.
  intros -> H. induction n as [|n IH]; simpl; [reflexivity|].
  rewrite IH by (intros i Hi; apply H; lia). rewrite (H n) by lia. reflexivity.
Qed.

Lemma amax_ext n (a b : vec) :
  (0 < n)%nat -> (forall i, (i < n)%nat -> a i = b i) -> amax n a = amax n b.
Proof.
  intros Hn H. unfold amax. apply np_max_from_ext.
  - apply H. exact Hn.
  - intros i Hi. apply H. lia.
Qed.

(** Taking a constant out of a log-sum-exp. *)
Lemma lse_shift n (f : vec) c σ :
  (0 < n)%nat -> σ <> 0 ->
  c + σ * ln (np_sum n (fun i => exp ((f i - c) / σ)))
  = σ * ln (np_sum n (fun i => exp (f i / σ))).
Proof.
  intros Hn Hσ.
  assert (HS : 0 < np_sum n (fun i => exp ((f i - c) / σ)))
    by (apply np_sum_pos; [exact Hn | intros; apply exp_pos]).
  rewrite (np_sum_ext n (fun i => exp (f i / σ))
             (fun i => exp (c / σ) * exp ((f i - c) / σ))).
  2:{ intros i _. rewrite <- exp_plus. f_equal. field. exact Hσ. }
  rewrite np_sum_scal, ln_mult by (try apply exp_pos; exact HS).
  rewrite ln_exp. field. exact Hσ.
Qed.

Lemma shifted_sum n (f : vec) c w σ :
  σ <> 0 ->
  np_sum n (fun i => exp ((f i - c) / σ)) * exp ((c - w) / σ)
  = np_sum n (fun i => exp (f i / σ)) * exp (- w / σ).
Proof.
  intros Hσ. rewrite <- !np_sum_scal_r. apply np_sum_ext. intros i _.
  rewrite <- !exp_plus. f_equal. field. exact Hσ.
Qed.

Import OT LogDomainSteps.

Variables (self : OTProblem) (σ tol : R) (maxite : nat).

Hypothesis nbx_pos : (0 < nbx self)%nat.
Hypothesis nby_pos : (0 < nby self)%nat.
Hypothesis σ_nonzero : σ <> 0.

(** One pass with the trick and one pass without, from states that
    agree, end in states that agree. *)
Lemma body_agree s1 s2 :
  agree self s1 s2 ->
  exists s1' s2',
    LSE.body self σ s1 = Ok s1' /\ LogDomain.body self σ s2 = Ok s2' /\
    agree self s1' s2'.
Proof.
  intros [Hv [_ [Hite _]]].
  rewrite (logdomain_body_steps self σ nby_pos s2).
  pose (vstar := fun x => amax (nby self) (fun y => Φ_x_y self x y - LogDomain.v_y s1 y)).
  pose (u1 := fun x => LogDomain.λ_x self σ x + vstar x
                       + σ * ln (np_sum (nby self)
                                   (fun y => exp ((Φ_x_y self x y - vstar x
                                                   - LogDomain.v_y s1 y) / σ)))).
  pose (ustar := fun y => amax (nbx self) (fun x => Φ_x_y self x y - u1 x)).
  assert (E1 : LSE.body self σ s1 =
    Ok {| LogDomain.u_x := Some u1;
          LogDomain.v_y :=
            fun y => LogDomain.ζ_y self σ y + ustar y
                     + σ * ln (np_sum (nbx self)
                                 (fun x => exp ((Φ_x_y self x y - u1 x - ustar y) / σ)));
          LogDomain.error :=
            amax (nby self)
              (fun y => Rabs (np_sum (nbx self)
                                (fun x => exp ((Φ_x_y self x y - u1 x - ustar y) / σ))
                              * exp ((ustar y - LogDomain.v_y s1 y) / σ)
                              / m_y self y - 1));
          LogDomain.ite := S (LogDomain.ite s1) |}).
  { unfold LSE.body, LSE.body_traced, max_axis1, max_axis0.
    destruct (Nat.eqb_spec (nby self) 0) as [E|_]; [lia|].
    destruct (Nat.eqb_spec (nbx self) 0) as [E|_]; [lia|].
    cbn [bind]. rewrite np_max_amax by exact nby_pos. reflexivity. }
  rewrite E1. eexists. eexists. split; [reflexivity|]. split; [reflexivity|].
  assert (Hu : forall x, u1 x = u_of self σ (LogDomain.v_y s2) x).
  { intros x. unfold u1, u_of.
    rewrite (np_sum_ext (nby self)
               (fun y => exp ((Φ_x_y self x y - vstar x - LogDomain.v_y s1 y) / σ))
               (fun y => exp (((Φ_x_y self x y - LogDomain.v_y s1 y) - vstar x) / σ)))
      by (intros y _; f_equal; field; exact σ_nonzero).
    rewrite Rplus_assoc.
    rewrite (lse_shift (nby self) (fun y => Φ_x_y self x y - LogDomain.v_y s1 y)
               (vstar x) σ nby_pos σ_nonzero).
    f_equal. f_equal. f_equal. apply np_sum_ext. intros y Hy.
    rewrite (Hv y Hy). reflexivity. }
  assert (HKA : forall y,
            np_sum (nbx self) (fun x => exp ((Φ_x_y self x y - u1 x) / σ))
            = KA_of self σ (u_of self σ (LogDomain.v_y s2)) y).
  { intros y. unfold KA_of. apply np_sum_ext. intros x _. rewrite Hu. reflexivity. }
  unfold agree. cbn.
  split; [|split; [|split]].
  - intros y Hy. rewrite <- HKA.
    rewrite Rplus_assoc.
    rewrite (lse_shift (nbx self) (fun x => Φ_x_y self x y - u1 x)
               (ustar y) σ nbx_pos σ_nonzero).
    reflexivity.
  - apply amax_ext; [exact nby_pos|]. intros y Hy.
    rewrite <- HKA, <- (Hv y Hy).
    rewrite (shifted_sum (nbx self) (fun x => Φ_x_y self x y - u1 x)
               (ustar y) (LogDomain.v_y s1 y) σ σ_nonzero).
    reflexivity.
  - rewrite Hite. reflexivity.
  - intros x _. apply Hu.
Qed.

Lemma cond_agree s1 s2 :
  agree self s1 s2 -> LogDomain.cond tol maxite s1 = LogDomain.cond tol maxite s2.
Proof.
  intros [_ [He [Hi _]]]. unfold LogDomain.cond. rewrite He, Hi. reflexivity.
Qed.

Lemma while_agree fuel :
  forall s1 s2,
    agree self s1 s2 ->
    exists e1 e2,
      while fuel (LogDomain.cond tol maxite) (LSE.body self σ) s1 = Ok e1 /\
      while fuel (LogDomain.cond tol maxite) (LogDomain.body self σ) s2 = Ok e2 /\
      agree self e1 e2.
Proof.
  induction fuel as [|fuel IH]; intros s1 s2 Ha; simpl.
  - exists s1, s2. auto.
  - rewrite (cond_agree s1 s2 Ha).
    destruct (LogDomain.cond tol maxite s2).
    + destruct (body_agree s1 s2 Ha) as [s1' [s2' [E1 [E2 Ha']]]].
      rewrite E1, E2. cbn [bind]. apply IH. exact Ha'.
    + exists s1, s2. auto.
Qed.

Lemma flatten_index a :
  (a < nbx self * nby self)%nat ->
  (a / nby self < nbx self)%nat /\ (a mod nby self < nby self)%nat.
Proof.
  intros Ha. split.
  - apply Nat.Div0.div_lt_upper_bound. rewrite Nat.mul_comm. exact Ha.
  - apply Nat.mod_upper_bound. lia.
Qed.

Lemma objective_ext (μ1 μ2 : mat) :
  (forall x y, (x < nbx self)%nat -> (y < nby self)%nat -> μ1 x y = μ2 x y) ->
  objective self σ μ1 = objective self σ μ2.
Proof.
  intros H.
  assert (Hf : forall a, (a < nbx self * nby self)%nat ->
            flatten (nby self) μ1 a = flatten (nby self) μ2 a).
  { intros a Ha. unfold flatten. destruct (flatten_index a Ha). apply H; assumption. }
  assert (Hs : np_sum (nbx self * nby self) (flatten (nby self) μ1)
               = np_sum (nbx self * nby self) (flatten (nby self) μ2))
    by (apply np_sum_ext; exact Hf).
  unfold objective, sum_xlogx, entropy, dot. cbv zeta. rewrite Hs.
  rewrite (np_sum_ext (nbx self * nby self)
             (fun i => Φ_a self i * flatten (nby self) μ1 i)
             (fun i => Φ_a self i * flatten (nby self) μ2 i))
    by (intros a Ha; rewrite (Hf a Ha); reflexivity).
  rewrite (np_sum_ext (nbx self * nby self)
             (fun i => flatten (nby self) μ1 i
                       / np_sum (nbx self * nby self) (flatten (nby self) μ2)
                       * ln (flatten (nby self) μ1 i
                             / np_sum (nbx self * nby self) (flatten (nby self) μ2)))
             (fun i => flatten (nby self) μ2 i
                       / np_sum (nbx self * nby self) (flatten (nby self) μ2)
                       * ln (flatten (nby self) μ2 i
                             / np_sum (nbx self * nby self) (flatten (nby self) μ2))))
    by (intros a Ha; rewrite (Hf a Ha); reflexivity).
  reflexivity.
Qed.

Lemma finish_agree s1 s2 l1 l2 :
  agree self s1 s2 ->
  (exists p, LSE.body self σ p = Ok s1) ->
  exists o1 o2,
    LogDomain.finish self σ s1 l1 = Ok o1 /\ LogDomain.finish self σ s2 l2 = Ok o2 /\
    same_output self o1 o2.
Proof.
  intros [Hv [_ [Hite Hu]]] [p Hp]. unfold LogDomain.finish.
  destruct (LogDomain.u_x s1) as [u1|] eqn:E1.
  2:{ exfalso. unfold LSE.body in Hp.
      destruct (LSE.body_traced self σ p) as [[s a]|] eqn:Et; cbn [bind] in Hp;
        [|discriminate].
      injection Hp as <-. unfold LSE.body_traced in Et.
      destruct (max_axis1 _ _) as [vs|]; cbn [bind] in Et; [|discriminate].
      destruct (max_axis0 _ _) as [us|]; cbn [bind] in Et; [|discriminate].
      destruct (np_max _ _) as [e|]; cbn [bind] in Et; [|discriminate].
      injection Et as <- _. simpl in E1. discriminate. }
  destruct (LogDomain.u_x s2) as [u2|]; [|contradiction].
  assert (Hμ : forall x y, (x < nbx self)%nat -> (y < nby self)%nat ->
            exp ((Φ_x_y self x y - u1 x - LogDomain.v_y s1 y) / σ)
            = exp ((Φ_x_y self x y - u2 x - LogDomain.v_y s2 y) / σ)).
  { intros x y Hx Hy. rewrite (Hu x Hx), (Hv y Hy). reflexivity. }
  eexists. eexists. split; [reflexivity|]. split; [reflexivity|].
  unfold same_output. cbn [OT.μ_x_y OT.u_x OT.v_y OT.valobs OT.valtot OT.ite].
  rewrite (objective_ext _ _ Hμ).
  repeat split; auto.
Qed.

Lemma lse_loop_passed s :
  (0 < maxite)%nat -> LSE.loop self σ tol maxite = Ok s ->
  exists p, LSE.body self σ p = Ok s.
Proof.
  intros Hm Hl.
  assert (H : s = LogDomain.init tol \/ exists p, LSE.body self σ p = Ok s).
  { revert Hl. unfold LSE.loop.
    apply (while_ind (LogDomain.cond tol maxite) (LSE.body self σ)
             (fun s => s = LogDomain.init tol \/ exists p, LSE.body self σ p = Ok s)).
    - intros p s' _ _ Hb. right. exists p. exact Hb.
    - left. reflexivity. }
  destruct H as [->|H]; [|exact H]. exfalso.
  unfold LSE.loop in Hl. destruct maxite as [|m]; [lia|].
  simpl in Hl. unfold LogDomain.cond in Hl at 1. simpl in Hl.
  unfold Rgtb in Hl. destruct (Rgt_dec (tol + 1) tol) as [_|Hn]; [|apply Hn; lra].
  simpl in Hl.
  destruct (LSE.body self σ (LogDomain.init tol)) as [s1|] eqn:Eb; cbn [bind] in Hl;
    [|discriminate].
  assert (Hi : (1 <= LogDomain.ite (LogDomain.init tol))%nat).
  { revert Hl.
    apply (while_ind (LogDomain.cond tol (S m)) (LSE.body self σ)
             (fun s => (1 <= LogDomain.ite s)%nat)).
    - intros q s' _ _ Hb. unfold LSE.body in Hb.
      destruct (LSE.body_traced self σ q) as [[s a]|] eqn:Et; cbn [bind] in Hb;
        [|discriminate].
      injection Hb as <-. unfold LSE.body_traced in Et.
      destruct (max_axis1 _ _) as [vs|]; cbn [bind] in Et; [|discriminate].
      destruct (max_axis0 _ _) as [us|]; cbn [bind] in Et; [|discriminate].
      destruct (np_max _ _) as [e|]; cbn [bind] in Et; [|discriminate].
      injection Et as <- _. simpl. lia.
    - unfold LSE.body in Eb.
      destruct (LSE.body_traced self σ (LogDomain.init tol)) as [[s a]|] eqn:Et;
        cbn [bind] in Eb; [|discriminate].
      injection Eb as <-. unfold LSE.body_traced in Et.
      destruct (max_axis1 _ _) as [vs|]; cbn [bind] in Et; [|discriminate].
      destruct (max_axis0 _ _) as [us|]; cbn [bind] in Et; [|discriminate].
      destruct (np_max _ _) as [e|]; cbn [bind] in Et; [|discriminate].
      injection Et as <- _. simpl. lia. }
  simpl in Hi. lia.
Qed.

Lemma LSE_same_output :
  (0 < maxite)%nat ->
  exists o1 o2,
    LSE.logdomainIPFP_with_LSE_trick self σ tol maxite = Ok o1 /\
    LogDomain.logdomainIPFP self σ tol maxite = Ok o2 /\
    same_output self o1 o2.
Proof.
  intros Hmax.
  assert (Ha : agree self (LogDomain.init tol) (LogDomain.init tol)).
  { unfold agree. simpl. auto. }
  destruct (while_agree maxite _ _ Ha) as [e1 [e2 [E1 [E2 Hae]]]].
  unfold LSE.logdomainIPFP_with_LSE_trick, LogDomain.logdomainIPFP,
    LSE.loop, LogDomain.loop.
  rewrite E1, E2. cbn [bind].
  apply finish_agree; [exact Hae|].
  apply lse_loop_passed; [exact Hmax | exact E1].
Qed.

End LogSumExp.

(** X10.  In exact arithmetic the log-sum-exp trick changes nothing: on
    a non-empty problem with positive marginals, [σ <> 0] and
    [maxite >= 1], [logdomainIPFP_with_LSE_trick] and [logdomainIPFP]
    both return, with the same coupling, potentials, values and number of
    iterations. *)
Theorem LSE_trick_returns_what_logdomainIPFP_returns :
  forall (self : OT.OTProblem) (σ tol : R) (maxite : nat),
    (forall x, (x < OT.nbx self)%nat -> 0 < OT.n_x self x) ->
    (forall y, (y < OT.nby self)%nat -> 0 < OT.m_y self y) ->
    (0 < OT.nbx self)%nat -> (0 < OT.nby self)%nat -> (0 < maxite)%nat ->
    σ <> 0 ->
    exists o1 o2,
      OT.LSE.logdomainIPFP_with_LSE_trick self σ tol maxite = Ok o1 /\
      OT.LogDomain.logdomainIPFP self σ tol maxite = Ok o2 /\
      LogDomainSteps.same_output self o1 o2.
Proof.
  intros self σ tol maxite _ _ Hx Hy Hmax Hσ.
  exact (LSE_same_output self σ tol maxite Hx Hy Hσ Hmax).
Qed.

(** Witness of X10 on the one-by-one problem. *)
Lemma LSE_trick_returns_what_logdomainIPFP_returns_witness :
  exists o1 o2,
    OT.LSE.logdomainIPFP_with_LSE_trick Examples.P_unit 1 (1 / 8) 10 = Ok o1 /\
    OT.LogDomain.logdomainIPFP Examples.P_unit 1 (1 / 8) 10 = Ok o2 /\
    LogDomainSteps.same_output Examples.P_unit o1 o2.
Proof.
  apply (LSE_trick_returns_what_logdomainIPFP_returns Examples.P_unit 1 (1 / 8) 10);
    simpl; intros; try lra; lia.
Defined.

(** ** The simplex method of [MatrixTableau] *)

Section SwapVariables.

(** Exchanging a basic and a nonbasic variable, in the data and in a
    point, leaves every pairing of the data with the point unchanged. *)
Variables (n m : nat) (f g : vec) (bdep nent : nat).

Hypothesis bdep_lt : (bdep < n)%nat.
Hypothesis nent_lt : (nent < m)%nat.

Lemma swap_pairing_forward (xB xN : vec) :
  np_sum n (fun b => (if Nat.eqb b bdep then g nent else f b)
                     * (if Nat.eqb b bdep then xN nent else xB b))
  + np_sum m (fun k => (if Nat.eqb k nent then f bdep else g k)
                       * (if Nat.eqb k nent then xB bdep else xN k))
  = np_sum n (fun b => f b * xB b) + np_sum m (fun k => g k * xN k).
Proof.
  rewrite (np_sum_ext n _ (fun b => if Nat.eqb b bdep then g nent * xN nent
                                    else f b * xB b))
    by (intros b _; destruct (Nat.eqb b bdep); reflexivity).
  rewrite (np_sum_ext m _ (fun k => if Nat.eqb k nent then f bdep * xB bdep
                                    else g k * xN k))
    by (intros k _; destruct (Nat.eqb k nent); reflexivity).
  rewrite !np_sum_update by assumption. lra.
Qed.

Lemma swap_pairing_backward (xB' xN' : vec) :
  np_sum n (fun b => f b * (if Nat.eqb b bdep then xN' nent else xB' b))
  + np_sum m (fun k => g k * (if Nat.eqb k nent then xB' bdep else xN' k))
  = np_sum n (fun b => (if Nat.eqb b bdep then g nent else f b) * xB' b)
    + np_sum m (fun k => (if Nat.eqb k nent then f bdep else g k) * xN' k).
Proof.
  rewrite (np_sum_ext n (fun b => f b * (if Nat.eqb b bdep then xN' nent else xB' b))
             (fun b => if Nat.eqb b bdep then f bdep * xN' nent else f b * xB' b)).
  2:{ intros b _. destruct (Nat.eqb_spec b bdep) as [->|_]; reflexivity. }
  rewrite (np_sum_ext m (fun k => g k * (if Nat.eqb k nent then xB' bdep else xN' k))
             (fun k => if Nat.eqb k nent then g nent * xB' bdep else g k * xN' k)).
  2:{ intros k _. destruct (Nat.eqb_spec k nent) as [->|_]; reflexivity. }
  rewrite (np_sum_ext n (fun b => (if Nat.eqb b bdep then g nent else f b) * xB' b)
             (fun b => if Nat.eqb b bdep then g nent * xB' bdep else f b * xB' b)).
  2:{ intros b _. destruct (Nat.eqb_spec b bdep) as [->|_]; reflexivity. }
  rewrite (np_sum_ext m (fun k => (if Nat.eqb k nent then f bdep else g k) * xN' k)
             (fun k => if Nat.eqb k nent then f bdep * xN' nent else g k * xN' k)).
  2:{ intros k _. destruct (Nat.eqb_spec k nent) as [->|_]; reflexivity. }
  rewrite !np_sum_update by assumption. lra.
Qed.

End SwapVariables.

Section SimplexFacts.

Import NamedTableau.

(** Pairing a column with the dual variable is pairing its resolved
    direction with the costs. *)
Lemma dual_pairing n (B : mat) (c y a z : vec) :
  solves n (transpose B) c y -> solves n B a z -> dot n c z = dot n y a.
Proof.
  intros Hy Hz. unfold dot.
  rewrite (np_sum_ext n (fun b => c b * z b)
             (fun b => np_sum n (fun i => y i * (B i b * z b)))).
  2:{ intros b Hb. specialize (Hy b Hb). unfold matvec, transpose in Hy.
      rewrite <- Hy, <- np_sum_scal_r. apply np_sum_ext. intros i _. ring. }
  rewrite np_sum_swap. apply np_sum_ext. intros i Hi.
  rewrite np_sum_scal. specialize (Hz i Hi). unfold matvec in Hz. rewrite Hz.
  reflexivity.
Qed.

Lemma candidates_spec names t ns :
  forall cs,
    candidates names t ns = Ok cs ->
    (forall c, In c cs -> In (fst c) ns /\ t (fst c) < 0) /\
    (forall k, In k ns -> t k < 0 -> exists name, In (k, name) cs).
Proof.
  induction ns as [|k0 ns IH]; intros cs H; simpl in H.
  - injection H as <-. split; [intros c []|intros k []].
  - destruct (Rlt_dec (t k0) 0) as [Hlt|Hge].
    + destruct (getname names k0) as [name|]; cbn [bind] in H; [|discriminate].
      destruct (candidates names t ns) as [rest|]; cbn [bind] in H; [|discriminate].
      injection H as <-. destruct (IH rest eq_refl) as [H1 H2]. split.
      * intros c [<-|Hin]; [simpl; auto|].
        destruct (H1 c Hin). split; [right|]; assumption.
      * intros k [<-|Hin] Hk; [exists name; left; reflexivity|].
        destruct (H2 k Hin Hk) as [nm Hnm]. exists nm. right. exact Hnm.
    + destruct (IH cs H) as [H1 H2]. split.
      * intros c Hin. destruct (H1 c Hin). split; [right|]; assumption.
      * intros k [<-|Hin] Hk; [lra|]. exact (H2 k Hin Hk).
Qed.

Lemma min_name_In best l : In (min_name best l) (best :: l).
Proof.
  revert best. induction l as [|c l IH]; intros best; simpl; [auto|].
  destruct (IH (if String.ltb (snd c) (snd best) then c else best)) as [H|H].
  - destruct (String.ltb (snd c) (snd best)); rewrite <- H; auto.
  - right. right. exact H.
Qed.

(** The entering rule: a variable of negative reduced cost, or [None]
    when there is none. *)
Lemma determine_entering_spec self r :
  determine_entering self = Ok r ->
  exists y,
    linalg_solve (Pivoter.nbb (MatrixTableau.pivoter (tab self)))
                 (transpose (Pivoter.B_i_b (MatrixTableau.pivoter (tab self))))
                 (MatrixTableau.c_b (tab self)) = Ok y /\
    match r with
    | None => forall k, (k < MatrixTableau.nbn (tab self))%nat -> 0 <= t_n (tab self) y k
    | Some k => (k < MatrixTableau.nbn (tab self))%nat /\ t_n (tab self) y k < 0
    end.
Proof.
  unfold determine_entering. intros H.
  destruct (linalg_solve _ _ _) as [y|]; cbn [bind] in H; [|discriminate].
  exists y. split; [reflexivity|].
  destruct (candidates _ _ _) as [cs|] eqn:Ec; cbn [bind] in H; [|discriminate].
  destruct (candidates_spec _ _ _ cs Ec) as [H1 H2].
  destruct cs as [|c cs'].
  - injection H as <-. intros k Hk.
    destruct (Rlt_dec (t_n (tab self) y k) 0) as [Hlt|Hge]; [|lra].
    destruct (H2 k) as [nm []]; [apply in_seq; lia | exact Hlt].
  - injection H as <-.
    destruct (H1 (min_name c cs') (min_name_In c cs')) as [Hin Hlt].
    apply in_seq in Hin. split; [lia | exact Hlt].
Qed.

(** What [MatrixTableau.update] writes. *)
Lemma MatrixTableau_update_spec T bdep nent eps T' :
  MatrixTableau.update T bdep nent eps = Ok T' ->
  let P := MatrixTableau.pivoter T in
  exists z,
    linalg_solve (Pivoter.nbb P) (Pivoter.B_i_b P)
                 (fun i => MatrixTableau.N_i_n T i nent) = Ok z /\
    (bdep < Pivoter.nbb P)%nat /\
    Pivoter.nbb (MatrixTableau.pivoter T') = Pivoter.nbb P /\
    Pivoter.B_i_b (MatrixTableau.pivoter T') =
      (fun i b => if Nat.eqb b bdep then MatrixTableau.N_i_n T i nent
                  else Pivoter.B_i_b P i b) /\
    Pivoter.x_b (MatrixTableau.pivoter T') =
      (fun b => if Nat.eqb b bdep then eps else Pivoter.x_b P b - eps * z b) /\
    MatrixTableau.N_i_n T' =
      (fun i k => if Nat.eqb k nent then Pivoter.B_i_b P i bdep
                  else MatrixTableau.N_i_n T i k) /\
    MatrixTableau.d_i T' = MatrixTableau.d_i T /\
    MatrixTableau.c_b T' =
      (fun b => if Nat.eqb b bdep then MatrixTableau.c_n T nent
                else MatrixTableau.c_b T b) /\
    MatrixTableau.c_n T' =
      (fun k => if Nat.eqb k nent then MatrixTableau.c_b T bdep
                else MatrixTableau.c_n T k) /\
    MatrixTableau.nbn T' = MatrixTableau.nbn T.
Proof.
  unfold MatrixTableau.update, Pivoter.update. intros H. cbv zeta in *.
  destruct (linalg_solve _ _ _) as [z|]; cbn [bind] in H; [|discriminate].
  exists z. split; [reflexivity|].
  destruct (Nat.ltb_spec bdep (Pivoter.nbb (MatrixTableau.pivoter T))) as [Hlt|_];
    cbn [bind] in H; [|discriminate].
  injection H as <-. cbn. repeat split; auto.
Qed.

Lemma update_spec self bdep nent eps self' :
  update self bdep nent eps = Ok self' ->
  (nent < MatrixTableau.nbn (tab self))%nat /\
  MatrixTableau.update (tab self) bdep nent eps = Ok (tab self').
Proof.
  unfold update. intros H.
  destruct (Nat.ltb_spec nent (MatrixTableau.nbn (tab self))) as [Hlt|_];
    [|discriminate].
  destruct (Nat.ltb_spec bdep (Pivoter.nbb (MatrixTableau.pivoter (tab self))))
    as [_|_]; [|discriminate].
  cbn [andb] in H. split; [exact Hlt|].
  destruct (MatrixTableau.update (tab self) bdep nent eps) as [T'|];
    cbn [bind] in H; [|discriminate].
  destruct (getname (names_nonbasic self) nent) as [nn|]; cbn [bind] in H; [|discriminate].
  destruct (getname (names_basic self) bdep) as [nb|]; cbn [bind] in H; [|discriminate].
  injection H as <-. reflexivity.
Qed.

(** The pivot leaves the program what it was, up to the exchange of the
    two variables. *)
Lemma update_same_program T bdep nent eps T' :
  (nent < MatrixTableau.nbn T)%nat ->
  MatrixTableau.update T bdep nent eps = Ok T' ->
  LP.same_program T T'.
Proof.
  intros Hn Hu.
  destruct (MatrixTableau_update_spec T bdep nent eps T' Hu)
    as [z [_ [Hb [Enb [EB [_ [EN [Ed [Ecb [Ecn Enn]]]]]]]]]].
  unfold LP.same_program, LP.feasible, LP.value, dot. cbv zeta.
  rewrite Enb, EB, EN, Ed, Ecb, Ecn, Enn. split.
  - intros xB xN [HxB [HxN Hsys]].
    exists (fun b => if Nat.eqb b bdep then xN nent else xB b),
           (fun k => if Nat.eqb k nent then xB bdep else xN k).
    split; [split; [|split]|].
    + intros b Hbb. destruct (Nat.eqb b bdep); [apply HxN; exact Hn | apply HxB; exact Hbb].
    + intros k Hk. destruct (Nat.eqb k nent); [apply HxB; exact Hb | apply HxN; exact Hk].
    + intros i Hi. rewrite <- (Hsys i Hi).
      exact (swap_pairing_forward _ _
               (fun b => Pivoter.B_i_b (MatrixTableau.pivoter T) i b)
               (fun k => MatrixTableau.N_i_n T i k) bdep nent Hb Hn xB xN).
    + exact (swap_pairing_forward _ _ (MatrixTableau.c_b T) (MatrixTableau.c_n T)
               bdep nent Hb Hn xB xN).
  - intros xB' xN' [HxB [HxN Hsys]].
    exists (fun b => if Nat.eqb b bdep then xN' nent else xB' b),
           (fun k => if Nat.eqb k nent then xB' bdep else xN' k).
    split; [split; [|split]|].
    + intros b Hbb. destruct (Nat.eqb b bdep); [apply HxN; exact Hn | apply HxB; exact Hbb].
    + intros k Hk. destruct (Nat.eqb k nent); [apply HxB; exact Hb | apply HxN; exact Hk].
    + intros i Hi. rewrite <- (Hsys i Hi).
      exact (swap_pairing_backward _ _
               (fun b => Pivoter.B_i_b (MatrixTableau.pivoter T) i b)
               (fun k => MatrixTableau.N_i_n T i k) bdep nent Hb Hn xB' xN').
    + exact (swap_pairing_backward _ _ (MatrixTableau.c_b T) (MatrixTableau.c_n T)
               bdep nent Hb Hn xB' xN').
Qed.

Lemma same_program_refl T : LP.same_program T T.
Proof. split; intros xB xN H; exists xB, xN; auto. Qed.

Lemma same_program_trans T1 T2 T3 :
  LP.same_program T1 T2 -> LP.same_program T2 T3 -> LP.same_program T1 T3.
Proof.
  intros [F12 B12] [F23 B23]. split.
  - intros xB xN H. destruct (F12 xB xN H) as [xB2 [xN2 [H2 E2]]].
    destruct (F23 xB2 xN2 H2) as [xB3 [xN3 [H3 E3]]].
    exists xB3, xN3. split; [exact H3 | congruence].
  - intros xB xN H. destruct (B23 xB xN H) as [xB2 [xN2 [H2 E2]]].
    destruct (B12 xB2 xN2 H2) as [xB1 [xN1 [H1 E1]]].
    exists xB1, xN1. split; [exact H1 | congruence].
Qed.

(** One pass of [solve] that pivots: the basic solution stays feasible
    and the objective moves by [- epsilon * t_n[nent]]. *)
Lemma pivot_step self k bdep eps self' :
  LP.basic_feasible (tab self) ->
  determine_entering self = Ok (Some k) ->
  determine_departing self k = Ok (bdep, eps) ->
  update self bdep k eps = Ok self' ->
  LP.basic_feasible (tab self') /\ obj self <= obj self' /\
  LP.same_program (tab self) (tab self').
Proof.
  intros [HBx Hx] He Hd Hu.
  destruct (determine_entering_spec self _ He) as [y [Ey [Hk Ht]]].
  destruct (update_spec self bdep k eps self' Hu) as [_ Hu'].
  destruct (MatrixTableau_update_spec _ _ _ _ _ Hu')
    as [z [Ez [Hb [Enb [EB [Ex [EN [Ed [Ecb [Ecn Enn]]]]]]]]]].
  destruct (linalg_solve_Ok _ _ _ _ Ez) as [_ Hz].
  destruct (linalg_solve_Ok _ _ _ _ Ey) as [_ Hy].
  unfold determine_departing, MatrixTableau.determine_departing,
    Pivoter.determine_departing in Hd.
  rewrite Ez in Hd. cbn [bind] in Hd. rewrite thedic_ratios in Hd.
  destruct (ratio_test _ _ _ _ _ Hd) as [_ [Hzb [Heps Hmin]]].
  assert (He0 : 0 <= eps)
    by exact (step_nonneg _ _ z bdep eps Hx Hb Hzb Heps).
  assert (H0 : Pivoter.x_b (MatrixTableau.pivoter (tab self)) bdep - eps * z bdep = 0)
    by exact (step_zero_at_departing _ z bdep eps Hzb Heps).
  split; [|split].
  - unfold LP.basic_feasible. cbv zeta. rewrite Enb, EB, Ex, Ed. split.
    + intros i Hi.
      exact (pivot_keeps_system _ _ _ _ _ z bdep eps HBx Hz Hb Hzb Heps i Hi).
    + intros b Hbb.
      exact (pivot_keeps_nonneg _ _ z bdep eps Hx Hb Hzb Heps Hmin b Hbb).
  - unfold obj. rewrite Enb, Ex, Ecb. unfold dot.
    rewrite (np_sum_ext _
               (fun b => (if Nat.eqb b bdep then eps
                          else Pivoter.x_b (MatrixTableau.pivoter (tab self)) b - eps * z b)
                         * (if Nat.eqb b bdep then MatrixTableau.c_n (tab self) k
                            else MatrixTableau.c_b (tab self) b))
               (fun b => if Nat.eqb b bdep then eps * MatrixTableau.c_n (tab self) k
                         else (Pivoter.x_b (MatrixTableau.pivoter (tab self)) b - eps * z b)
                              * MatrixTableau.c_b (tab self) b))
      by (intros b _; destruct (Nat.eqb b bdep); reflexivity).
    rewrite np_sum_update by exact Hb. rewrite H0.
    rewrite (np_sum_ext _ (fun b => (Pivoter.x_b (MatrixTableau.pivoter (tab self)) b
                                     - eps * z b) * MatrixTableau.c_b (tab self) b)
               (fun b => Pivoter.x_b (MatrixTableau.pivoter (tab self)) b
                         * MatrixTableau.c_b (tab self) b
                         - eps * (MatrixTableau.c_b (tab self) b * z b)))
      by (intros; ring).
    rewrite np_sum_minus, np_sum_scal.
    assert (Hp := dual_pairing _ _ _ y _ z Hy Hz). unfold dot in Hp. rewrite Hp.
    unfold t_n in Ht.
    rewrite (np_sum_ext _ (fun i => y i * MatrixTableau.N_i_n (tab self) i k)
               (fun i => MatrixTableau.N_i_n (tab self) i k * y i)) by (intros; ring).
    nra.
  - exact (update_same_program _ _ _ _ _ Hk Hu').
Qed.

(** When no variable can enter, the basic solution is optimal. *)
Lemma no_entering_optimal self :
  LP.basic_feasible (tab self) ->
  determine_entering self = Ok None ->
  (forall xB xN, LP.feasible (tab self) xB xN -> LP.value (tab self) xB xN <= obj self) /\
  LP.feasible (tab self) (Pivoter.x_b (MatrixTableau.pivoter (tab self))) (fun _ => 0) /\
  LP.value (tab self) (Pivoter.x_b (MatrixTableau.pivoter (tab self))) (fun _ => 0)
  = obj self.
Proof.
  intros [HBx Hx] He.
  destruct (determine_entering_spec self _ He) as [y [Ey Ht]].
  destruct (linalg_solve_Ok _ _ _ _ Ey) as [_ Hy].
  set (T := tab self) in *. set (P := MatrixTableau.pivoter T) in *.
  assert (Hdual : forall x : vec,
            dot (Pivoter.nbb P) (MatrixTableau.c_b T) x
            = dot (Pivoter.nbb P) y (matvec (Pivoter.nbb P) (Pivoter.B_i_b P) x)).
  { intros x. unfold dot, matvec.
    rewrite (np_sum_ext _ (fun b => MatrixTableau.c_b T b * x b)
               (fun b => np_sum (Pivoter.nbb P)
                           (fun i => y i * (Pivoter.B_i_b P i b * x b)))).
    2:{ intros b Hb. specialize (Hy b Hb). unfold matvec, transpose in Hy.
        rewrite <- Hy, <- np_sum_scal_r. apply np_sum_ext. intros i _. ring. }
    rewrite np_sum_swap. apply np_sum_ext. intros i _. rewrite np_sum_scal. reflexivity. }
  assert (Hobj : obj self = dot (Pivoter.nbb P) y (MatrixTableau.d_i T)).
  { unfold obj. fold T P. unfold dot at 1.
    rewrite (np_sum_ext _ _ (fun b => MatrixTableau.c_b T b * Pivoter.x_b P b))
      by (intros; ring).
    fold (dot (Pivoter.nbb P) (MatrixTableau.c_b T) (Pivoter.x_b P)).
    rewrite Hdual. unfold dot. apply np_sum_ext. intros i Hi.
    rewrite (HBx i Hi). reflexivity. }
  split; [|split].
  - intros xB xN [HxB [HxN Hsys]]. unfold LP.value. fold T P.
    rewrite Hdual, Hobj. unfold dot, matvec.
    rewrite (np_sum_ext _ (fun i => y i * np_sum (Pivoter.nbb P)
                                            (fun j => Pivoter.B_i_b P i j * xB j))
               (fun i => y i * MatrixTableau.d_i T i
                         - np_sum (MatrixTableau.nbn T)
                             (fun k => y i * (MatrixTableau.N_i_n T i k * xN k)))).
    2:{ intros i Hi. rewrite np_sum_scal. specialize (Hsys i Hi). fold T P in Hsys.
        rewrite <- Hsys. ring. }
    rewrite np_sum_minus, np_sum_swap.
    assert (Hred : np_sum (MatrixTableau.nbn T)
                     (fun k => MatrixTableau.c_n T k * xN k)
                   <= np_sum (MatrixTableau.nbn T)
                        (fun k => np_sum (Pivoter.nbb P)
                                    (fun i => y i * (MatrixTableau.N_i_n T i k * xN k)))).
    { apply np_sum_le. intros k Hk. specialize (Ht k Hk). unfold t_n in Ht.
      fold T P in Ht.
      rewrite (np_sum_ext _ (fun i => y i * (MatrixTableau.N_i_n T i k * xN k))
                 (fun i => (MatrixTableau.N_i_n T i k * y i) * xN k)) by (intros; ring).
      rewrite np_sum_scal_r. specialize (HxN k Hk). nra. }
    lra.
  - unfold LP.feasible. cbv zeta. fold T P. split; [exact Hx|]. split; [intros; lra|].
    intros i Hi.
    rewrite (np_sum_ext (MatrixTableau.nbn T) _ (fun _ => 0)) by (intros; ring).
    rewrite np_sum_zero, Rplus_0_r. exact (HBx i Hi).
  - unfold LP.value, obj. fold T P. unfold dot.
    rewrite (np_sum_ext (MatrixTableau.nbn T) _ (fun _ => 0)) by (intros; ring).
    rewrite np_sum_zero, Rplus_0_r. apply np_sum_ext. intros; ring.
Qed.

(** The tableau that [solve] returns. *)
Lemma solve_returns fuel :
  forall self final,
    LP.basic_feasible (tab self) ->
    solve fuel self = Ok (Some final) ->
    LP.basic_feasible (tab final) /\ determine_entering final = Ok None /\
    LP.same_program (tab self) (tab final) /\ obj self <= obj final.
Proof.
  induction fuel as [|fuel IH]; intros self final Hf Hs; simpl in Hs; [discriminate|].
  destruct (determine_entering self) as [[k|]|] eqn:He; cbn [bind] in Hs;
    [| |discriminate].
  - destruct (determine_departing self k) as [[bdep eps]|] eqn:Hd; cbn [bind] in Hs;
      [|discriminate].
    cbn [fst snd] in Hs.
    destruct (update self bdep k eps) as [self'|] eqn:Hu; cbn [bind] in Hs;
      [|discriminate].
    destruct (pivot_step self k bdep eps self' Hf He Hd Hu) as [Hf' [Ho Hp]].
    destruct (IH self' final Hf' Hs) as [Hff [Hn [Hp' Ho']]].
    split; [exact Hff|]. split; [exact Hn|].
    split; [exact (same_program_trans _ _ _ Hp Hp') | lra].
  - injection Hs as <-. split; [exact Hf|]. split; [exact He|].
    split; [apply same_program_refl | lra].
Qed.

Lemma solve_optimal fuel self final :
  LP.basic_feasible (tab self) ->
  solve fuel self = Ok (Some final) ->
  (forall xB xN, LP.feasible (tab self) xB xN -> LP.value (tab self) xB xN <= obj final) /\
  (exists xB xN, LP.feasible (tab self) xB xN /\ LP.value (tab self) xB xN = obj final).
Proof.
  intros Hf Hs.
  destruct (solve_returns fuel self final Hf Hs) as [Hff [Hn [[Hfw Hbw] _]]].
  destruct (no_entering_optimal final Hff Hn) as [Hopt [Hfeas Hval]].
  split.
  - intros xB xN H. destruct (Hfw xB xN H) as [xB' [xN' [H' E]]].
    rewrite <- E. apply Hopt. exact H'.
  - destruct (Hbw _ _ Hfeas) as [xB [xN [H E]]].
    exists xB, xN. split; [exact H | congruence].
Qed.

(** The constructor sets [x_b = B^-1 d]. *)
Lemma create_spec_named nbb nbn B N d c_n c_b nb nn self :
  create nbb nbn B N d c_n c_b nb nn = Ok self ->
  Pivoter.nbb (MatrixTableau.pivoter (tab self)) = nbb /\
  Pivoter.B_i_b (MatrixTableau.pivoter (tab self)) = B /\
  MatrixTableau.d_i (tab self) = d /\
  solves nbb B d (Pivoter.x_b (MatrixTableau.pivoter (tab self))).
Proof.
  unfold create. intros H.
  destruct (linalg_solve nbb B d) as [x|] eqn:Ex; cbn [bind] in H; [|discriminate].
  injection H as <-. cbn. repeat split.
  exact (proj2 (linalg_solve_Ok _ _ _ _ Ex)).
Qed.

End SimplexFacts.

(** ** [solve] on the one-constraint program *)

Section SimplexRun.

Import String NamedTableau.

(** The run: [x_0] enters, [s_0] departs with [epsilon = 1], and then no
    variable can enter. *)
Lemma simplex_example_run :
  exists s s' eps,
    SimplexExample.start = Ok s /\ LP.basic_feasible (tab s) /\
    determine_entering s = Ok (Some O) /\
    determine_departing s O = Ok (O, eps) /\
    update s O O eps = Ok s' /\
    determine_entering s' = Ok None.
Proof.
  destruct (linalg_solve_one (fun _ _ => 1) (fun _ => 1)) as [x [Ex Hx]];
    [reflexivity|].
  destruct (linalg_solve_one (transpose (fun _ _ => 1)) (fun _ => 0)) as [y [Ey Hy]];
    [reflexivity|].
  destruct (linalg_solve_one (fun _ _ => 1) (fun i => (fun _ _ : nat => 1) i O))
    as [z [Ez Hz]]; [reflexivity|].
  assert (Hstart : SimplexExample.start =
    Ok {| tab := {| MatrixTableau.pivoter :=
                      {| Pivoter.nbb := 1; Pivoter.B_i_b := fun _ _ => 1;
                         Pivoter.x_b := x |};
                    MatrixTableau.N_i_n := fun _ _ => 1;
                    MatrixTableau.d_i := fun _ => 1;
                    MatrixTableau.c_b := fun _ => 0;
                    MatrixTableau.c_n := fun _ => 1;
                    MatrixTableau.nbn := 1 |};
          names_basic := map (fun b => String.append "s_"%string (str b)) (seq 0 1);
          names_nonbasic := map (fun n => String.append "x_"%string (str n)) (seq 0 1) |}).
  { unfold SimplexExample.start, create. rewrite Ex. reflexivity. }
  eexists. eexists. exists (x O / z O).
  split; [exact Hstart|]. split; [|split; [|split; [|split]]].
  - split; cbn.
    + intros i Hi. assert (i = O) as -> by lia. unfold matvec. simpl. rewrite Hx. lra.
    + intros b Hb. assert (b = O) as -> by lia. rewrite Hx. lra.
  - unfold determine_entering. cbn [tab MatrixTableau.pivoter Pivoter.nbb Pivoter.B_i_b
                                     MatrixTableau.c_b MatrixTableau.nbn names_nonbasic].
    rewrite Ey. cbn [bind]. simpl.
    destruct (Rlt_dec _ 0) as [_|Hn]; [reflexivity|].
    exfalso. apply Hn. unfold t_n. simpl. rewrite Hy. lra.
  - unfold determine_departing, MatrixTableau.determine_departing,
      Pivoter.determine_departing.
    cbn [tab MatrixTableau.pivoter Pivoter.nbb Pivoter.B_i_b MatrixTableau.N_i_n].
    rewrite Ez. cbn [bind]. unfold Pivoter.thedic. simpl.
    destruct (Rlt_dec 0 (z O)) as [_|Hn]; [reflexivity | exfalso; apply Hn; rewrite Hz; lra].
  - unfold update, MatrixTableau.update, Pivoter.update.
    cbn [tab MatrixTableau.pivoter Pivoter.nbb Pivoter.B_i_b MatrixTableau.N_i_n
             MatrixTableau.nbn Nat.ltb Nat.leb].
    rewrite Ez. cbn [bind]. reflexivity.
  - unfold determine_entering.
    cbn [tab MatrixTableau.pivoter Pivoter.nbb Pivoter.B_i_b
             MatrixTableau.c_b MatrixTableau.nbn names_nonbasic].
    match goal with
    | |- context [linalg_solve 1 ?M ?c] =>
        destruct (linalg_solve_one M c) as [y' [Ey' Hy']]; [reflexivity|]
    end.
    rewrite Ey'. cbn [bind]. simpl in Hy'. simpl.
    destruct (Rlt_dec _ 0) as [Hlt|_]; [|reflexivity].
    exfalso. unfold t_n in Hlt. simpl in Hlt. rewrite Hy' in Hlt. lra.
Qed.

Lemma simplex_example_solve :
  exists s final,
    SimplexExample.start = Ok s /\ LP.basic_feasible (tab s) /\
    solve 2 s = Ok (Some final).
Proof.
  destruct simplex_example_run as [s [s' [eps [Hs [Hf [He [Hd [Hu Hn]]]]]]]].
  exists s, s'. split; [exact Hs|]. split; [exact Hf|].
  simpl. rewrite He. cbn [bind]. rewrite Hd. cbn [bind fst snd].
  rewrite Hu. cbn [bind]. rewrite Hn. reflexivity.
Qed.

End SimplexRun.

(** X11.  When [MatrixTableau.solve], started from a tableau whose basic
    solution is feasible ([B x_b = d], [x_b >= 0]), returns, the
    objective [x_b . c_b] of the tableau it leaves is the optimal value
    of the program [max c_b . x_B + c_n . x_N], [B x_B + N x_N = d],
    [x >= 0] it was started on: no feasible point does better, and some
    feasible point attains it. *)
Theorem MatrixTableau_solve_returns_optimum :
  forall (self final : NamedTableau.t) (fuel : nat),
    LP.basic_feasible (NamedTableau.tab self) ->
    NamedTableau.solve fuel self = Ok (Some final) ->
    (forall xB xN,
       LP.feasible (NamedTableau.tab self) xB xN ->
       LP.value (NamedTableau.tab self) xB xN <= NamedTableau.obj final) /\
    (exists xB xN,
       LP.feasible (NamedTableau.tab self) xB xN /\
       LP.value (NamedTableau.tab self) xB xN = NamedTableau.obj final).
Proof.
  intros self final fuel Hf Hs. exact (solve_optimal fuel self final Hf Hs).
Qed.

(** Witness of X11: maximise [x] subject to [s + x = 1]. *)
Lemma MatrixTableau_solve_returns_optimum_witness :
  exists s final,
    SimplexExample.start = Ok s /\
    NamedTableau.solve 2 s = Ok (Some final) /\
    (forall xB xN,
       LP.feasible (NamedTableau.tab s) xB xN ->
       LP.value (NamedTableau.tab s) xB xN <= NamedTableau.obj final) /\
    (exists xB xN,
       LP.feasible (NamedTableau.tab s) xB xN /\
       LP.value (NamedTableau.tab s) xB xN = NamedTableau.obj final).
Proof.
  destruct simplex_example_solve as [s [final [Hs [Hf Hsol]]]].
  exists s, final. split; [exact Hs|]. split; [exact Hsol|].
  exact (MatrixTableau_solve_returns_optimum s final 2 Hf Hsol).
Defined.

(** X12.  A pass of [MatrixTableau.solve] that pivots, from a tableau
    whose basic solution is feasible, leaves a tableau whose basic
    solution is feasible and whose objective [x_b . c_b] is not
    smaller. *)
Theorem MatrixTableau_pivot_keeps_feasible_and_improves :
  forall (self self' : NamedTableau.t) (nent bdep : nat) (eps : R),
    LP.basic_feasible (NamedTableau.tab self) ->
    NamedTableau.determine_entering self = Ok (Some nent) ->
    NamedTableau.determine_departing self nent = Ok (bdep, eps) ->
    NamedTableau.update self bdep nent eps = Ok self' ->
    LP.basic_feasible (NamedTableau.tab self') /\
    NamedTableau.obj self <= NamedTableau.obj self'.
Proof.
  intros self self' nent bdep eps Hf He Hd Hu.
  destruct (pivot_step self nent bdep eps self' Hf He Hd Hu) as [H1 [H2 _]].
  split; assumption.
Qed.

(** Witness of X12: the pivot of the one-constraint program. *)
Lemma MatrixTableau_pivot_keeps_feasible_and_improves_witness :
  exists s s',
    SimplexExample.start = Ok s /\
    LP.basic_feasible (NamedTableau.tab s') /\
    NamedTableau.obj s <= NamedTableau.obj s'.
Proof.
  destruct simplex_example_run as [s [s' [eps [Hs [Hf [He [Hd [Hu _]]]]]]]].
  exists s, s'. split; [exact Hs|].
  exact (MatrixTableau_pivot_keeps_feasible_and_improves s s' 0 0 eps Hf He Hd Hu).
Defined.

(** X13.  [determine_entering] answers [None] exactly when no nonbasic
    variable has a negative reduced cost [t_n = N^T y - c_n], where
    [B^T y = c_b]; otherwise it answers the index of a nonbasic variable
    whose reduced cost is negative. *)
Theorem determine_entering_reduced_cost :
  forall (self : NamedTableau.t) (r : option nat),
    NamedTableau.determine_entering self = Ok r ->
    exists y,
      solves (Pivoter.nbb (MatrixTableau.pivoter (NamedTableau.tab self)))
             (transpose (Pivoter.B_i_b (MatrixTableau.pivoter (NamedTableau.tab self))))
             (MatrixTableau.c_b (NamedTableau.tab self)) y /\
      match r with
      | None =>
          forall k, (k < MatrixTableau.nbn (NamedTableau.tab self))%nat ->
                    0 <= NamedTableau.t_n (NamedTableau.tab self) y k
      | Some k =>
          (k < MatrixTableau.nbn (NamedTableau.tab self))%nat /\
          NamedTableau.t_n (NamedTableau.tab self) y k < 0
      end.
Proof.
  intros self r H.
  destruct (determine_entering_spec self r H) as [y [Ey Hr]].
  exists y. split; [exact (proj2 (linalg_solve_Ok _ _ _ _ Ey)) | exact Hr].
Qed.

(** Witness of X13: the first entering variable of the one-constraint
    program. *)
Lemma determine_entering_reduced_cost_witness :
  exists s y,
    SimplexExample.start = Ok s /\
    solves (Pivoter.nbb (MatrixTableau.pivoter (NamedTableau.tab s)))
           (transpose (Pivoter.B_i_b (MatrixTableau.pivoter (NamedTableau.tab s))))
           (MatrixTableau.c_b (NamedTableau.tab s)) y /\
    (0 < MatrixTableau.nbn (NamedTableau.tab s))%nat /\
    NamedTableau.t_n (NamedTableau.tab s) y O < 0.
Proof.
  destruct simplex_example_run as [s [s' [eps [Hs [Hf [He _]]]]]].
  destruct (determine_entering_reduced_cost s (Some O) He) as [y [Hy [Hk Ht]]].
  exists s, y. split; [exact Hs|]. split; [exact Hy|]. split; [exact Hk | exact Ht].
Defined.

(** ** What [is_NashEq] checks *)

Section NashCheck.

Variable G : Bimatrix_game.t.

Lemma eye_is_strategy n i : (i < n)%nat -> Nash.is_strategy n (Bimatrix_game.eye i).
Proof.
  intros Hi. split.
  - intros k _. unfold Bimatrix_game.eye, identity. destruct (Nat.eqb i k); lra.
  - unfold Bimatrix_game.eye.
    rewrite (np_sum_ext n _ (fun k => identity i k * 1)) by (intros; ring).
    apply (np_sum_identity_l n (fun _ => 1) i Hi).
Qed.

Lemma weighted_average_le n (w a : vec) c :
  Nash.is_strategy n w -> (forall i, (i < n)%nat -> a i <= c) ->
  np_sum n (fun i => w i * a i) <= c.
Proof.
  intros [Hw Hs] Ha.
  apply Rle_trans with (np_sum n (fun i => w i * c)).
  - apply np_sum_le. intros i Hi. specialize (Hw i Hi). specialize (Ha i Hi). nra.
  - rewrite np_sum_scal_r, Hs. lra.
Qed.

Lemma is_NashEq_rows p q tol :
  forallb
    (fun i => negb (Rgtb (dot (Bimatrix_game.nbj G)
                            (Bimatrix_game.vecmat (Bimatrix_game.nbi G)
                               (Bimatrix_game.eye i) (Bimatrix_game.A_i_j G)) q)
                         (dot (Bimatrix_game.nbj G)
                            (Bimatrix_game.vecmat (Bimatrix_game.nbi G) p
                               (Bimatrix_game.A_i_j G)) q + tol)))
    (seq 0 (Bimatrix_game.nbi G)) = true
  <-> forall i, (i < Bimatrix_game.nbi G)%nat ->
        np_sum (Bimatrix_game.nbj G) (fun j => Bimatrix_game.A_i_j G i j * q j)
        <= Nash.payoff G (Bimatrix_game.A_i_j G) p q + tol.
Proof.
  rewrite forallb_forall. unfold Nash.payoff. split.
  - intros H i Hi. specialize (H i). rewrite in_seq in H. specialize (H ltac:(lia)).
    rewrite (row_payoff G _ q i Hi) in H. unfold Rgtb in H.
    destruct (Rgt_dec _ _) as [Hgt|Hle]; [discriminate | lra].
  - intros H i Hin. apply in_seq in Hin.
    assert (Hi : (i < Bimatrix_game.nbi G)%nat) by lia.
    rewrite (row_payoff G _ q i Hi). specialize (H i Hi). unfold Rgtb.
    destruct (Rgt_dec _ _) as [Hgt|Hle]; [exfalso; lra | reflexivity].
Qed.

Lemma is_NashEq_cols p q tol :
  forallb
    (fun j => negb (Rgtb (dot (Bimatrix_game.nbj G)
                            (Bimatrix_game.vecmat (Bimatrix_game.nbi G) p
                               (Bimatrix_game.B_i_j G)) (Bimatrix_game.eye j))
                         (dot (Bimatrix_game.nbj G)
                            (Bimatrix_game.vecmat (Bimatrix_game.nbi G) p
                               (Bimatrix_game.B_i_j G)) q + tol)))
    (seq 0 (Bimatrix_game.nbj G)) = true
  <-> forall j, (j < Bimatrix_game.nbj G)%nat ->
        np_sum (Bimatrix_game.nbi G) (fun i => Bimatrix_game.B_i_j G i j * p i)
        <= Nash.payoff G (Bimatrix_game.B_i_j G) p q + tol.
Proof.
  rewrite forallb_forall. unfold Nash.payoff. split.
  - intros H j Hj. specialize (H j). rewrite in_seq in H. specialize (H ltac:(lia)).
    rewrite (col_payoff G _ p j Hj) in H. unfold Rgtb in H.
    destruct (Rgt_dec _ _) as [Hgt|Hle]; [discriminate | lra].
  - intros H j Hin. apply in_seq in Hin.
    assert (Hj : (j < Bimatrix_game.nbj G)%nat) by lia.
    rewrite (col_payoff G _ p j Hj). specialize (H j Hj). unfold Rgtb.
    destruct (Rgt_dec _ _) as [Hgt|Hle]; [exfalso; lra | reflexivity].
Qed.

Lemma is_NashEq_mixed p q tol :
  Bimatrix_game.is_NashEq G p q tol = true <->
  (forall p', Nash.is_strategy (Bimatrix_game.nbi G) p' ->
     Nash.payoff G (Bimatrix_game.A_i_j G) p' q
     <= Nash.payoff G (Bimatrix_game.A_i_j G) p q + tol) /\
  (forall q', Nash.is_strategy (Bimatrix_game.nbj G) q' ->
     Nash.payoff G (Bimatrix_game.B_i_j G) p q'
     <= Nash.payoff G (Bimatrix_game.B_i_j G) p q + tol).
Proof.
  unfold Bimatrix_game.is_NashEq. rewrite andb_true_iff, is_NashEq_rows, is_NashEq_cols.
  split; intros [HA HB]; split.
  - intros p' Hp'. unfold Nash.payoff at 1. rewrite mixed_payoff_rows.
    apply weighted_average_le; assumption.
  - intros q' Hq'. unfold Nash.payoff at 1. rewrite mixed_payoff_cols.
    apply weighted_average_le; assumption.
  - intros i Hi.
    specialize (HA (Bimatrix_game.eye i) (eye_is_strategy _ i Hi)).
    unfold Nash.payoff at 1 in HA. rewrite (row_payoff G _ q i Hi) in HA. exact HA.
  - intros j Hj.
    specialize (HB (Bimatrix_game.eye j) (eye_is_strategy _ j Hj)).
    unfold Nash.payoff at 1 in HB. rewrite (col_payoff G _ p j Hj) in HB. exact HB.
Qed.

End NashCheck.

(** X14.  [is_NashEq(p_i, q_j, tol)] returns [True] exactly when no
    mixed strategy of the row player earns more than [p_i @ A @ q_j + tol]
    against [q_j] and no mixed strategy of the column player earns more
    than [p_i @ B @ q_j + tol] against [p_i]: testing the pure strategies
    is enough. *)
Theorem is_NashEq_iff_no_mixed_deviation :
  forall (G : Bimatrix_game.t) (p_i q_j : vec) (tol : R),
    Bimatrix_game.is_NashEq G p_i q_j tol = true <->
    (forall p', Nash.is_strategy (Bimatrix_game.nbi G) p' ->
       Nash.payoff G (Bimatrix_game.A_i_j G) p' q_j
       <= Nash.payoff G (Bimatrix_game.A_i_j G) p_i q_j + tol) /\
    (forall q', Nash.is_strategy (Bimatrix_game.nbj G) q' ->
       Nash.payoff G (Bimatrix_game.B_i_j G) p_i q'
       <= Nash.payoff G (Bimatrix_game.B_i_j G) p_i q_j + tol).
Proof.
  intros G p_i q_j tol. exact (is_NashEq_mixed G p_i q_j tol).
Qed.

(** ** The strategies and the values that [lemke_howson_solve] returns *)

Section LemkeHowsonValues.

Import LemkeHowson.

(** The payoff of the normalised pair, under the hypotheses of
    [best_response]. *)
Lemma equilibrium_payoff (I J : nat) (M M' : mat) (c : R) (x y r : vec) (α β : R) :
  (forall i j, (i < I)%nat -> (j < J)%nat -> M i j = M' i j + c) ->
  (forall i, (i < I)%nat -> x i = 0 \/ r i = 0) ->
  (forall i, (i < I)%nat -> r i + np_sum J (fun j => M' i j * y j) = 1) ->
  np_sum J y * α = 1 -> np_sum I x * β = 1 ->
  np_sum I (fun i => (x i * β) * np_sum J (fun j => M i j * (y j * α))) = α + c.
Proof.
  intros HM Hc Hrow Hy Hx.
  rewrite (np_sum_ext I _ (fun i => (α + c) * (x i * β))).
  - rewrite np_sum_scal, np_sum_scal_r, Hx. ring.
  - intros i Hi.
    rewrite (np_sum_ext J _ (fun j => (M' i j * y j) * α + c * (y j * α)))
      by (intros j Hj; rewrite (HM i j Hi Hj); ring).
    rewrite np_sum_plus, np_sum_scal_r, np_sum_scal, np_sum_scal_r, Hy.
    replace (np_sum J (fun j => M' i j * y j)) with (1 - r i)
      by (specialize (Hrow i Hi); lra).
    destruct (Hc i Hi) as [E|E]; rewrite E; ring.
Qed.

Lemma lemke_howson_solve_values (G : Bimatrix_game.t) (fuel : nat) (out : Bimatrix_game.output) :
  Bimatrix_game.lemke_howson_solve G fuel = Ok (Some out) ->
  exists (A' B' : mat) (cA cB : R) (x y r s : vec) (α β : R),
    (forall i j, Bimatrix_game.A_i_j G i j = A' i j + cA) /\
    (forall i j, Bimatrix_game.B_i_j G i j = B' i j + cB) /\
    (forall i, (i < Bimatrix_game.nbi G)%nat ->
       0 <= x i /\ 0 <= r i /\ (x i = 0 \/ r i = 0) /\
       r i + np_sum (Bimatrix_game.nbj G) (fun j => A' i j * y j) = 1) /\
    (forall j, (j < Bimatrix_game.nbj G)%nat ->
       0 <= y j /\ 0 <= s j /\ (y j = 0 \/ s j = 0) /\
       s j + np_sum (Bimatrix_game.nbi G) (fun i => B' i j * x i) = 1) /\
    np_sum (Bimatrix_game.nbj G) y <> 0 /\ α = 1 / np_sum (Bimatrix_game.nbj G) y /\
    np_sum (Bimatrix_game.nbi G) x <> 0 /\ β = 1 / np_sum (Bimatrix_game.nbi G) x /\
    Bimatrix_game.p_i out = (fun i => x i * β) /\
    Bimatrix_game.q_j out = (fun j => y j * α) /\
    Bimatrix_game.val1 out = α + cA /\ Bimatrix_game.val2 out = β + cB.
Proof.
  intros H. unfold Bimatrix_game.lemke_howson_solve in H.
  destruct (Bimatrix_game.np_min _ _ (Bimatrix_game.A_i_j G)) as [minA|];
    cbn [bind] in H; [|discriminate].
  destruct (Bimatrix_game.np_min _ _ (Bimatrix_game.B_i_j G)) as [minB|];
    cbn [bind] in H; [|discriminate].
  cbv zeta in H.
  set (nI := Bimatrix_game.nbi G) in *. set (nJ := Bimatrix_game.nbj G) in *.
  set (A' := fun i j => Bimatrix_game.A_i_j G i j - minA + 1) in *.
  set (B' := fun i j => Bimatrix_game.B_i_j G i j - minB + 1) in *.
  destruct (Tableau.create _ _ _ _) as [tab0|] eqn:Ec; cbn [bind] in H; [|discriminate].
  destruct (Bimatrix_game.pivot_loop _ _ _ _) as [[tab|]|] eqn:El;
    cbn [bind] in H; try discriminate.
  destruct (Bimatrix_game.np_inv _) as [α|] eqn:Eα; cbn [bind] in H; [|discriminate].
  destruct (Bimatrix_game.np_inv _) as [β|] eqn:Eβ in H; cbn [bind] in H; [|discriminate].
  injection H as <-.
  cbn [Bimatrix_game.p_i Bimatrix_game.q_j Bimatrix_game.val1 Bimatrix_game.val2].
  destruct (create_spec _ _ _ _ _ Ec) as [Hm [_ [HA [Hd [Hk _]]]]].
  assert (Hwl0 := create_well_labelled _ _ _ _ Ec).
  assert (Hfe0 : feasible tab0).
  { apply (create_feasible _ _ _ _ (fun _ _ => Rle_0_1) Ec). }
  rewrite <- Hm in El.
  assert (Hn0 := pivot_loop_nonempty _ _ _ _ _ Hwl0 El).
  assert (Hh : at_head (Tableau.nbi tab0) (fun k => mem k (Tableau.k_b tab0))
                       (Tableau.nbi tab0)).
  { rewrite Hk, <- Hm. apply start_head. exact Hn0. }
  destruct (pivot_loop_exit _ _ _ _ Hwl0 Hfe0 Hh El) as [Hwl [Hfe [[Hs1 [Hs2 Hs3]] Hco]]].
  assert (Hn : Tableau.nbi tab = (nI + nJ)%nat) by congruence.
  assert (Hrow : forall i, (i < nI + nJ)%nat ->
            Tableau.value tab i +
            np_sum (nI + nJ)
              (fun l => Bimatrix_game.C_k_l nI nJ A' B' i l
                        * Tableau.value tab (nI + nJ + l)) = 1).
  { intros i Hi. rewrite <- Hn in Hi.
    assert (E := basic_solution_row tab Hwl Hfe i Hi).
    rewrite Hs2, Hs3, HA, Hd, Hn in E. exact E. }
  assert (Hcomp : forall k, (k < nI + nJ)%nat ->
            Tableau.value tab k = 0 \/ Tableau.value tab (nI + nJ + k) = 0).
  { intros k Hk'. rewrite <- Hn in Hk' |- *.
    exact (basic_solution_complementary tab k Hco Hk'). }
  apply np_inv_Ok in Eα, Eβ. destruct Eα as [Hsy Hα], Eβ as [Hsx Hβ].
  unfold Tableau.solution in *. cbn [fst] in *. rewrite Hn in *.
  exists A', B', (minA - 1), (minB - 1),
    (fun i => Tableau.value tab (nI + nJ + i)),
    (fun j => Tableau.value tab (nI + nJ + (nI + j))),
    (fun i => Tableau.value tab i),
    (fun j => Tableau.value tab (nI + j)), α, β.
  split; [intros i j; unfold A'; ring|].
  split; [intros i j; unfold B'; ring|].
  split.
  { intros i Hi.
    split; [apply value_nonneg; assumption|].
    split; [apply value_nonneg; assumption|].
    split.
    - destruct (Hcomp i ltac:(lia)) as [E|E]; [right | left]; exact E.
    - rewrite <- (Hrow i ltac:(lia)). f_equal. symmetry.
      exact (C_rows_upper G A' B' (fun l => Tableau.value tab (nI + nJ + l)) i Hi). }
  split.
  { intros j Hj.
    split; [apply value_nonneg; assumption|].
    split; [apply value_nonneg; assumption|].
    split.
    - destruct (Hcomp (nI + j)%nat ltac:(lia)) as [E|E]; [right | left]; exact E.
    - rewrite <- (Hrow (nI + j)%nat ltac:(lia)). f_equal. symmetry.
      exact (C_rows_lower G A' B' (fun l => Tableau.value tab (nI + nJ + l)) j Hj). }
  split; [exact Hsy|]. split; [exact Hα|].
  split; [exact Hsx|]. split; [exact Hβ|].
  split; [reflexivity|]. split; [reflexivity|]. split; ring.
Qed.

Lemma scaled_is_strategy n (x : vec) β :
  (forall i, (i < n)%nat -> 0 <= x i) -> np_sum n x <> 0 -> β = 1 / np_sum n x ->
  Nash.is_strategy n (fun i => x i * β).
Proof.
  intros Hx Hs ->.
  assert (H0 : 0 <= np_sum n x) by (apply np_sum_nonneg; exact Hx).
  assert (Hpos : 0 < 1 / np_sum n x) by (apply Rdiv_lt_0_compat; lra).
  split.
  - intros i Hi. apply Rmult_le_pos; [apply Hx; exact Hi | lra].
  - rewrite np_sum_scal_r. field. exact Hs.
Qed.

Lemma lemke_howson_solve_output G fuel out :
  Bimatrix_game.lemke_howson_solve G fuel = Ok (Some out) ->
  Nash.is_strategy (Bimatrix_game.nbi G) (Bimatrix_game.p_i out) /\
  Nash.is_strategy (Bimatrix_game.nbj G) (Bimatrix_game.q_j out) /\
  Bimatrix_game.val1 out
  = Nash.payoff G (Bimatrix_game.A_i_j G) (Bimatrix_game.p_i out) (Bimatrix_game.q_j out) /\
  Bimatrix_game.val2 out
  = Nash.payoff G (Bimatrix_game.B_i_j G) (Bimatrix_game.p_i out) (Bimatrix_game.q_j out).
Proof.
  intros H.
  destruct (lemke_howson_solve_values G fuel out H)
    as (A' & B' & cA & cB & x & y & r & s & α & β
        & HA & HB & Hx & Hy & Hsy & Hα & Hsx & Hβ & Hp & Hq & Hv1 & Hv2).
  rewrite Hp, Hq, Hv1, Hv2.
  assert (Hyα : np_sum (Bimatrix_game.nbj G) y * α = 1) by (rewrite Hα; field; exact Hsy).
  assert (Hxβ : np_sum (Bimatrix_game.nbi G) x * β = 1) by (rewrite Hβ; field; exact Hsx).
  split; [|split; [|split]].
  - apply scaled_is_strategy; [intros i Hi; apply (Hx i Hi) | exact Hsx | exact Hβ].
  - apply scaled_is_strategy; [intros j Hj; apply (Hy j Hj) | exact Hsy | exact Hα].
  - unfold Nash.payoff. rewrite mixed_payoff_rows. symmetry.
    apply (equilibrium_payoff _ _ (Bimatrix_game.A_i_j G) A' cA x y r α β).
    + intros i j _ _. apply HA.
    + intros i Hi. apply (Hx i Hi).
    + intros i Hi. apply (Hx i Hi).
    + exact Hyα.
    + exact Hxβ.
  - unfold Nash.payoff. rewrite mixed_payoff_cols. symmetry.
    apply (equilibrium_payoff _ _ (fun j i => Bimatrix_game.B_i_j G i j)
             (fun j i => B' i j) cB y x s β α).
    + intros j i _ _. apply HB.
    + intros j Hj. apply (Hy j Hj).
    + intros j Hj. apply (Hy j Hj).
    + exact Hxβ.
    + exact Hyα.
Qed.

End LemkeHowsonValues.

(** X15.  Whenever [lemke_howson_solve] returns, [p_i] and [q_j] are
    probability vectors and [val1], [val2] are the expected payoffs
    [p_i @ A @ q_j] and [p_i @ B @ q_j] of the two players (with the
    class [Tableau] of the [mec] package as the specification describes
    it). *)
Theorem lemke_howson_solve_returns_strategies_and_payoffs :
  forall (G : Bimatrix_game.t) (fuel : nat) (out : Bimatrix_game.output),
    Bimatrix_game.lemke_howson_solve G fuel = Ok (Some out) ->
    Nash.is_strategy (Bimatrix_game.nbi G) (Bimatrix_game.p_i out) /\
    Nash.is_strategy (Bimatrix_game.nbj G) (Bimatrix_game.q_j out) /\
    Bimatrix_game.val1 out
    = Nash.payoff G (Bimatrix_game.A_i_j G) (Bimatrix_game.p_i out)
        (Bimatrix_game.q_j out) /\
    Bimatrix_game.val2 out
    = Nash.payoff G (Bimatrix_game.B_i_j G) (Bimatrix_game.p_i out)
        (Bimatrix_game.q_j out).
Proof.
  intros G fuel out H. exact (lemke_howson_solve_output G fuel out H).
Qed.

(** Witness of X15: the one-by-one game. *)
Lemma lemke_howson_solve_returns_strategies_and_payoffs_witness :
  exists out,
    Bimatrix_game.lemke_howson_solve Examples.G_one 2 = Ok (Some out) /\
    Nash.is_strategy 1 (Bimatrix_game.p_i out) /\
    Nash.is_strategy 1 (Bimatrix_game.q_j out) /\
    Bimatrix_game.val1 out
    = Nash.payoff Examples.G_one (fun _ _ => 1) (Bimatrix_game.p_i out)
        (Bimatrix_game.q_j out) /\
    Bimatrix_game.val2 out
    = Nash.payoff Examples.G_one (fun _ _ => 1) (Bimatrix_game.p_i out)
        (Bimatrix_game.q_j out).
Proof.
  destruct one_run as [out Hrun]. exists out. split; [exact Hrun|].
  exact (lemke_howson_solve_returns_strategies_and_payoffs Examples.G_one 2 out Hrun).
Defined.

(** ** The minimum-ratio rule breaks ties by the lowest row *)

Section FirstMinimum.

Lemma min_from_app best d e :
  min_from best (d ++ [e]) =
  if Rlt_dec (snd e) (snd (min_from best d)) then e else min_from best d.
Proof.
  revert best. induction d as [|kv d IH]; intros best; simpl; [reflexivity|].
  apply IH.
Qed.

Lemma ratios_S n x z :
  ratios (S n) x z =
  ratios n x z ++ (if Rlt_dec 0 (z n) then [(n, x n / z n)] else []).
Proof.
  unfold ratios. rewrite seq_S, flat_map_app. simpl. rewrite app_nil_r. reflexivity.
Qed.

(** Every row before the one selected has a strictly larger ratio. *)
Lemma ratio_test_first n x z :
  forall j eps,
    dict_min (ratios n x z) = Ok (j, eps) ->
    forall b, (b < j)%nat -> 0 < z b -> eps < x b / z b.
Proof.
  induction n as [|n IH]; intros j eps H b Hb Hz.
  - discriminate.
  - rewrite ratios_S in H.
    destruct (Rlt_dec 0 (z n)) as [Hzn|Hzn].
    2:{ rewrite app_nil_r in H. exact (IH j eps H b Hb Hz). }
    destruct (ratios n x z) as [|kv d] eqn:Er.
    + simpl in H. injection H as <- <-.
      exfalso. assert (Hall := proj1 (ratios_empty n x z) Er b Hb). lra.
    + assert (Hprev : dict_min (ratios n x z) = Ok (min_from kv d))
        by (rewrite Er; reflexivity).
      simpl in H. rewrite min_from_app in H. simpl snd in H.
      destruct (min_from kv d) as [j' eps'] eqn:Em.
      destruct (Rlt_dec (x n / z n) (snd (j', eps'))) as [Hlt|Hge].
      * injection H as <- <-. simpl in Hlt.
        destruct (ratio_test _ _ _ _ _ Hprev) as [_ [_ [_ Hmin]]].
        specialize (Hmin b Hb Hz). lra.
      * injection H as <- <-. apply (IH j' eps'); [|exact Hb | exact Hz].
        simpl. rewrite Em. reflexivity.
Qed.

End FirstMinimum.

(** X16.  [Pivoter.determine_departing] returns the lowest row that
    attains the minimum of the ratios [x_b[b] / z_b[b]] over the rows
    with [z_b[b] > 0], where [z_b = B^-1 Nent_i], together with that
    minimum: every other such row has a ratio at least [epsilon], and
    every earlier one a strictly larger ratio. *)
Theorem determine_departing_first_minimum_ratio :
  forall (self : Pivoter.t) (Nent_i : vec) (bdep : nat) (epsilon : R),
    Pivoter.determine_departing self Nent_i = Ok (bdep, epsilon) ->
    exists z_b,
      solves (Pivoter.nbb self) (Pivoter.B_i_b self) Nent_i z_b /\
      (bdep < Pivoter.nbb self)%nat /\ 0 < z_b bdep /\
      epsilon = Pivoter.x_b self bdep / z_b bdep /\
      (forall b, (b < Pivoter.nbb self)%nat -> 0 < z_b b ->
                 epsilon <= Pivoter.x_b self b / z_b b) /\
      (forall b, (b < bdep)%nat -> 0 < z_b b ->
                 epsilon < Pivoter.x_b self b / z_b b).
Proof.
  intros self Nent_i bdep epsilon H. unfold Pivoter.determine_departing in H.
  destruct (linalg_solve _ _ Nent_i) as [z|] eqn:Ez; cbn [bind] in H; [|discriminate].
  rewrite thedic_ratios in H.
  destruct (ratio_test _ _ _ _ _ H) as [Hj [Hzj [Heps Hmin]]].
  exists z. split; [exact (proj2 (linalg_solve_Ok _ _ _ _ Ez))|].
  split; [exact Hj|]. split; [exact Hzj|]. split; [exact Heps|].
  split; [exact Hmin|].
  exact (ratio_test_first _ _ _ _ _ H).
Qed.

(** Witness of X16: the first ratio test of the notebook's example. *)
Lemma determine_departing_first_minimum_ratio_witness :
  exists z_b,
    solves 2 identity Examples.N_x0 z_b /\
    (0 < 2)%nat /\ 0 < z_b O /\
    1 = Pivoter.x_b Examples.P_eye2 O / z_b O /\
    (forall b, (b < 2)%nat -> 0 < z_b b -> 1 <= Pivoter.x_b Examples.P_eye2 b / z_b b) /\
    (forall b, (b < 0)%nat -> 0 < z_b b -> 1 < Pivoter.x_b Examples.P_eye2 b / z_b b).
Proof.
  exact (determine_departing_first_minimum_ratio Examples.P_eye2 Examples.N_x0 0 1
           example_departing).
Defined.

(** ** The matrix and the log-domain iterations compute the same scalings *)

Section SameScalings.

Import OT LogDomainSteps.

Variables (self : OTProblem) (σ : R).

Hypothesis n_pos : forall x, (x < nbx self)%nat -> 0 < n_x self x.
Hypothesis m_pos : forall y, (y < nby self)%nat -> 0 < m_y self y.
Hypothesis nbx_pos : (0 < nbx self)%nat.
Hypothesis nby_pos : (0 < nby self)%nat.
Hypothesis σ_nonzero : σ <> 0.

Lemma kernel_times_scaling Φ u a :
  0 < a -> u = - σ * ln a -> exp ((Φ - u) / σ) = exp (Φ / σ) * a.
Proof.
  intros Ha ->.
  replace ((Φ - - σ * ln a) / σ) with (Φ / σ + ln a) by (field; exact σ_nonzero).
  rewrite exp_plus, exp_ln by exact Ha. reflexivity.
Qed.

Lemma potential_of_ratio a b : 0 < a -> 0 < b -> - σ * ln a + σ * ln b = - σ * ln (a / b).
Proof.
  intros Ha Hb. rewrite ln_quotient by assumption. ring.
Qed.

(** The row half-step. *)
Lemma u_of_scaling (B v : vec) x :
  (forall y, (y < nby self)%nat -> 0 < B y) ->
  (forall y, (y < nby self)%nat -> v y = - σ * ln (B y)) ->
  (x < nbx self)%nat ->
  u_of self σ v x = - σ * ln (Matrix.A_of self (Matrix.K_x_y self σ) B x).
Proof.
  intros HB Hv Hx. unfold u_of, Matrix.A_of, LogDomain.λ_x.
  rewrite (np_sum_ext (nby self) (fun y => exp ((Φ_x_y self x y - v y) / σ))
             (fun y => Matrix.K_x_y self σ x y * B y)).
  2:{ intros y Hy. unfold Matrix.K_x_y, Φ_x_y.
      apply kernel_times_scaling; [apply HB; exact Hy | apply Hv; exact Hy]. }
  apply potential_of_ratio; [apply n_pos; exact Hx|].
  exact (KB_pos self σ nby_pos B x HB).
Qed.

(** The column half-step. *)
Lemma KA_of_scaling (B : vec) (u : vec) y :
  (forall y, (y < nby self)%nat -> 0 < B y) ->
  (forall x, (x < nbx self)%nat ->
     u x = - σ * ln (Matrix.A_of self (Matrix.K_x_y self σ) B x)) ->
  KA_of self σ u y = Matrix.KA_of self (Matrix.K_x_y self σ) B y.
Proof.
  intros HB Hu. unfold KA_of, Matrix.KA_of. apply np_sum_ext. intros x Hx.
  rewrite Rmult_comm. unfold Matrix.K_x_y at 1, Φ_x_y.
  apply kernel_times_scaling; [|apply Hu; exact Hx].
  exact (A_of_pos self σ n_pos nby_pos B x HB Hx).
Qed.

Lemma same_scalings (sM : Matrix.state) (sL : LogDomain.state) :
  Matrix.B_positive self sM ->
  (forall y, (y < nby self)%nat -> LogDomain.v_y sL y = - σ * ln (Matrix.B_y sM y)) ->
  exists sM' sL' A u,
    Matrix.body self (Matrix.K_x_y self σ) sM = Ok sM' /\
    LogDomain.body self σ sL = Ok sL' /\
    Matrix.A_x sM' = Some A /\ LogDomain.u_x sL' = Some u /\
    (forall x, (x < nbx self)%nat -> 0 < A x /\ u x = - σ * ln (A x)) /\
    (forall y, (y < nby self)%nat ->
       0 < Matrix.B_y sM' y /\ LogDomain.v_y sL' y = - σ * ln (Matrix.B_y sM' y)).
Proof.
  intros HB Hv.
  rewrite (body_spec self σ nby_pos), (logdomain_body_steps self σ nby_pos).
  eexists. eexists. eexists. eexists.
  split; [reflexivity|]. split; [reflexivity|].
  split; [reflexivity|]. split; [reflexivity|]. cbn.
  assert (Hu : forall x, (x < nbx self)%nat ->
            u_of self σ (LogDomain.v_y sL) x
            = - σ * ln (Matrix.A_of self (Matrix.K_x_y self σ) (Matrix.B_y sM) x))
    by (intros x Hx; exact (u_of_scaling (Matrix.B_y sM) (LogDomain.v_y sL) x HB Hv Hx)).
  split.
  - intros x Hx. split; [|exact (Hu x Hx)].
    exact (A_of_pos self σ n_pos nby_pos (Matrix.B_y sM) x HB Hx).
  - intros y Hy.
    assert (HKA := KA_of_pos self σ n_pos nbx_pos nby_pos (Matrix.B_y sM) y HB).
    split; [apply Rdiv_lt_0_compat; [apply m_pos; exact Hy | exact HKA]|].
    rewrite (KA_of_scaling (Matrix.B_y sM) _ y HB Hu). unfold LogDomain.ζ_y.
    apply potential_of_ratio; [apply m_pos; exact Hy | exact HKA].
Qed.

End SameScalings.

(** X17.  From a state of [matrixIPFP] with positive [B_y] and a state
    of [logdomainIPFP] with [v_y = -σ log B_y], one pass of each loop
    (positive marginals, non-empty problem, [σ <> 0]) leads to states
    that correspond again: [u_x = -σ log A_x] and [v_y = -σ log B_y],
    with [A_x] and [B_y] positive. *)
Theorem matrix_and_logdomain_passes_correspond :
  forall (self : OT.OTProblem) (σ : R)
         (sM : OT.Matrix.state) (sL : OT.LogDomain.state),
    (forall x, (x < OT.nbx self)%nat -> 0 < OT.n_x self x) ->
    (forall y, (y < OT.nby self)%nat -> 0 < OT.m_y self y) ->
    (0 < OT.nbx self)%nat -> (0 < OT.nby self)%nat -> σ <> 0 ->
    OT.Matrix.B_positive self sM ->
    (forall y, (y < OT.nby self)%nat ->
       OT.LogDomain.v_y sL y = - σ * ln (OT.Matrix.B_y sM y)) ->
    exists sM' sL' A u,
      OT.Matrix.body self (OT.Matrix.K_x_y self σ) sM = Ok sM' /\
      OT.LogDomain.body self σ sL = Ok sL' /\
      OT.Matrix.A_x sM' = Some A /\ OT.LogDomain.u_x sL' = Some u /\
      (forall x, (x < OT.nbx self)%nat -> 0 < A x /\ u x = - σ * ln (A x)) /\
      (forall y, (y < OT.nby self)%nat ->
         0 < OT.Matrix.B_y sM' y /\
         OT.LogDomain.v_y sL' y = - σ * ln (OT.Matrix.B_y sM' y)).
Proof.
  intros self σ sM sL Hn Hm Hx Hy Hσ HB Hv.
  exact (same_scalings self σ Hn Hm Hx Hy Hσ sM sL HB Hv).
Qed.

(** Witness of X17: the first pass of both loops on the one-by-one
    problem. *)
Lemma matrix_and_logdomain_passes_correspond_witness :
  exists sM' sL' A u,
    OT.Matrix.body Examples.P_unit (OT.Matrix.K_x_y Examples.P_unit 1)
      (OT.Matrix.init (1 / 8)) = Ok sM' /\
    OT.LogDomain.body Examples.P_unit 1 (OT.LogDomain.init (1 / 8)) = Ok sL' /\
    OT.Matrix.A_x sM' = Some A /\ OT.LogDomain.u_x sL' = Some u /\
    (forall x, (x < 1)%nat -> 0 < A x /\ u x = - 1 * ln (A x)) /\
    (forall y, (y < 1)%nat ->
       0 < OT.Matrix.B_y sM' y /\
       OT.LogDomain.v_y sL' y = - 1 * ln (OT.Matrix.B_y sM' y)).
Proof.
  apply (matrix_and_logdomain_passes_correspond Examples.P_unit 1
           (OT.Matrix.init (1 / 8)) (OT.LogDomain.init (1 / 8))).
  - intros x _. simpl. lra.
  - intros y _. simpl. lra.
  - simpl. lia.
  - simpl. lia.
  - lra.
  - intros y _. simpl. lra.
  - intros y _. simpl. rewrite ln_1. lra.
Defined.

(** ** How the loop of [matrixIPFP] ends *)

Section MatrixExit.

Import OT OT.Matrix.

Variables (self : OTProblem) (σ tol : R) (maxite : nat).

Hypothesis nbx_pos : (0 < nbx self)%nat.
Hypothesis nby_pos : (0 < nby self)%nat.

Lemma loop_count s :
  loop self σ tol maxite = Ok s ->
  (ite s <= maxite)%nat /\ (A_x s = None -> ite s = O) /\ (A_x s <> None -> (1 <= ite s)%nat).
Proof.
  unfold loop.
  apply (while_ind (cond tol maxite) (body self (K_x_y self σ))
           (fun s => (ite s <= maxite)%nat /\ (A_x s = None -> ite s = O) /\
                     (A_x s <> None -> (1 <= ite s)%nat))).
  - intros p s' _ Hc Hb. rewrite (body_spec self σ nby_pos) in Hb. injection Hb as <-.
    unfold cond in Hc. apply andb_prop in Hc. destruct Hc as [_ Hc].
    apply Nat.ltb_lt in Hc. simpl. split; [lia|]. split; [discriminate | lia].
  - simpl. split; [lia|]. split; [reflexivity | congruence].
Qed.

Lemma matrixIPFP_exit :
  (0 < maxite)%nat ->
  exists s out,
    loop self σ tol maxite = Ok s /\ matrixIPFP self σ tol maxite = Ok out /\
    OT.ite out = ite s /\ (1 <= OT.ite out <= maxite)%nat /\
    ((OT.ite out < maxite)%nat -> error s <= tol).
Proof.
  intros Hmax.
  destruct (loop_returns self σ tol maxite nby_pos) as [s Hl].
  destruct (loop_count s Hl) as [Hle [Hnone Hsome]].
  assert (Hex := loop_exits self σ tol maxite nbx_pos nby_pos s Hl).
  assert (HA : A_x s <> None).
  { intros E. specialize (Hnone E). unfold cond in Hex.
    apply andb_false_iff in Hex. destruct Hex as [Hex|Hex].
    - revert Hl. unfold loop. destruct maxite as [|m]; [lia|]. simpl.
      unfold cond at 1. simpl. unfold Rgtb at 1.
      destruct (Rgt_dec (tol + 1) tol) as [_|Hn]; [|exfalso; apply Hn; lra].
      simpl. rewrite (body_spec self σ nby_pos). cbn [bind]. intros Hl.
      assert (H1 : (1 <= ite s)%nat).
      { revert Hl.
        apply (while_ind (cond tol (S m)) (body self (K_x_y self σ))
                 (fun s => (1 <= ite s)%nat)).
        - intros p s' _ _ Hb. rewrite (body_spec self σ nby_pos) in Hb.
          injection Hb as <-. simpl. lia.
        - simpl. lia. }
      lia.
    - apply Nat.ltb_ge in Hex. lia. }
  exists s. unfold matrixIPFP. rewrite Hl. cbn [bind].
  destruct (A_x s) as [A|]; [|congruence].
  eexists. split; [reflexivity|]. split; [reflexivity|]. cbn.
  split; [reflexivity|]. split; [split; [apply Hsome; discriminate | exact Hle]|].
  intros Hlt. unfold cond in Hex. apply andb_false_iff in Hex.
  destruct Hex as [Hex|Hex].
  - unfold Rgtb in Hex. destruct (Rgt_dec (error s) tol); [discriminate | lra].
  - apply Nat.ltb_ge in Hex. lia.
Qed.

End MatrixExit.

(** X18.  On a non-empty problem and with [maxite >= 1],
    [matrixIPFP] returns after between 1 and [maxite] passes, and when it
    reports fewer than [maxite] passes the residual it computed last is
    at most [tol]. *)
Theorem matrixIPFP_returns_converged_or_capped :
  forall (self : OT.OTProblem) (σ tol : R) (maxite : nat),
    (0 < OT.nbx self)%nat -> (0 < OT.nby self)%nat -> (0 < maxite)%nat ->
    exists s out,
      OT.Matrix.loop self σ tol maxite = Ok s /\
      OT.Matrix.matrixIPFP self σ tol maxite = Ok out /\
      OT.ite out = OT.Matrix.ite s /\
      (1 <= OT.ite out <= maxite)%nat /\
      ((OT.ite out < maxite)%nat -> OT.Matrix.error s <= tol).
Proof.
  intros self σ tol maxite Hx Hy Hmax.
  exact (matrixIPFP_exit self σ tol maxite Hx Hy Hmax).
Qed.

(** Witness of X18 on the one-by-one problem. *)
Lemma matrixIPFP_returns_converged_or_capped_witness :
  exists s out,
    OT.Matrix.loop Examples.P_unit 1 (1 / 8) 10 = Ok s /\
    OT.Matrix.matrixIPFP Examples.P_unit 1 (1 / 8) 10 = Ok out /\
    OT.ite out = OT.Matrix.ite s /\
    (1 <= OT.ite out <= 10)%nat /\
    ((OT.ite out < 10)%nat -> OT.Matrix.error s <= 1 / 8).
Proof.
  apply (matrixIPFP_returns_converged_or_capped Examples.P_unit 1 (1 / 8) 10);
    simpl; lia.
Defined.

(** ** The two values that [matrixIPFP] returns *)

Section MatrixValues.

Import OT OT.Matrix.

Variables (self : OTProblem) (σ tol : R) (maxite : nat).

Lemma matrixIPFP_objective out :
  matrixIPFP self σ tol maxite = Ok out ->
  valobs out = fst (objective self σ (μ_x_y out)) /\
  valtot out = snd (objective self σ (μ_x_y out)).
Proof.
  unfold matrixIPFP. intros H.
  destruct (loop self σ tol maxite) as [s|]; cbn [bind] in H; [|discriminate].
  destruct (A_x s) as [A|]; [|discriminate].
  injection H as <-. cbn. split; reflexivity.
Qed.

Lemma flat_index a :
  (0 < nby self)%nat -> (a < nbx self * nby self)%nat ->
  (a / nby self < nbx self)%nat /\ (a mod nby self < nby self)%nat.
Proof.
  intros Hy Ha. split.
  - apply Nat.Div0.div_lt_upper_bound. rewrite Nat.mul_comm. exact Ha.
  - apply Nat.mod_upper_bound. lia.
Qed.

Lemma entropic_objective (μ : mat) :
  (0 < nbx self)%nat -> (0 < nby self)%nat ->
  (forall x y, (x < nbx self)%nat -> (y < nby self)%nat -> 0 < μ x y) ->
  snd (objective self σ μ)
  = np_sum (nbx self * nby self) (fun a => Φ_a self a * flatten (nby self) μ a)
    - σ * np_sum (nbx self * nby self)
            (fun a => flatten (nby self) μ a * ln (flatten (nby self) μ a)).
Proof.
  intros Hx Hy Hμ. unfold objective. cbv zeta. cbn [snd]. unfold dot.
  assert (Hpos : forall a, (a < nbx self * nby self)%nat -> 0 < flatten (nby self) μ a).
  { intros a Ha. unfold flatten. destruct (flat_index a Hy Ha). apply Hμ; assumption. }
  rewrite sum_xlogx_spec; [reflexivity| |].
  - intros a Ha. left. apply Hpos. exact Ha.
  - apply np_sum_pos; [nia | exact Hpos].
Qed.

End MatrixValues.

(** X19.  For positive marginals on a non-empty problem, [σ <> 0] and
    [maxite >= 1], the values returned by [matrixIPFP] are
    [valobs = sum(Φ * μ)] and
    [valtot = sum(Φ * μ) - σ * sum(μ * log μ)], the sums running over the
    entries of the returned coupling. *)
Theorem matrixIPFP_valtot_is_entropic_objective :
  forall (self : OT.OTProblem) (σ tol : R) (maxite : nat),
    (forall x, (x < OT.nbx self)%nat -> 0 < OT.n_x self x) ->
    (forall y, (y < OT.nby self)%nat -> 0 < OT.m_y self y) ->
    (0 < OT.nbx self)%nat -> (0 < OT.nby self)%nat -> (0 < maxite)%nat ->
    σ <> 0 ->
    exists out,
      OT.Matrix.matrixIPFP self σ tol maxite = Ok out /\
      OT.valobs out
      = np_sum (OT.nbx self * OT.nby self)
          (fun a => OT.Φ_a self a * OT.flatten (OT.nby self) (OT.μ_x_y out) a) /\
      OT.valtot out
      = OT.valobs out
        - σ * np_sum (OT.nbx self * OT.nby self)
                (fun a => OT.flatten (OT.nby self) (OT.μ_x_y out) a
                          * ln (OT.flatten (OT.nby self) (OT.μ_x_y out) a)).
Proof.
  intros self σ tol maxite Hn Hm Hx Hy Hmax Hσ.
  destruct (matrixIPFP_gibbs self σ tol maxite Hn Hm Hx Hy Hmax Hσ) as [out [E Hout]].
  destruct (matrixIPFP_objective self σ tol maxite out E) as [Hobs Htot].
  exists out. split; [exact E|]. split.
  - rewrite Hobs. reflexivity.
  - rewrite Htot, Hobs.
    apply (entropic_objective self σ (OT.μ_x_y out) Hx Hy).
    intros x y Hxx Hyy. exact (proj1 (Hout x y Hxx Hyy)).
Qed.

(** Witness of X19 on the one-by-one problem. *)
Lemma matrixIPFP_valtot_is_entropic_objective_witness :
  exists out,
    OT.Matrix.matrixIPFP Examples.P_unit 1 (1 / 8) 10 = Ok out /\
    OT.valobs out
    = np_sum (1 * 1) (fun a => 0 * OT.flatten 1 (OT.μ_x_y out) a) /\
    OT.valtot out
    = OT.valobs out
      - 1 * np_sum (1 * 1)
              (fun a => OT.flatten 1 (OT.μ_x_y out) a
                        * ln (OT.flatten 1 (OT.μ_x_y out) a)).
Proof.
  apply (matrixIPFP_valtot_is_entropic_objective Examples.P_unit 1 (1 / 8) 10);
    simpl; intros; try lra; lia.
Defined.

(** ** The width of the banner of [display] *)

Section Banner.

Import String.

Lemma length_stars k : length (Display.stars k) = k.
Proof. induction k as [|k IH]; simpl; [reflexivity | rewrite IH; reflexivity]. Qed.

Lemma length_append_string s1 s2 : length (append s1 s2) = (length s1 + length s2)%nat.
Proof. induction s1 as [|c s1 IH]; simpl; [reflexivity | rewrite IH; reflexivity]. Qed.

Lemma title_line_length name :
  length (Display.title_line name)
  = (30 - length name / 2 + (2 + (length name + (2 + (26 - (1 + length name) / 2)))))%nat.
Proof.
  unfold Display.title_line.
  rewrite !length_append_string, !length_stars. reflexivity.
Qed.

End Banner.

(** X20.  The title line that [display] prints between its two rules
    of 60 stars is itself exactly 60 characters wide if and only if the
    name of the method has at most 52 characters. *)
Theorem display_title_line_width :
  forall name : String.string,
    String.length (Display.title_line name) = String.length Display.rule <->
    (String.length name <= 52)%nat.
Proof.
  intros name. rewrite title_line_length. unfold Display.rule. rewrite length_stars.
  assert (H2 := Nat.div_mod_eq (String.length name) 2).
  assert (H3 := Nat.div_mod_eq (1 + String.length name) 2).
  assert (H4 := Nat.mod_upper_bound (String.length name) 2 ltac:(lia)).
  assert (H5 := Nat.mod_upper_bound (1 + String.length name) 2 ltac:(lia)).
  split; intros H; lia.
Qed.

(** ** The normalisation of the payoffs in [lemke_howson_solve] *)

Section PayoffShift.

Lemma np_min_from_le_best best n a : Bimatrix_game.np_min_from best n a <= best.
Proof.
  induction n as [|n IH]; simpl; [lra|].
  apply Rle_trans with (Bimatrix_game.np_min_from best n a); [apply Rmin_l | exact IH].
Qed.

Lemma np_min_from_le best n a i :
  (i < n)%nat -> Bimatrix_game.np_min_from best n a <= a i.
Proof.
  induction n as [|n IH]; intros Hi; [lia|]. simpl.
  destruct (Nat.eq_dec i n) as [->|Hne]; [apply Rmin_r|].
  apply Rle_trans with (Bimatrix_game.np_min_from best n a); [apply Rmin_l|].
  apply IH. lia.
Qed.

Lemma np_min_from_attained best n a :
  Bimatrix_game.np_min_from best n a = best \/
  exists i, (i < n)%nat /\ Bimatrix_game.np_min_from best n a = a i.
Proof.
  induction n as [|n IH]; simpl; [left; reflexivity|].
  unfold Rmin. destruct (Rle_dec (Bimatrix_game.np_min_from best n a) (a n)).
  - destruct IH as [H|[i [Hi H]]]; [left; exact H|].
    right. exists i. split; [lia | exact H].
  - right. exists n. split; [lia | reflexivity].
Qed.

Lemma flatten_at ncol (M : mat) i j :
  (j < ncol)%nat -> OT.flatten ncol M (i * ncol + j)%nat = M i j.
Proof.
  intros Hj. unfold OT.flatten.
  rewrite Nat.div_add_l by lia. rewrite (Nat.div_small j ncol Hj), Nat.add_0_r.
  rewrite Nat.add_comm, Nat.Div0.mod_add, (Nat.mod_small j ncol Hj). reflexivity.
Qed.

(** [np.min(M)] is the least entry of [M]. *)
Lemma np_min_spec nrow ncol (M : mat) m :
  Bimatrix_game.np_min nrow ncol M = Ok m ->
  (forall i j, (i < nrow)%nat -> (j < ncol)%nat -> m <= M i j) /\
  (exists i j, (i < nrow)%nat /\ (j < ncol)%nat /\ M i j = m).
Proof.
  unfold Bimatrix_game.np_min. intros H.
  destruct (nrow * ncol)%nat as [|k] eqn:Ek; [discriminate|].
  injection H as <-. split.
  - intros i j Hi Hj. rewrite <- (flatten_at ncol M i j Hj).
    assert (Hlt : (i * ncol + j < S k)%nat) by (rewrite <- Ek; nia).
    destruct (i * ncol + j)%nat as [|a]; [apply np_min_from_le_best|].
    apply (np_min_from_le _ k (fun i0 => OT.flatten ncol M (S i0)) a). lia.
  - assert (Hc : (0 < ncol)%nat) by nia.
    assert (Hidx : forall a, (a < S k)%nat ->
              (a / ncol < nrow)%nat /\ (a mod ncol < ncol)%nat).
    { intros a Ha. split.
      - apply Nat.Div0.div_lt_upper_bound. rewrite Nat.mul_comm, Ek. exact Ha.
      - apply Nat.mod_upper_bound. lia. }
    destruct (np_min_from_attained (OT.flatten ncol M O) k
                (fun i0 => OT.flatten ncol M (S i0))) as [H|[a [Ha H]]].
    + exists (0 / ncol)%nat, (0 mod ncol)%nat.
      destruct (Hidx O ltac:(lia)) as [H1 H2].
      split; [exact H1|]. split; [exact H2|]. rewrite H. reflexivity.
    + exists (S a / ncol)%nat, (S a mod ncol)%nat.
      destruct (Hidx (S a) ltac:(lia)) as [H1 H2].
      split; [exact H1|]. split; [exact H2|]. rewrite H. reflexivity.
Qed.

(** Adding constants to the two payoff matrices does not change the
    verdict on a pair of probability vectors. *)
Lemma is_NashEq_shift (G : Bimatrix_game.t) (a b : R) (p q : vec) tol :
  Nash.is_strategy (Bimatrix_game.nbi G) p ->
  Nash.is_strategy (Bimatrix_game.nbj G) q ->
  Bimatrix_game.is_NashEq
    {| Bimatrix_game.A_i_j := fun i j => Bimatrix_game.A_i_j G i j + a;
       Bimatrix_game.B_i_j := fun i j => Bimatrix_game.B_i_j G i j + b;
       Bimatrix_game.nbi := Bimatrix_game.nbi G;
       Bimatrix_game.nbj := Bimatrix_game.nbj G |} p q tol
  = Bimatrix_game.is_NashEq G p q tol.
Proof.
  intros [_ Hp] [_ Hq].
  set (G' := {| Bimatrix_game.A_i_j := fun i j => Bimatrix_game.A_i_j G i j + a;
                Bimatrix_game.B_i_j := fun i j => Bimatrix_game.B_i_j G i j + b;
                Bimatrix_game.nbi := Bimatrix_game.nbi G;
                Bimatrix_game.nbj := Bimatrix_game.nbj G |}).
  assert (Hrow : forall (M : mat) c i,
            np_sum (Bimatrix_game.nbj G) (fun j => (M i j + c) * q j)
            = np_sum (Bimatrix_game.nbj G) (fun j => M i j * q j) + c).
  { intros M c i.
    rewrite (np_sum_ext _ _ (fun j => M i j * q j + c * q j)) by (intros; ring).
    rewrite np_sum_plus, np_sum_scal, Hq. ring. }
  assert (Hcol : forall (M : mat) c j,
            np_sum (Bimatrix_game.nbi G) (fun i => (M i j + c) * p i)
            = np_sum (Bimatrix_game.nbi G) (fun i => M i j * p i) + c).
  { intros M c j.
    rewrite (np_sum_ext _ _ (fun i => M i j * p i + c * p i)) by (intros; ring).
    rewrite np_sum_plus, np_sum_scal, Hp. ring. }
  assert (Hpay : forall (M : mat) c,
            dot (Bimatrix_game.nbj G)
                (Bimatrix_game.vecmat (Bimatrix_game.nbi G) p (fun i j => M i j + c)) q
            = dot (Bimatrix_game.nbj G)
                  (Bimatrix_game.vecmat (Bimatrix_game.nbi G) p M) q + c).
  { intros M c. rewrite !mixed_payoff_rows.
    rewrite (np_sum_ext _ _
               (fun i => p i * np_sum (Bimatrix_game.nbj G) (fun j => M i j * q j)
                         + c * p i))
      by (intros i _; rewrite Hrow; ring).
    rewrite np_sum_plus, np_sum_scal, Hp. ring. }
  apply Bool.eq_true_iff_eq.
  unfold Bimatrix_game.is_NashEq. rewrite !andb_true_iff.
  rewrite (is_NashEq_rows G' p q tol), (is_NashEq_cols G' p q tol).
  rewrite (is_NashEq_rows G p q tol), (is_NashEq_cols G p q tol).
  unfold G', Nash.payoff.
  cbn [Bimatrix_game.A_i_j Bimatrix_game.B_i_j Bimatrix_game.nbi Bimatrix_game.nbj].
  rewrite (Hpay (Bimatrix_game.A_i_j G) a), (Hpay (Bimatrix_game.B_i_j G) b).
  split; intros [HA HB]; split.
  - intros i Hi. specialize (HA i Hi). rewrite Hrow in HA. lra.
  - intros j Hj. specialize (HB j Hj). rewrite Hcol in HB. lra.
  - intros i Hi. specialize (HA i Hi). rewrite Hrow. lra.
  - intros j Hj. specialize (HB j Hj). rewrite Hcol. lra.
Qed.

(** The list [complements] pairs every variable with another one. *)
Lemma complements_pairs n k :
  (k < 2 * n)%nat ->
  exists c,
    getitem (Bimatrix_game.complements n) k = Ok c /\
    (c < 2 * n)%nat /\ c <> k /\
    getitem (Bimatrix_game.complements n) c = Ok k.
Proof.
  intros Hk. exists (LemkeHowson.comp n k).
  assert (Hc : (LemkeHowson.comp n k < 2 * n)%nat) by (apply comp_lt; exact Hk).
  split; [apply getitem_complements; exact Hk|]. split; [exact Hc|].
  split.
  - unfold LemkeHowson.comp. destruct (Nat.ltb_spec k n); lia.
  - rewrite getitem_complements by exact Hc. f_equal.
    unfold LemkeHowson.comp.
    destruct (Nat.ltb_spec k n).
    + destruct (Nat.ltb_spec (n + k) n); lia.
    + destruct (Nat.ltb_spec (k - n) n); lia.
Qed.

End PayoffShift.

(** X21.  [np.min], as [lemke_howson_solve] uses it, returns the least
    entry of the matrix, so every entry of the shifted matrix
    [A_i_j - np.min(A_i_j) + 1] is at least 1, and one of them is 1. *)
Theorem shifted_payoffs_at_least_one :
  forall (G : Bimatrix_game.t) (m : R),
    Bimatrix_game.np_min (Bimatrix_game.nbi G) (Bimatrix_game.nbj G)
      (Bimatrix_game.A_i_j G) = Ok m ->
    (forall i j, (i < Bimatrix_game.nbi G)%nat -> (j < Bimatrix_game.nbj G)%nat ->
       1 <= Bimatrix_game.A_i_j G i j - m + 1) /\
    (exists i j, (i < Bimatrix_game.nbi G)%nat /\ (j < Bimatrix_game.nbj G)%nat /\
       Bimatrix_game.A_i_j G i j - m + 1 = 1).
Proof.
  intros G m H. destruct (np_min_spec _ _ _ m H) as [Hle [i [j [Hi [Hj E]]]]]. split.
  - intros i' j' Hi' Hj'. specialize (Hle i' j' Hi' Hj'). lra.
  - exists i, j. split; [exact Hi|]. split; [exact Hj|]. rewrite E. ring.
Qed.

(** Witness of X21: the one-by-one game. *)
Lemma shifted_payoffs_at_least_one_witness :
  (forall i j, (i < 1)%nat -> (j < 1)%nat -> 1 <= 1 - 1 + 1) /\
  (exists i j, (i < 1)%nat /\ (j < 1)%nat /\ 1 - 1 + 1 = 1).
Proof.
  exact (shifted_payoffs_at_least_one Examples.G_one 1 eq_refl).
Defined.

(** X22.  Adding a constant to every entry of [A_i_j] and another to
    every entry of [B_i_j] does not change what [is_NashEq] returns on a
    pair of probability vectors. *)
Theorem is_NashEq_unchanged_by_payoff_shift :
  forall (G : Bimatrix_game.t) (a b : R) (p_i q_j : vec) (tol : R),
    Nash.is_strategy (Bimatrix_game.nbi G) p_i ->
    Nash.is_strategy (Bimatrix_game.nbj G) q_j ->
    Bimatrix_game.is_NashEq
      {| Bimatrix_game.A_i_j := fun i j => Bimatrix_game.A_i_j G i j + a;
         Bimatrix_game.B_i_j := fun i j => Bimatrix_game.B_i_j G i j + b;
         Bimatrix_game.nbi := Bimatrix_game.nbi G;
         Bimatrix_game.nbj := Bimatrix_game.nbj G |} p_i q_j tol
    = Bimatrix_game.is_NashEq G p_i q_j tol.
Proof.
  intros G a b p_i q_j tol Hp Hq. exact (is_NashEq_shift G a b p_i q_j tol Hp Hq).
Qed.

(** Witness of X22: the one-by-one game and its only strategies. *)
Lemma is_NashEq_unchanged_by_payoff_shift_witness :
  Bimatrix_game.is_NashEq
    {| Bimatrix_game.A_i_j := fun i j => Bimatrix_game.A_i_j Examples.G_one i j + 2;
       Bimatrix_game.B_i_j := fun i j => Bimatrix_game.B_i_j Examples.G_one i j + 3;
       Bimatrix_game.nbi := Bimatrix_game.nbi Examples.G_one;
       Bimatrix_game.nbj := Bimatrix_game.nbj Examples.G_one |}
    (fun _ => 1) (fun _ => 1) 0
  = Bimatrix_game.is_NashEq Examples.G_one (fun _ => 1) (fun _ => 1) 0.
Proof.
  apply (is_NashEq_unchanged_by_payoff_shift Examples.G_one 2 3 (fun _ => 1) (fun _ => 1) 0).
  - split; [intros; lra | simpl; lra].
  - split; [intros; lra | simpl; lra].
Defined.

(** X23.  The list [complements] of [lemke_howson_solve] is an
    involution without fixed point on the [2n] variable indices:
    [complements[k]] is another index, and [complements[complements[k]]]
    is [k]. *)
Theorem complements_is_an_involution :
  forall (n k : nat),
    (k < 2 * n)%nat ->
    exists c,
      getitem (Bimatrix_game.complements n) k = Ok c /\
      (c < 2 * n)%nat /\ c <> k /\
      getitem (Bimatrix_game.complements n) c = Ok k.
Proof.
  intros n k Hk. exact (complements_pairs n k Hk).
Qed.

(** Witness of X23: three pairs, the index 4. *)
Lemma complements_is_an_involution_witness :
  exists c,
    getitem (Bimatrix_game.complements 3) 4 = Ok c /\
    (c < 2 * 3)%nat /\ c <> 4%nat /\
    getitem (Bimatrix_game.complements 3) c = Ok 4%nat.
Proof.
  apply (complements_is_an_involution 3 4). lia.
Defined.

(** ** When the IPFP solvers return *)

Section ReturnOrRaise.

Import OT.

Variables (self : OTProblem) (σ tol : R) (maxite : nat).

Hypothesis nbx_pos : (0 < nbx self)%nat.
Hypothesis nby_pos : (0 < nby self)%nat.
Hypothesis σ_nonzero : σ <> 0.

Lemma solvers_return :
  (0 < maxite)%nat ->
  exists o1 o2 o3,
    Matrix.matrixIPFP self σ tol maxite = Ok o1 /\
    LogDomain.logdomainIPFP self σ tol maxite = Ok o2 /\
    LSE.logdomainIPFP_with_LSE_trick self σ tol maxite = Ok o3.
Proof.
  intros Hmax.
  destruct (matrixIPFP_exit self σ tol maxite nbx_pos nby_pos Hmax)
    as [s [o1 [_ [E1 _]]]].
  destruct (LSE_same_output self σ tol maxite nbx_pos nby_pos σ_nonzero Hmax)
    as [o3 [o2 [E3 [E2 _]]]].
  exists o1, o2, o3. auto.
Qed.

End ReturnOrRaise.

(** X7.  On a non-empty problem with [σ <> 0], each of [matrixIPFP],
    [logdomainIPFP] and [logdomainIPFP_with_LSE_trick] returns a tuple
    when [maxite >= 1]; with [maxite = 0] the loop is skipped and the
    code after it reads [A_x] (or [u_x]) before any assignment, so the
    call raises [UnboundLocalError]. *)
Theorem IPFP_returns_unless_no_pass_is_allowed :
  forall (self : OT.OTProblem) (σ tol : R) (maxite : nat),
    (0 < OT.nbx self)%nat -> (0 < OT.nby self)%nat -> σ <> 0 ->
    match maxite with
    | O =>
        OT.Matrix.matrixIPFP self σ tol maxite = Raise UnboundLocalError /\
        OT.LogDomain.logdomainIPFP self σ tol maxite = Raise UnboundLocalError /\
        OT.LSE.logdomainIPFP_with_LSE_trick self σ tol maxite = Raise UnboundLocalError
    | S _ =>
        exists o1 o2 o3,
          OT.Matrix.matrixIPFP self σ tol maxite = Ok o1 /\
          OT.LogDomain.logdomainIPFP self σ tol maxite = Ok o2 /\
          OT.LSE.logdomainIPFP_with_LSE_trick self σ tol maxite = Ok o3
    end.
Proof.
  intros self σ tol maxite Hx Hy Hσ. destruct maxite as [|m].
  - repeat split.
  - apply (solvers_return self σ tol (S m) Hx Hy Hσ). lia.
Qed.

(** Witness of X7: the one-by-one problem with [maxite = 0]. *)
Lemma IPFP_returns_unless_no_pass_is_allowed_witness :
  OT.Matrix.matrixIPFP Examples.P_unit 1 (1 / 8) 0 = Raise UnboundLocalError /\
  OT.LogDomain.logdomainIPFP Examples.P_unit 1 (1 / 8) 0 = Raise UnboundLocalError /\
  OT.LSE.logdomainIPFP_with_LSE_trick Examples.P_unit 1 (1 / 8) 0
  = Raise UnboundLocalError.
Proof.
  apply (IPFP_returns_unless_no_pass_is_allowed Examples.P_unit 1 (1 / 8) 0).
  - simpl. lia.
  - simpl. lia.
  - lra.
Defined.

(** ** The starting basis of the column-generation loop *)

Section StartingBasis.

Import CuttingStock.

Variable w_i : nat -> nat.

Lemma diagonal_inverse n (c : vec) :
  (forall i, (i < n)%nat -> c i <> 0) ->
  is_inverse n (fun i j => if Nat.eqb i j then c i else 0)
               (fun i j => if Nat.eqb i j then / c i else 0).
Proof.
  intros Hc i j Hi Hj. split.
  - rewrite (np_sum_diag n c (fun k => if Nat.eqb k j then / c k else 0) i Hi).
    unfold identity. destruct (Nat.eqb i j); [field; apply Hc; exact Hi | ring].
  - rewrite (np_sum_diag n (fun i => / c i)
               (fun k => if Nat.eqb k j then c k else 0) i Hi).
    unfold identity. destruct (Nat.eqb i j); [field; apply Hc; exact Hi | ring].
Qed.

Lemma init_Ok_iff nbi q W :
  (exists s, init w_i nbi q W = Ok s) <->
  (forall i, (i < nbi)%nat -> (0 < W / w_i i)%nat).
Proof.
  split.
  - intros [s H] i Hi. unfold init in H.
    destruct (linalg_solve nbi _ q) as [x|] eqn:Ex; cbn [bind] in H; [|discriminate].
    destruct (linalg_solve_Ok _ _ _ _ Ex) as [Hinv _].
    destruct (W / w_i i)%nat as [|k] eqn:E; [|lia].
    exfalso. apply (zero_row_singular nbi _ i Hi) in Hinv; [exact Hinv|].
    intros l _. destruct (Nat.eqb i l); [rewrite E; reflexivity | reflexivity].
  - intros Hpos.
    assert (Hc : forall i, (i < nbi)%nat -> INR (W / w_i i) <> 0).
    { intros i Hi. apply not_0_INR. specialize (Hpos i Hi). lia. }
    destruct (linalg_solve_invertible nbi
                (fun i j => if Nat.eqb i j then INR (W / w_i i) else 0) q)
      as [x [Ex _]].
    { exists (fun i j => if Nat.eqb i j then / INR (W / w_i i) else 0).
      exact (diagonal_inverse nbi (fun i => INR (W / w_i i)) Hc). }
    unfold init. rewrite Ex. cbn [bind]. eauto.
Qed.

Lemma init_solution nbi q W s :
  init w_i nbi q W = Ok s ->
  cont s = true /\
  forall j, (j < nbi)%nat -> xB_j s j = q j / INR (W / w_i j).
Proof.
  intros H.
  assert (Hpos := proj1 (init_Ok_iff nbi q W) (ex_intro _ s H)).
  unfold init in H.
  destruct (linalg_solve nbi _ q) as [x|] eqn:Ex; cbn [bind] in H; [|discriminate].
  injection H as <-. cbn. split; [reflexivity|]. intros j Hj.
  destruct (linalg_solve_Ok _ _ _ _ Ex) as [_ Hx].
  specialize (Hx j Hj). unfold matvec in Hx.
  rewrite (np_sum_diag nbi (fun i => INR (W / w_i i)) x j Hj) in Hx.
  assert (Hc : INR (W / w_i j) <> 0) by (apply not_0_INR; specialize (Hpos j Hj); lia).
  rewrite <- Hx. field. exact Hc.
Qed.

End StartingBasis.

(** X24.  The loop's starting basis [np.diag(W // w_i)] can be solved
    for exactly when every item fits the roll at least once
    ([W // w_i[i] >= 1]); otherwise [np.linalg.solve] raises.  When it can,
    the starting plan is [xB_j[j] = q_i[j] / (W // w_i[j])]. *)
Theorem column_generation_starting_plan :
  forall (w_i : nat -> nat) (nbi : nat) (q_i : vec) (W : nat),
    ((exists s, CuttingStock.init w_i nbi q_i W = Ok s) <->
     (forall i, (i < nbi)%nat -> (0 < W / w_i i)%nat)) /\
    (forall s, CuttingStock.init w_i nbi q_i W = Ok s ->
       CuttingStock.cont s = true /\
       forall j, (j < nbi)%nat ->
         CuttingStock.xB_j s j = q_i j / INR (W / w_i j)).
Proof.
  intros w_i nbi q_i W. split.
  - exact (init_Ok_iff w_i nbi q_i W).
  - intros s H. exact (init_solution w_i nbi q_i W s H).
Qed.

(** ** The first entering variable of a fresh tableau *)

Section FreshTableau.

Import NamedTableau.

Lemma zero_costs_zero_dual n (M : mat) (y : vec) :
  linalg_solve n M (fun _ => 0) = Ok y -> forall i, (i < n)%nat -> y i = 0.
Proof.
  intros Ey i Hi. destruct (linalg_solve_Ok _ _ _ _ Ey) as [[Minv Hinv] Hy].
  rewrite (solves_unique n M Minv _ y Hinv Hy i Hi). unfold matvec.
  rewrite (np_sum_ext n _ (fun _ => 0)) by (intros; ring). apply np_sum_zero.
Qed.

Lemma fresh_entering nbb nbn B N d c_n nb nn self r :
  create nbb nbn B N d c_n None nb nn = Ok self ->
  determine_entering self = Ok r ->
  match r with
  | None => forall k, (k < nbn)%nat -> c_n k <= 0
  | Some k => (k < nbn)%nat /\ 0 < c_n k
  end.
Proof.
  intros Hc He.
  destruct (determine_entering_spec self r He) as [y [Ey Hr]].
  unfold create in Hc.
  destruct (linalg_solve nbb B d) as [x|]; cbn [bind] in Hc; [|discriminate].
  injection Hc as <-. cbn in Ey, Hr.
  assert (Hy := zero_costs_zero_dual _ _ y Ey).
  assert (Ht : forall k,
            t_n {| MatrixTableau.pivoter :=
                     {| Pivoter.nbb := nbb; Pivoter.B_i_b := B; Pivoter.x_b := x |};
                   MatrixTableau.N_i_n := N; MatrixTableau.d_i := d;
                   MatrixTableau.c_b := fun _ => 0; MatrixTableau.c_n := c_n;
                   MatrixTableau.nbn := nbn |} y k = - c_n k).
  { intros k. unfold t_n. cbn.
    rewrite (np_sum_ext nbb _ (fun _ => 0)) by (intros i Hi; rewrite (Hy i Hi); ring).
    rewrite np_sum_zero. ring. }
  destruct r as [k|].
  - destruct Hr as [Hk Hlt]. rewrite Ht in Hlt. split; [exact Hk | lra].
  - intros k Hk. specialize (Hr k Hk). rewrite Ht in Hr. lra.
Qed.

End FreshTableau.

(** X25.  On a tableau built by [MatrixTableau(...)] with the default
    [c_b] (all zeros), [determine_entering] returns a nonbasic variable
    of positive cost [c_n], and returns [None] exactly when no nonbasic
    variable has a positive cost. *)
Theorem fresh_tableau_enters_a_positive_cost :
  forall (nbb nbn : nat) (B_i_b N_i_n : mat) (d_i c_n : vec)
         (names_basic names_nonbasic : option (list String.string))
         (self : NamedTableau.t) (r : option nat),
    NamedTableau.create nbb nbn B_i_b N_i_n d_i c_n None names_basic names_nonbasic
      = Ok self ->
    NamedTableau.determine_entering self = Ok r ->
    match r with
    | None => forall k, (k < nbn)%nat -> c_n k <= 0
    | Some k => (k < nbn)%nat /\ 0 < c_n k
    end.
Proof.
  intros nbb nbn B_i_b N_i_n d_i c_n names_basic names_nonbasic self r Hc He.
  exact (fresh_entering nbb nbn B_i_b N_i_n d_i c_n names_basic names_nonbasic self r
           Hc He).
Qed.

(** Witness of X25: the one-constraint program, where [x_0] of cost 1
    enters. *)
Lemma fresh_tableau_enters_a_positive_cost_witness :
  (0 < 1)%nat /\ 0 < 1.
Proof.
  destruct simplex_example_run as [s [s' [eps [Hs [_ [He _]]]]]].
  exact (fresh_tableau_enters_a_positive_cost 1 1 (fun _ _ => 1) (fun _ _ => 1)
           (fun _ => 1) (fun _ => 1) None None s (Some O) Hs He).
Defined.
